(** * Financial review analytics core: a shallow embedding

  This development embeds the analytics core of the [fin_review] package
  (normalizer, aging, anomaly detection, KPIs and growth metrics,
  financial ratios and the going-concern assessment) and states its
  properties.

  Conventions of the embedding:
  - floating-point amounts, thresholds and scores are exact rationals ([Q]);
    equalities between them are stated with [==];
  - calendar dates are day ordinals ([Z]); a missing date (pandas [NaT]) or
    a missing number ([NaN]) in a column is [None];
  - a pandas table is a list of rows together with the names of the columns
    it currently has; the structlog calls are an explicit list of log
    entries;
  - Python dictionaries keyed by strings are [gmap string _]; strings are
    ordered as Python orders them, by code point ([String.compare]);
  - the frames produced by a pandas [groupby(...).sum()] ([aggregated],
    [monthly], [monthly_kpis]) are taken as they come out of the grouping. *)

From Stdlib Require Import QArith Qabs Lqa ZArith Lia List Bool.
From Stdlib Require Import Strings.String Strings.Ascii.
From Stdlib Require Import Structures.OrderedTypeEx Sorting.Permutation Sorting.Sorted.
From Stdlib Require Import Reals Qreals.
From Stdlib Require Lra.
From stdpp Require Import base option list gmap strings.

Local Open Scope Q_scope.

(** ** Shared helpers: sums, means, stable sorting *)

Definition Qsum (l : list Q) : Q := fold_left Qplus l 0.

(** [np.mean] / [Series.mean] of a non-empty list of finite numbers. *)
Definition Qmean (l : list Q) : Q := Qsum l / inject_Z (Z.of_nat (length l)).

(** [a < b] on rationals, as a boolean. *)
Definition Qlt_bool (a b : Q) : bool := negb (Qle_bool b a).

Section StableSort.
Context {A : Type}.
Variable leb : A -> A -> bool.

(** Insertion keeps [x] in front of every element it is not strictly
    greater than, so elements with equal keys keep their input order, as
    Python's [sorted] and [list.sort] do. *)
Fixpoint sort_insert (x : A) (l : list A) : list A :=
  match l with
  | [] => [x]
  | y :: ys => if leb x y then x :: y :: ys else y :: sort_insert x ys
  end.

Fixpoint sort_by (l : list A) : list A :=
  match l with
  | [] => []
  | x :: xs => sort_insert x (sort_by xs)
  end.
End StableSort.

(** ** Shared helpers: grouping and outcomes *)

(** [Series.unique()]: the distinct values in order of first appearance. *)
Definition distinct (l : list string) : list string :=
  fold_left (fun acc k => if existsb (String.eqb k) acc then acc else acc ++ [k]) l [].

(** The group keys of a [groupby] on a string column: its distinct
    values, sorted. *)
Definition group_keys (l : list string) : list string :=
  sort_by String.leb (distinct l).

(** [groupby(key)]: every group key with the rows that carry it, the rows
    in their order in the frame. *)
Definition group_by {A} (key : A -> string) (l : list A) : list (string * list A) :=
  map (fun k => (k, List.filter (fun x => String.eqb (key x) k) l))
      (group_keys (map key l)).

(** [sum()] of a numeric column: missing values are skipped. *)
Definition Qsum_skipna (l : list (option Q)) : Q :=
  Qsum (flat_map (fun x => match x with Some q => [q] | None => [] end) l).

(** [needle in haystack] *)
Fixpoint contains (needle haystack : string) : bool :=
  String.prefix needle haystack
  || match haystack with
     | EmptyString => false
     | String _ rest => contains needle rest
     end.

(** What a call that may raise gives back. *)
Inductive Outcome (A : Type) :=
| Returned (a : A)
| Raised (exception message : string).

Arguments Returned {A} a.
Arguments Raised {A} exception message.

(** ** Ratio and going-concern engine ([analytics/ratio_analyzer.py]) *)

Module Ratios.

Inductive Status := Excellent | Good | Warning | Critical.

Inductive Category := Liquidity | Solvency | CashFlow | Profitability | Efficiency.

Inductive OverallStatus := Strong | Adequate | Concerning | OverallCritical.

#[global] Instance Status_eq_dec : EqDecision Status.
Proof. solve_decision. Defined.

#[global] Instance Category_eq_dec : EqDecision Category.
Proof. solve_decision. Defined.

(** The [thresholds] dictionary of a ratio configuration. *)
Record Thresholds := mkThresholds {
  thr_excellent : Q;
  thr_good : Q;
  thr_warning : Q;
  thr_critical : Q
}.

(** One entry of [self.ratio_configs]; the [formula] and [benchmark]
    display texts are left out. *)
Record RatioConfig := mkRatioConfig {
  cfg_name : string;
  cfg_category : Category;
  cfg_thresholds : Thresholds
}.

Record RatioResult := mkRatioResult {
  ratio_name : string;
  value : Q;
  category : Category;
  status : Status;
  applicable : bool
}.

(** A row of the [aggregated] frame: amounts summed per (ABCOTD, bucket). *)
Record AggRow := mkAggRow {
  ABCOTD : string;
  agg_bucket : string;
  agg_amount : Q
}.

Record BalanceSheet := mkBalanceSheet {
  bs_current_assets : Q;
  bs_non_current_assets : Q;
  bs_total_assets : Q;
  bs_current_liabilities : Q;
  bs_non_current_liabilities : Q;
  bs_total_liabilities : Q;
  bs_total_equity : Q
}.

Record IncomeStatement := mkIncomeStatement {
  is_revenue : Q;
  is_cost_of_sales : Q;
  is_gross_profit : Q;
  is_operating_expenses : Q;
  is_payroll : Q;
  is_depreciation : Q;
  is_other_expenses : Q;
  is_total_operating_expenses : Q;
  is_ebit : Q;
  is_interest_expense : Q;
  is_income_tax : Q;
  is_net_income : Q
}.

Record CashFlowStatement := mkCashFlowStatement {
  cf_operating_cash_flow : Q;
  cf_capital_expenditures : Q;
  cf_free_cash_flow : Q;
  cf_cash_and_cash_equivalents : Q
}.

(** [aggregated[aggregated['ABCOTD'].isin(tags)]['amount'].sum()];
    [aggregated['ABCOTD'] == tag] is the one-tag case. *)
Definition isin (tags : list string) (r : AggRow) : bool :=
  existsb (String.eqb (ABCOTD r)) tags.

Definition sum_isin (tags : list string) (aggregated : list AggRow) : Q :=
  Qsum (map agg_amount (List.filter (isin tags) aggregated)).

Definition depreciation_tags : list string :=
  [ "Depreciation of property, plant, and equipment"%string;
    "Depreciation/amortization of rights of use assets"%string;
    "Amortization of intangibles - other"%string ].

Definition create_balance_sheet (aggregated : list AggRow) : BalanceSheet :=
  let current_assets :=
    sum_isin [ "Cash and cash equivalents"%string; "Inventory"%string;
               "Receivables - trade accounts"%string; "Other receivables"%string;
               "Prepaid expenses and accrued income"%string ] aggregated in
  let non_current_assets :=
    sum_isin [ "Property, plant, and equipment"%string; "Intangibles - other"%string;
               "Leases - right of use assets"%string;
               "Deferred tax asset or liability"%string ] aggregated in
  let current_liabilities :=
    sum_isin [ "Payables - trade accounts"%string; "Other payables"%string;
               "Deferred revenue"%string ] aggregated in
  let non_current_liabilities :=
    sum_isin [ "Lease liabilities"%string;
               "Deferred tax asset or liability"%string ] aggregated in
  let equity := sum_isin [ "Equity"%string ] aggregated in
  {| bs_current_assets := Qabs current_assets;
     bs_non_current_assets := Qabs non_current_assets;
     bs_total_assets := Qabs current_assets + Qabs non_current_assets;
     bs_current_liabilities := Qabs current_liabilities;
     bs_non_current_liabilities := Qabs non_current_liabilities;
     bs_total_liabilities := Qabs current_liabilities + Qabs non_current_liabilities;
     bs_total_equity := Qabs equity |}.

Definition create_income_statement (aggregated : list AggRow) : IncomeStatement :=
  let revenue := Qabs (sum_isin [ "Revenue"%string ] aggregated) in
  let cost_of_sales := Qabs (sum_isin [ "Cost of sales"%string ] aggregated) in
  let gross_profit := revenue - cost_of_sales in
  let operating_expenses := Qabs (sum_isin [ "Operating expenses"%string ] aggregated) in
  let payroll := Qabs (sum_isin [ "Payroll"%string ] aggregated) in
  let depreciation := Qabs (sum_isin depreciation_tags aggregated) in
  let other_expenses := Qabs (sum_isin [ "Other expenses"%string ] aggregated) in
  let total_operating_expenses :=
    operating_expenses + payroll + depreciation + other_expenses in
  let ebit := gross_profit - total_operating_expenses in
  let interest_expense :=
    Qabs (sum_isin [ "Interest on lease obligations"%string ] aggregated) in
  let income_tax :=
    Qabs (sum_isin [ "Income tax expense or benefit"%string ] aggregated) in
  {| is_revenue := revenue;
     is_cost_of_sales := cost_of_sales;
     is_gross_profit := gross_profit;
     is_operating_expenses := operating_expenses;
     is_payroll := payroll;
     is_depreciation := depreciation;
     is_other_expenses := other_expenses;
     is_total_operating_expenses := total_operating_expenses;
     is_ebit := ebit;
     is_interest_expense := interest_expense;
     is_income_tax := income_tax;
     is_net_income := ebit - interest_expense - income_tax |}.

Definition create_cash_flow_statement (aggregated : list AggRow) : CashFlowStatement :=
  let revenue := sum_isin [ "Revenue"%string ] aggregated in
  let operating_expenses :=
    sum_isin [ "Cost of sales"%string; "Operating expenses"%string;
               "Payroll"%string; "Other expenses"%string ] aggregated in
  let operating_cash_flow := Qabs revenue - Qabs operating_expenses in
  let depreciation := sum_isin depreciation_tags aggregated in
  let capital_expenditures := Qabs depreciation * (3 # 2) in
  let cash := sum_isin [ "Cash and cash equivalents"%string ] aggregated in
  {| cf_operating_cash_flow := operating_cash_flow;
     cf_capital_expenditures := capital_expenditures;
     cf_free_cash_flow := operating_cash_flow - capital_expenditures;
     cf_cash_and_cash_equivalents := Qabs cash |}.

(** [x / y if y != 0 else None] *)
Definition div_or_none (x y : Q) : option Q :=
  if Qeq_bool y 0 then None else Some (x / y).

(** [_determine_status]: the tiers are tried from the best one down. *)
Definition determine_status (v : Q) (thresholds : Thresholds) : Status :=
  if Qle_bool (thr_excellent thresholds) v then Excellent
  else if Qle_bool (thr_good thresholds) v then Good
  else if Qle_bool (thr_warning thresholds) v then Warning
  else Critical.

(** The three synthesized statements held by the analyzer. *)
Record Statements := mkStatements {
  balance_sheet_data : BalanceSheet;
  income_statement_data : IncomeStatement;
  cash_flow_data : CashFlowStatement
}.

Definition prepare_financial_statements (aggregated : list AggRow) : Statements :=
  {| balance_sheet_data := create_balance_sheet aggregated;
     income_statement_data := create_income_statement aggregated;
     cash_flow_data := create_cash_flow_statement aggregated |}.

(** [_calculate_single_ratio]: [None] when the denominator is zero or the
    ratio has no formula. *)
Definition calculate_single_ratio (st : Statements) (name : string) : option Q :=
  let bs := balance_sheet_data st in
  let inc := income_statement_data st in
  let cf := cash_flow_data st in
  if String.eqb name "current_ratio" then
    div_or_none (bs_current_assets bs) (bs_current_liabilities bs)
  else if String.eqb name "quick_ratio" then
    let inventory := bs_current_assets bs * (2 # 10) in
    let quick_assets := bs_current_assets bs - inventory in
    div_or_none quick_assets (bs_current_liabilities bs)
  else if String.eqb name "cash_ratio" then
    div_or_none (cf_cash_and_cash_equivalents cf) (bs_current_liabilities bs)
  else if String.eqb name "operating_cash_flow_ratio" then
    div_or_none (cf_operating_cash_flow cf) (bs_current_liabilities bs)
  else if String.eqb name "working_capital" then
    Some (bs_current_assets bs - bs_current_liabilities bs)
  else if String.eqb name "net_working_capital_ratio" then
    let working_capital := bs_current_assets bs - bs_current_liabilities bs in
    div_or_none working_capital (bs_total_assets bs)
  else if String.eqb name "debt_to_equity_ratio" then
    div_or_none (bs_total_liabilities bs) (bs_total_equity bs)
  else if String.eqb name "equity_ratio" then
    div_or_none (bs_total_equity bs) (bs_total_assets bs)
  else if String.eqb name "debt_ratio" then
    div_or_none (bs_total_liabilities bs) (bs_total_assets bs)
  else if String.eqb name "interest_coverage_ratio" then
    div_or_none (is_ebit inc) (is_interest_expense inc)
  else if String.eqb name "cash_flow_to_debt_ratio" then
    div_or_none (cf_operating_cash_flow cf) (bs_total_liabilities bs)
  else if String.eqb name "free_cash_flow" then
    Some (cf_free_cash_flow cf)
  else if String.eqb name "free_cash_flow_to_revenue" then
    div_or_none (cf_free_cash_flow cf) (is_revenue inc)
  else if String.eqb name "current_liability_coverage_ratio" then
    div_or_none (cf_free_cash_flow cf) (bs_current_liabilities bs)
  else if String.eqb name "net_profit_margin" then
    div_or_none (is_net_income inc) (is_revenue inc)
  else if String.eqb name "return_on_assets" then
    div_or_none (is_net_income inc) (bs_total_assets bs)
  else if String.eqb name "return_on_equity" then
    div_or_none (is_net_income inc) (bs_total_equity bs)
  else if String.eqb name "asset_turnover" then
    div_or_none (is_revenue inc) (bs_total_assets bs)
  else None.

Definition debt_to_equity_thresholds : Thresholds :=
  mkThresholds (5 # 10) (15 # 10) 2 3.

Definition debt_ratio_thresholds : Thresholds :=
  mkThresholds (3 # 10) (5 # 10) (7 # 10) (8 # 10).

(** [self.ratio_configs], in the insertion order of the dictionary. *)
Definition ratio_configs : list RatioConfig :=
  [ mkRatioConfig "current_ratio" Liquidity (mkThresholds 2 (15 # 10) 1 (5 # 10));
    mkRatioConfig "quick_ratio" Liquidity (mkThresholds (15 # 10) 1 (8 # 10) (5 # 10));
    mkRatioConfig "cash_ratio" Liquidity (mkThresholds 1 (5 # 10) (3 # 10) (1 # 10));
    mkRatioConfig "operating_cash_flow_ratio" Liquidity
      (mkThresholds (15 # 10) 1 (8 # 10) (5 # 10));
    mkRatioConfig "working_capital" Liquidity
      (mkThresholds 1000000 500000 0 (-500000));
    mkRatioConfig "net_working_capital_ratio" Liquidity
      (mkThresholds (2 # 10) (1 # 10) (5 # 100) 0);
    mkRatioConfig "debt_to_equity_ratio" Solvency debt_to_equity_thresholds;
    mkRatioConfig "equity_ratio" Solvency
      (mkThresholds (6 # 10) (4 # 10) (3 # 10) (2 # 10));
    mkRatioConfig "debt_ratio" Solvency debt_ratio_thresholds;
    mkRatioConfig "interest_coverage_ratio" Solvency (mkThresholds 5 3 (15 # 10) 1);
    mkRatioConfig "fixed_charge_coverage_ratio" Solvency
      (mkThresholds 3 2 (15 # 10) 1);
    mkRatioConfig "long_term_debt_to_capitalization" Solvency
      (mkThresholds (3 # 10) (5 # 10) (7 # 10) (8 # 10));
    mkRatioConfig "cash_flow_to_debt_ratio" CashFlow
      (mkThresholds (4 # 10) (3 # 10) (2 # 10) (1 # 10));
    mkRatioConfig "free_cash_flow" CashFlow
      (mkThresholds 1000000 500000 0 (-500000));
    mkRatioConfig "free_cash_flow_to_revenue" CashFlow
      (mkThresholds (1 # 10) (5 # 100) (2 # 100) 0);
    mkRatioConfig "current_liability_coverage_ratio" CashFlow
      (mkThresholds (15 # 10) 1 (8 # 10) (5 # 10));
    mkRatioConfig "net_profit_margin" Profitability
      (mkThresholds (15 # 100) (10 # 100) (5 # 100) 0);
    mkRatioConfig "return_on_assets" Profitability
      (mkThresholds (10 # 100) (5 # 100) (3 # 100) 0);
    mkRatioConfig "return_on_equity" Profitability
      (mkThresholds (20 # 100) (15 # 100) (10 # 100) (5 # 100));
    mkRatioConfig "asset_turnover" Efficiency
      (mkThresholds (15 # 10) 1 (8 # 10) (5 # 10)) ].

(** The body of the loop of [_calculate_ratios] for one configuration.  The
    [except] branch is unreachable here: exact arithmetic raises nothing. *)
Definition ratio_result_of (st : Statements) (config : RatioConfig) : RatioResult :=
  match calculate_single_ratio st (cfg_name config) with
  | Some v =>
      {| ratio_name := cfg_name config;
         value := v;
         category := cfg_category config;
         status := determine_status v (cfg_thresholds config);
         applicable := true |}
  | None =>
      {| ratio_name := cfg_name config;
         value := 0;
         category := cfg_category config;
         status := Warning;
         applicable := false |}
  end.

(** [_calculate_ratios] appends one result per configuration to
    [self.ratios]. *)
Definition calculate_ratios (st : Statements) (ratios : list RatioResult)
  : list RatioResult :=
  fold_left (fun acc config => acc ++ [ratio_result_of st config]) ratio_configs ratios.

(** The [if/elif/else] ladder shared by the three score functions. *)
Definition status_points (s : Status) : Q :=
  match s with
  | Excellent => 90
  | Good => 75
  | Warning => 50
  | Critical => 25
  end.

(** The common body of [_calculate_liquidity_score], [_calculate_solvency_score]
    and [_calculate_cash_flow_score], which differ only in the category
    literal: select the applicable ratios of the category, return the
    neutral 50 when there is none, otherwise append each ratio's points to
    [scores] and return [np.mean(scores)]. *)
Definition calculate_category_score (cat : Category) (ratios : list RatioResult) : Q :=
  let selected :=
    List.filter (fun r => bool_decide (category r = cat) && applicable r) ratios in
  match selected with
  | [] => 50
  | _ =>
      let scores :=
        fold_left (fun scores r => scores ++ [status_points (status r)]) selected [] in
      Qmean scores
  end.

Definition calculate_liquidity_score (ratios : list RatioResult) : Q :=
  calculate_category_score Liquidity ratios.

Definition calculate_solvency_score (ratios : list RatioResult) : Q :=
  calculate_category_score Solvency ratios.

Definition calculate_cash_flow_score (ratios : list RatioResult) : Q :=
  calculate_category_score CashFlow ratios.

(** The local [overall_score] of [_determine_overall_status]. *)
Definition overall_score (liquidity_score solvency_score cash_flow_score : Q) : Q :=
  (liquidity_score + solvency_score + cash_flow_score) / 3.

Definition determine_overall_status
  (liquidity_score solvency_score cash_flow_score : Q) : OverallStatus :=
  let score := overall_score liquidity_score solvency_score cash_flow_score in
  if Qle_bool 80 score then Strong
  else if Qle_bool 60 score then Adequate
  else if Qle_bool 40 score then Concerning
  else OverallCritical.

(** The scores and the overall tier computed by [_assess_going_concern]. *)
Record GoingConcernAssessment := mkGoingConcern {
  overall_status : OverallStatus;
  liquidity_score : Q;
  solvency_score : Q;
  cash_flow_score : Q
}.

Definition assess_going_concern (ratios : list RatioResult) : GoingConcernAssessment :=
  let l := calculate_liquidity_score ratios in
  let s := calculate_solvency_score ratios in
  let c := calculate_cash_flow_score ratios in
  {| overall_status := determine_overall_status l s c;
     liquidity_score := l;
     solvency_score := s;
     cash_flow_score := c |}.

(** [analyze] on an analyzer whose [self.ratios] holds [ratios]. *)
Definition analyze (aggregated : list AggRow) (ratios : list RatioResult)
  : list RatioResult * GoingConcernAssessment :=
  let st := prepare_financial_statements aggregated in
  let ratios' := calculate_ratios st ratios in
  (ratios', assess_going_concern ratios').

(** *** Risks, strengths and recommendations *)

Definition is_lower (c : ascii) : bool :=
  (97 <=? nat_of_ascii c)%nat && (nat_of_ascii c <=? 122)%nat.

Definition is_upper (c : ascii) : bool :=
  (65 <=? nat_of_ascii c)%nat && (nat_of_ascii c <=? 90)%nat.

Definition to_upper (c : ascii) : ascii :=
  if is_lower c then ascii_of_nat (nat_of_ascii c - 32) else c.

Definition to_lower (c : ascii) : ascii :=
  if is_upper c then ascii_of_nat (nat_of_ascii c + 32) else c.

(** [str.lower()], for text in ASCII. *)
Fixpoint lower (s : string) : string :=
  match s with
  | EmptyString => EmptyString
  | String c rest => String (to_lower c) (lower rest)
  end.

(** [str.replace('_', ' ')] *)
Fixpoint replace_underscores (s : string) : string :=
  match s with
  | EmptyString => EmptyString
  | String c rest =>
      String (if Ascii.eqb c "_" then " "%char else c) (replace_underscores rest)
  end.

(** [str.title()], for text in ASCII: a letter that follows a letter is
    lowered, any other letter is raised. *)
Fixpoint title_from (previous_is_cased : bool) (s : string) : string :=
  match s with
  | EmptyString => EmptyString
  | String c rest =>
      if is_lower c then
        String (if previous_is_cased then c else to_upper c) (title_from true rest)
      else if is_upper c then
        String (if previous_is_cased then to_lower c else c) (title_from true rest)
      else String c (title_from false rest)
  end.

Definition title (s : string) : string := title_from false s.

(** [ratio.ratio_name.replace('_', ' ').title()] *)
Definition display_name (r : RatioResult) : string :=
  title (replace_underscores (ratio_name r)).

(** The risk sentence of a critical ratio; the other categories have no
    branch. *)
Definition critical_risk (r : RatioResult) : list string :=
  match category r with
  | Liquidity =>
      [ ("Critical liquidity risk: " ++ display_name r
         ++ " indicates severe short-term financial stress")%string ]
  | Solvency =>
      [ ("Critical solvency risk: " ++ display_name r
         ++ " indicates high long-term financial risk")%string ]
  | CashFlow =>
      [ ("Critical cash flow risk: " ++ display_name r
         ++ " indicates severe cash generation problems")%string ]
  | _ => []
  end.

Definition with_status (s : Status) (ratios : list RatioResult) : list RatioResult :=
  List.filter (fun r => bool_decide (status r = s) && applicable r) ratios.

(** [_identify_key_risks] *)
Definition identify_key_risks (ratios : list RatioResult) : list string :=
  let risks := flat_map critical_risk (with_status Critical ratios) in
  let risks :=
    risks
    ++ map (fun r => ("Moderate risk: " ++ display_name r
                      ++ " requires monitoring")%string)
           (firstn 3 (with_status Warning ratios)) in
  firstn 5 risks.

Definition strength (r : RatioResult) : list string :=
  match category r with
  | Liquidity =>
      [ ("Strong liquidity: " ++ display_name r
         ++ " indicates excellent short-term financial health")%string ]
  | Solvency =>
      [ ("Strong solvency: " ++ display_name r
         ++ " indicates excellent long-term financial stability")%string ]
  | CashFlow =>
      [ ("Strong cash flow: " ++ display_name r
         ++ " indicates excellent cash generation")%string ]
  | _ => []
  end.

(** [_identify_key_strengths] *)
Definition identify_key_strengths (ratios : list RatioResult) : list string :=
  firstn 5 (flat_map strength (with_status Excellent ratios)).

(** [any(needle in risk.lower() for risk in key_risks)] *)
Definition any_mentions (needle : string) (key_risks : list string) : bool :=
  existsb (fun risk => contains needle (lower risk)) key_risks.

Definition standing_recommendations : list string :=
  [ "Establish monthly financial monitoring and early warning systems";
    "Develop contingency plans for various stress scenarios";
    "Consider external financing options to strengthen financial position" ]%string.

(** [_generate_recommendations] *)
Definition generate_recommendations (key_risks : list string) : list string :=
  let critical_liquidity := any_mentions "liquidity risk" key_risks in
  let critical_solvency := any_mentions "solvency risk" key_risks in
  let critical_cash_flow := any_mentions "cash flow risk" key_risks in
  let recommendations :=
    (if critical_liquidity
     then [ "URGENT: Implement immediate liquidity management measures including cash flow forecasting and working capital optimization"%string ]
     else [])
    ++ (if critical_solvency
        then [ "CRITICAL: Restructure debt obligations and consider equity infusion to improve capital structure"%string ]
        else [])
    ++ (if critical_cash_flow
        then [ "HIGH PRIORITY: Implement aggressive cash flow improvement measures including cost reduction and revenue enhancement"%string ]
        else [])
    ++ standing_recommendations in
  firstn 6 recommendations.

(** The word [_create_detailed_analysis] puts on a category score in its
    report; the surrounding report text is left out. *)
Definition score_wording (score : Q) : string :=
  if Qle_bool 75 score then "strong"
  else if Qle_bool 50 score then "adequate"
  else if Qle_bool 25 score then "concerning"
  else "critical".

(** *** The scoring rule as the specification words it *)

Definition spec_points (s : Status) : Q :=
  match s with
  | Excellent => 90
  | Good => 75
  | Warning => 50
  | Critical => 25
  end.

Definition spec_applicable_in (cat : Category) (ratios : list RatioResult)
  : list RatioResult :=
  List.filter (fun r => bool_decide (category r = cat) && applicable r) ratios.

(** Mean of the points of the category's applicable ratios, 50 without any. *)
Definition spec_sub_score (cat : Category) (ratios : list RatioResult) : Q :=
  match spec_applicable_in cat ratios with
  | [] => 50
  | sel => Qsum (map (fun r => spec_points (status r)) sel)
           / inject_Z (Z.of_nat (length sel))
  end.

(** The value meets the threshold of a tier; [Critical], the floor of the
    ladder, asks for nothing. *)
Definition tier_met (v : Q) (thresholds : Thresholds) (s : Status) : Prop :=
  match s with
  | Excellent => thr_excellent thresholds <= v
  | Good => thr_good thresholds <= v
  | Warning => thr_warning thresholds <= v
  | Critical => True
  end.

(** Rank of a status tier, larger is better. *)
Definition status_rank (s : Status) : nat :=
  match s with
  | Excellent => 3
  | Good => 2
  | Warning => 1
  | Critical => 0
  end.


End Ratios.

(** ** Logging as an explicit effect *)

Inductive LogLevel := LogDebug | LogInfo | LogWarning.

Record LogEntry := mkLog {
  log_level : LogLevel;
  log_event : string
}.

#[global] Instance LogLevel_eq_dec : EqDecision LogLevel.
Proof. solve_decision. Defined.

(** A computation that also writes a list of entries: log lines for the
    structlog calls, arithmetic operations for the growth metrics. *)
Definition Writer (L A : Type) : Type := A * list L.

Definition w_ret {L A} (a : A) : Writer L A := (a, []).

Definition w_bind {L A B} (c : Writer L A) (k : A -> Writer L B) : Writer L B :=
  let '(a, l1) := c in
  let '(b, l2) := k a in
  (b, l1 ++ l2).

Definition w_tell {L} (entry : L) : Writer L unit := (tt, [entry]).

Notation "'let*' x := c 'in' k" := (w_bind c (fun x => k))
  (at level 10, x pattern, c at level 100, k at level 200).

Definition Logged (A : Type) : Type := Writer LogEntry A.

Definition log_ret {A} (a : A) : Logged A := w_ret a.

Definition log_emit (lvl : LogLevel) (event : string) : Logged unit :=
  w_tell (mkLog lvl event).

Definition log_when (cond : bool) (lvl : LogLevel) (event : string) : Logged unit :=
  if cond then log_emit lvl event else log_ret tt.

(** ** Canonical transaction table *)

Module Frame.

(** One ledger row with the raw columns and the columns the normalizer and
    the aging analysis derive.  A field of a column the table does not have
    carries no information; [columns] says which columns exist. *)
Record Row := mkRow {
  posting_date : Z;
  doc_id : string;
  gl_account : string;
  amount : option Q;
  due_date : option Z;
  open_amount : option Q;
  bucket : string;
  type : string;
  entity_mapped : option string;
  is_mapped : bool;
  is_receivable : bool;
  is_payable : bool;
  is_revenue : bool;
  is_opex : bool;
  is_payroll : bool;
  days_overdue : option Z;
  is_overdue : bool;
  aging_bucket : string
}.

Record Table := mkTable {
  columns : list string;
  rows : list Row
}.

(** [name in df.columns] *)
Definition has_column (name : string) (t : Table) : bool :=
  existsb (String.eqb name) (columns t).

(** [df[name] = ...] creates the column when it is new. *)
Definition add_column (name : string) (cols : list string) : list string :=
  if existsb (String.eqb name) cols then cols else cols ++ [name].

Definition add_columns (names : list string) (cols : list string) : list string :=
  fold_left (fun acc n => add_column n acc) names cols.

(** A raw input row: only the source columns are filled. *)
Definition raw_row (pd : Z) (doc gl : string) (amt : option Q)
  (due : option Z) (open : option Q) : Row :=
  {| posting_date := pd; doc_id := doc; gl_account := gl; amount := amt;
     due_date := due; open_amount := open;
     bucket := ""; type := ""; entity_mapped := None; is_mapped := false;
     is_receivable := false; is_payable := false; is_revenue := false;
     is_opex := false; is_payroll := false;
     days_overdue := None; is_overdue := false; aging_bucket := "" |}.

Definition set_amounts (amt open : option Q) (r : Row) : Row :=
  {| posting_date := posting_date r; doc_id := doc_id r; gl_account := gl_account r;
     amount := amt; due_date := due_date r; open_amount := open;
     bucket := bucket r; type := type r; entity_mapped := entity_mapped r;
     is_mapped := is_mapped r;
     is_receivable := is_receivable r; is_payable := is_payable r;
     is_revenue := is_revenue r; is_opex := is_opex r; is_payroll := is_payroll r;
     days_overdue := days_overdue r; is_overdue := is_overdue r;
     aging_bucket := aging_bucket r |}.

Definition set_mapping (b ty : string) (ent : option string) (mapped : bool)
  (r : Row) : Row :=
  {| posting_date := posting_date r; doc_id := doc_id r; gl_account := gl_account r;
     amount := amount r; due_date := due_date r; open_amount := open_amount r;
     bucket := b; type := ty; entity_mapped := ent; is_mapped := mapped;
     is_receivable := is_receivable r; is_payable := is_payable r;
     is_revenue := is_revenue r; is_opex := is_opex r; is_payroll := is_payroll r;
     days_overdue := days_overdue r; is_overdue := is_overdue r;
     aging_bucket := aging_bucket r |}.

Definition set_flags (rcv pay rev opex payroll : bool) (r : Row) : Row :=
  {| posting_date := posting_date r; doc_id := doc_id r; gl_account := gl_account r;
     amount := amount r; due_date := due_date r; open_amount := open_amount r;
     bucket := bucket r; type := type r; entity_mapped := entity_mapped r;
     is_mapped := is_mapped r;
     is_receivable := rcv; is_payable := pay;
     is_revenue := rev; is_opex := opex; is_payroll := payroll;
     days_overdue := days_overdue r; is_overdue := is_overdue r;
     aging_bucket := aging_bucket r |}.

Definition set_days_overdue (d : option Z) (r : Row) : Row :=
  {| posting_date := posting_date r; doc_id := doc_id r; gl_account := gl_account r;
     amount := amount r; due_date := due_date r; open_amount := open_amount r;
     bucket := bucket r; type := type r; entity_mapped := entity_mapped r;
     is_mapped := is_mapped r;
     is_receivable := is_receivable r; is_payable := is_payable r;
     is_revenue := is_revenue r; is_opex := is_opex r; is_payroll := is_payroll r;
     days_overdue := d; is_overdue := is_overdue r;
     aging_bucket := aging_bucket r |}.

Definition set_is_overdue (o : bool) (r : Row) : Row :=
  {| posting_date := posting_date r; doc_id := doc_id r; gl_account := gl_account r;
     amount := amount r; due_date := due_date r; open_amount := open_amount r;
     bucket := bucket r; type := type r; entity_mapped := entity_mapped r;
     is_mapped := is_mapped r;
     is_receivable := is_receivable r; is_payable := is_payable r;
     is_revenue := is_revenue r; is_opex := is_opex r; is_payroll := is_payroll r;
     days_overdue := days_overdue r; is_overdue := o;
     aging_bucket := aging_bucket r |}.

Definition set_aging_bucket (name : string) (r : Row) : Row :=
  {| posting_date := posting_date r; doc_id := doc_id r; gl_account := gl_account r;
     amount := amount r; due_date := due_date r; open_amount := open_amount r;
     bucket := bucket r; type := type r; entity_mapped := entity_mapped r;
     is_mapped := is_mapped r;
     is_receivable := is_receivable r; is_payable := is_payable r;
     is_revenue := is_revenue r; is_opex := is_opex r; is_payroll := is_payroll r;
     days_overdue := days_overdue r; is_overdue := is_overdue r;
     aging_bucket := name |}.

(** [df['posting_date'].max()]; [None] for a table without rows. *)
Definition max_posting_date (rs : list Row) : option Z :=
  match rs with
  | [] => None
  | r :: rs' => Some (fold_left (fun m x => Z.max m (posting_date x)) rs' (posting_date r))
  end.

(** [(current_date - date).dt.days], missing when either side is. *)
Definition days_between (current_date date : option Z) : option Z :=
  match current_date, date with
  | Some c, Some d => Some (c - d)%Z
  | _, _ => None
  end.

(** [notna() & (series != 0)] *)
Definition notna_nonzero (x : option Q) : bool :=
  match x with
  | Some q => negb (Qeq_bool q 0)
  | None => false
  end.

End Frame.

(** ** Normalizer ([transformers/normalizer.py]) *)

Module Normalizer.
Import Frame.

(** A row of the mapping table. *)
Record MappingRow := mkMappingRow {
  map_gl_account : string;
  map_bucket : string;
  map_type : string;
  map_entity : option string;
  map_notes : option string
}.

(** A value of [mapping_dict]. *)
Record MappingInfo := mkMappingInfo {
  info_bucket : string;
  info_type : string;
  info_entity_mapped : option string;
  info_notes : option string
}.

(** The recognised keys of the configuration dictionary; [None] is a
    key that is not set. *)
Record Config := mkConfig {
  amount_sign_convention : option string;
  overdue_threshold_days : option Z
}.

Definition neg_opt (x : option Q) : option Q :=
  match x with
  | Some q => Some (- q)
  | None => None
  end.

(** [_normalize_amounts] *)
Definition normalize_amounts (config : Config) (t : Table) : Logged Table :=
  let convention := default "positive_debit"%string (amount_sign_convention config) in
  if String.eqb convention "positive_credit" then
    let* _ := log_emit LogInfo
      "Converting amounts from positive_credit to positive_debit convention" in
    log_ret
      {| columns := columns t;
         rows := map (fun r =>
                   set_amounts (neg_opt (amount r))
                     (if has_column "open_amount" t
                      then neg_opt (open_amount r) else open_amount r) r)
                   (rows t) |}
  else log_ret t.

(** The loop that fills [mapping_dict]: a later row of the mapping table
    overwrites an earlier one with the same account. *)
Definition build_mapping_dict (mapping : list MappingRow) : gmap string MappingInfo :=
  fold_left
    (fun d row =>
       <[ map_gl_account row :=
            {| info_bucket := map_bucket row;
               info_type := map_type row;
               info_entity_mapped := map_entity row;
               info_notes := map_notes row |} ]> d)
    mapping ∅.

(** The three [map] calls and the [is_mapped] column of [_merge_mapping],
    for one row. *)
Definition merge_row (mapping_dict : gmap string MappingInfo) (r : Row) : Row :=
  let found := mapping_dict !! gl_account r in
  let b := match found with Some i => info_bucket i | None => "Unmapped"%string end in
  let ty := match found with Some i => info_type i | None => "Other"%string end in
  let ent := match found with Some i => info_entity_mapped i | None => None end in
  set_mapping b ty ent (negb (String.eqb b "Unmapped")) r.

(** [_merge_mapping] *)
Definition merge_mapping (mapping : list MappingRow) (t : Table) : Logged Table :=
  let mapping_dict := build_mapping_dict mapping in
  let rows' := map (merge_row mapping_dict) (rows t) in
  let unmapped_count := length (List.filter (fun r => negb (is_mapped r)) rows') in
  let* _ := log_when (0 <? unmapped_count)%nat LogWarning "Unmapped rows after merge" in
  let* _ := log_emit LogInfo "Merged mapping data" in
  log_ret
    {| columns := add_columns ["bucket"; "type"; "entity_mapped"; "is_mapped"]%string
                    (columns t);
       rows := rows' |}.

(** [_enrich_ar_ap_flags] *)
Definition enrich_ar_ap_flags (t : Table) : Logged Table :=
  let* _ := log_emit LogDebug "Added type flags" in
  log_ret
    {| columns := add_columns
                    ["is_receivable"; "is_payable"; "is_revenue"; "is_opex";
                     "is_payroll"]%string (columns t);
       rows := map (fun r =>
                 set_flags (String.eqb (type r) "Receivable")
                           (String.eqb (type r) "Payable")
                           (String.eqb (type r) "Revenue")
                           (String.eqb (type r) "OPEX")
                           (String.eqb (type r) "Payroll") r)
                 (rows t) |}.

(** [series > threshold]; a missing value compares false. *)
Definition gt_opt (d : option Z) (threshold : Z) : bool :=
  match d with
  | Some x => (threshold <? x)%Z
  | None => false
  end.

(** [_calculate_overdue] *)
Definition calculate_overdue (config : Config) (t : Table) : Logged Table :=
  let cols := add_columns ["days_overdue"; "is_overdue"]%string (columns t) in
  if negb (has_column "due_date" t) then
    let* _ := log_emit LogInfo
      "due_date column not available, skipping overdue calculation" in
    log_ret
      {| columns := cols;
         rows := map (fun r => set_is_overdue false (set_days_overdue (Some 0%Z) r))
                   (rows t) |}
  else
    let current_date := max_posting_date (rows t) in
    let overdue_threshold := default 0%Z (overdue_threshold_days config) in
    let rows1 :=
      map (fun r =>
             let d := days_between current_date (due_date r) in
             set_is_overdue (gt_opt d overdue_threshold) (set_days_overdue d r))
          (rows t) in
    let rows2 :=
      if has_column "open_amount" t then
        map (fun r =>
               set_is_overdue (is_overdue r && notna_nonzero (open_amount r)) r)
            rows1
      else rows1 in
    let overdue_count := length (List.filter is_overdue rows2) in
    let* _ := log_when (0 <? overdue_count)%nat LogInfo "Overdue items identified" in
    log_ret {| columns := cols; rows := rows2 |}.

(** [normalize].  [_add_temporal_features], which only adds calendar columns
    computed from [posting_date], is not part of the embedding. *)
Definition normalize (config : Config) (mapping : list MappingRow) (fagl : Table)
  : Logged Table :=
  let* _ := log_emit LogInfo "Starting data normalization" in
  let* t1 := normalize_amounts config fagl in
  let* t2 := merge_mapping mapping t1 in
  let* t3 := enrich_ar_ap_flags t2 in
  let* t4 := calculate_overdue config t3 in
  let* _ := log_emit LogInfo "Normalization complete" in
  log_ret t4.

(** A row of the frame [get_unmapped_summary] returns. *)
Record UnmappedSummaryRow := mkUnmappedSummaryRow {
  us_gl_account : string;
  us_transaction_count : nat;
  us_total_amount : Q
}.

(** [get_unmapped_summary] on a normalizer whose [normalized_df] is still
    [None] or holds a table.  [sort_values] leaves the order of equal
    magnitudes open; here they keep their order. *)
Definition get_unmapped_summary (normalized_df : option Table)
  : Outcome (list UnmappedSummaryRow) :=
  match normalized_df with
  | None => Raised "ValueError" "Data not normalized. Call normalize() first."
  | Some t =>
      let unmapped := List.filter (fun r => negb (is_mapped r)) (rows t) in
      match unmapped with
      | [] => Returned []
      | _ =>
          let summary :=
            map (fun g =>
                   {| us_gl_account := fst g;
                      us_transaction_count := length (snd g);
                      us_total_amount := Qsum_skipna (map amount (snd g)) |})
                (group_by gl_account unmapped) in
          Returned
            (sort_by (fun a b => Qle_bool (Qabs (us_total_amount b))
                                          (Qabs (us_total_amount a)))
                     summary)
      end
  end.

(** *** Row-wise view of [normalize] *)

(** What [_calculate_overdue] leaves in one row, given the column flags of
    the table and its latest posting date. *)
Definition overdue_row (config : Config) (has_due has_open : bool)
  (current_date : option Z) (r : Row) : Row :=
  if negb has_due then set_is_overdue false (set_days_overdue (Some 0%Z) r)
  else
    let d := days_between current_date (due_date r) in
    let r1 :=
      set_is_overdue (gt_opt d (default 0%Z (overdue_threshold_days config)))
        (set_days_overdue d r) in
    if has_open
    then set_is_overdue (is_overdue r1 && notna_nonzero (open_amount r1)) r1
    else r1.

Definition flags_row (r : Row) : Row :=
  set_flags (String.eqb (type r) "Receivable") (String.eqb (type r) "Payable")
            (String.eqb (type r) "Revenue") (String.eqb (type r) "OPEX")
            (String.eqb (type r) "Payroll") r.

Definition amounts_row (config : Config) (has_open : bool) (r : Row) : Row :=
  if String.eqb (default "positive_debit"%string (amount_sign_convention config))
                "positive_credit"
  then set_amounts (neg_opt (amount r))
         (if has_open then neg_opt (open_amount r) else open_amount r) r
  else r.

Definition normalize_row (config : Config) (mapping : list MappingRow) (fagl : Table)
  (r : Row) : Row :=
  overdue_row config (has_column "due_date" fagl) (has_column "open_amount" fagl)
    (max_posting_date (rows fagl))
    (flags_row
       (merge_row (build_mapping_dict mapping)
          (amounts_row config (has_column "open_amount" fagl) r))).

(** The account keys of the mapping table. *)
Definition mapping_keys (mapping : list MappingRow) : list string :=
  map map_gl_account mapping.

(** *** Sample data *)

Definition no_config : Config :=
  {| amount_sign_convention := None; overdue_threshold_days := None |}.

(** A mapping whose only entry carries the label "Unmapped". *)
Definition sentinel_mapping : list MappingRow :=
  [ mkMappingRow "100" "Unmapped" "Revenue" None None ].

Definition sentinel_ledger : Table :=
  {| columns := ["posting_date"; "doc_id"; "gl_account"; "amount"]%string;
     rows := [ raw_row 10 "D1" "100" (Some 1000) None None ] |}.

Definition revenue_mapping : list MappingRow :=
  [ mkMappingRow "400000" "Revenue" "Revenue" None None ].


(** Two postings thirty-one days apart, in a table without [due_date]. *)
Definition ledger_without_due_date : Table :=
  {| columns := ["posting_date"; "doc_id"; "gl_account"; "amount"]%string;
     rows := [ raw_row 100 "D1" "400000" (Some 1000) None None;
               raw_row 131 "D2" "400000" (Some 1000) None None ] |}.

(** Three receivables with due dates: the first is past due and open,
    the second not yet due, the third past due but settled. *)
Definition ledger_with_due_dates : Table :=
  {| columns := ["posting_date"; "doc_id"; "gl_account"; "amount"; "due_date";
                 "open_amount"]%string;
     rows := [ raw_row 100 "D1" "120000" (Some 500) (Some 60%Z) (Some 500);
               raw_row 131 "D2" "120000" (Some 300) (Some 140%Z) (Some 300);
               raw_row 120 "D3" "999999" (Some 200) (Some 90%Z) (Some 0) ] |}.

Definition credit_config : Config :=
  {| amount_sign_convention := Some "positive_credit"%string;
     overdue_threshold_days := None |}.

End Normalizer.

(** ** Aging engine ([analytics/aging.py]) *)

Module Aging.
Import Frame.

(** One entry [[min_days, max_days, label]] of the [aging_buckets] setting. *)
Record AgingBucket := mkAgingBucket {
  min_days : Z;
  max_days : Z;
  bucket_name : string
}.

Definition default_aging_buckets : list AgingBucket :=
  [ mkAgingBucket 0 0 "Current";
    mkAgingBucket 1 30 "0-30 days";
    mkAgingBucket 31 60 "31-60 days";
    mkAgingBucket 61 90 "61-90 days";
    mkAgingBucket 91 999999 ">90 days" ].

(** The analyzer: its bucket list and the [current_date] taken in
    [__init__] from the whole table. *)
Record Analyzer := mkAnalyzer {
  df : Table;
  aging_buckets : list AgingBucket;
  current_date : option Z
}.

Definition make_analyzer (t : Table) (configured : option (list AgingBucket)) : Analyzer :=
  {| df := t;
     aging_buckets := default default_aging_buckets configured;
     current_date := max_posting_date (rows t) |}.

(** [(days_overdue >= min_days) & (days_overdue <= max_days)]; a missing
    [days_overdue] satisfies neither comparison. *)
Definition in_range (b : AgingBucket) (d : option Z) : bool :=
  match d with
  | Some x => (min_days b <=? x)%Z && (x <=? max_days b)%Z
  | None => false
  end.

(** [df['due_date'].notna().any()] *)
Definition any_due_date (rs : list Row) : bool :=
  existsb (fun r => match due_date r with Some _ => true | None => false end) rs.

(** The first half of [_assign_aging_buckets]: [days_overdue] is computed
    only for a table that does not have the column yet. *)
Definition ensure_days_overdue (a : Analyzer) (t : Table) : Logged Table :=
  if has_column "days_overdue" t then log_ret t
  else if has_column "due_date" t && any_due_date (rows t) then
    log_ret
      {| columns := add_column "days_overdue" (columns t);
         rows := map (fun r =>
                   set_days_overdue (days_between (current_date a) (due_date r)) r)
                   (rows t) |}
  else
    let* _ := log_emit LogWarning
      "No due_date available, using posting_date + 30 days" in
    log_ret
      {| columns := add_column "days_overdue" (columns t);
         rows := map (fun r =>
                   let default_due := (posting_date r + 30)%Z in
                   set_days_overdue (days_between (current_date a) (Some default_due)) r)
                   (rows t) |}.

(** One pass of the bucket loop: [df.loc[mask, 'aging_bucket'] = bucket_name]. *)
Definition apply_bucket (rs : list Row) (b : AgingBucket) : list Row :=
  map (fun r => if in_range b (days_overdue r)
                then set_aging_bucket (bucket_name b) r else r) rs.

(** [_assign_aging_buckets] *)
Definition assign_aging_buckets (a : Analyzer) (t : Table) : Logged Table :=
  let* t1 := ensure_days_overdue a t in
  let unknown := map (set_aging_bucket "Unknown") (rows t1) in
  log_ret
    {| columns := add_column "aging_bucket" (columns t1);
       rows := fold_left apply_bucket (aging_buckets a) unknown |}.

(** The label one row ends with: the loop overwrites it at every bucket
    whose range holds [days_overdue]. *)
Definition assigned_label (buckets : list AgingBucket) (d : option Z) : string :=
  fold_left (fun label b => if in_range b d then bucket_name b else label)
            buckets "Unknown"%string.

(** The range of a bucket holds a number of days. *)
Definition covers (b : AgingBucket) (d : Z) : Prop :=
  (min_days b <= d /\ d <= max_days b)%Z.

(** No two entries of the list share a day. *)
Definition non_overlapping (buckets : list AgingBucket) : Prop :=
  forall (i j : nat) (bi bj : AgingBucket) (d : Z),
    buckets !! i = Some bi -> buckets !! j = Some bj -> i <> j ->
    ~ (covers bi d /\ covers bj d).

(** The open items that [_analyze_ar] ([flag := is_receivable]) and
    [_analyze_ap] ([flag := is_payable]) hand to [_assign_aging_buckets]. *)
Definition open_items (flag : Row -> bool) (t : Table) : Table :=
  let selected := List.filter flag (rows t) in
  {| columns := columns t;
     rows := if has_column "open_amount" t
             then List.filter (fun r => notna_nonzero (open_amount r)) selected
             else selected |}.

(** The guard and the assignment of [_analyze_ar] / [_analyze_ap]: without
    any row of the kind the analysis returns an empty result ([None]);
    otherwise the open items are bucketed. *)
Definition aged_open_items (a : Analyzer) (flag : Row -> bool) (no_data : string)
  : Logged (option Table) :=
  match List.filter flag (rows (df a)) with
  | [] =>
      let* _ := log_emit LogWarning no_data in
      log_ret None
  | _ =>
      let* t := assign_aging_buckets a (open_items flag (df a)) in
      log_ret (Some t)
  end.

(** A row of the [aging_summary] frame. *)
Record AgingSummaryRow := mkAgingSummaryRow {
  as_aging_bucket : string;
  as_outstanding_amount : Q;
  as_item_count : nat;
  as_pct_of_total : Q
}.

(** The summary dictionary; the two overdue entries are missing from the
    one returned when there is no row of the kind. *)
Record AgingSummary := mkAgingSummary {
  total_outstanding : Q;
  item_count : nat;
  overdue_amount : option Q;
  overdue_pct : option Q
}.

(** [{name: i for i, name in enumerate(bucket_order)}.get(label)]: the last
    position of the label in the configured list. *)
Definition bucket_order (buckets : list AgingBucket) (label : string) : option nat :=
  fold_left
    (fun found p => if String.eqb (bucket_name (snd p)) label then Some (fst p) else found)
    (combine (seq 0 (length buckets)) buckets) None.

(** Ascending order of the [bucket_order] column, missing values last. *)
Definition order_leb (a b : option nat) : bool :=
  match a, b with
  | Some i, Some j => (i <=? j)%nat
  | Some _, None => true
  | None, Some _ => false
  | None, None => true
  end.

(** The aggregation of [_analyze_ar] / [_analyze_ap] on the bucketed open
    items. *)
Definition aging_summary_of (buckets : list AgingBucket) (items : list Row)
  : list AgingSummaryRow * AgingSummary :=
  let grouped :=
    map (fun g => (fst g, Qsum_skipna (map open_amount (snd g)), length (snd g)))
        (group_by aging_bucket items) in
  let total := Qsum (map (fun g => snd (fst g)) grouped) in
  let with_pct :=
    map (fun g =>
           {| as_aging_bucket := fst (fst g);
              as_outstanding_amount := snd (fst g);
              as_item_count := snd g;
              as_pct_of_total :=
                if Qeq_bool total 0 then 0 else (snd (fst g) / total) * 100 |})
        grouped in
  let aging_summary :=
    sort_by (fun a b => order_leb (bucket_order buckets (as_aging_bucket a))
                                  (bucket_order buckets (as_aging_bucket b)))
            with_pct in
  let overdue :=
    Qsum (map as_outstanding_amount
            (List.filter (fun r => negb (contains "Current" (as_aging_bucket r)))
                         aging_summary)) in
  (aging_summary,
   {| total_outstanding := total;
      item_count := list_sum (map as_item_count aging_summary);
      overdue_amount := Some overdue;
      overdue_pct := Some (if Qeq_bool total 0 then 0 else (overdue / total) * 100) |}).

(** [_analyze_ar] ([flag := is_receivable]) and [_analyze_ap]
    ([flag := is_payable]).  Aggregating a frame that has no [open_amount]
    column makes pandas raise. *)
Definition analyze_kind (a : Analyzer) (flag : Row -> bool) (no_data analyzed : string)
  : Logged (Outcome (list AgingSummaryRow * AgingSummary)) :=
  let* aged := aged_open_items a flag no_data in
  match aged with
  | None =>
      log_ret (Returned ([], {| total_outstanding := 0; item_count := 0;
                                overdue_amount := None; overdue_pct := None |}))
  | Some t =>
      if has_column "open_amount" t then
        let* _ := log_emit LogInfo analyzed in
        log_ret (Returned (aging_summary_of (aging_buckets a) (rows t)))
      else log_ret (Raised "KeyError" "open_amount")
  end.

Definition analyze_ar (a : Analyzer) :=
  analyze_kind a is_receivable "No receivables data found" "AR aging analyzed".

Definition analyze_ap (a : Analyzer) :=
  analyze_kind a is_payable "No payables data found" "AP aging analyzed".

(** Descending order of [days_overdue], missing values last. *)
Definition days_desc_leb (a b : Row) : bool :=
  match days_overdue a, days_overdue b with
  | Some x, Some y => (y <=? x)%Z
  | Some _, None => true
  | None, Some _ => false
  | None, None => true
  end.

(** [_get_overdue_items]: the overdue rows, latest first; the frame keeps
    those of the nine report columns that the table has.  Without an
    overdue row the result is an empty frame.  The order [sort_values]
    gives to rows equally late is left open; here they keep their order. *)
Definition get_overdue_items (a : Analyzer) : Table :=
  let overdue := List.filter is_overdue (rows (df a)) in
  match overdue with
  | [] => {| columns := []; rows := [] |}
  | _ =>
      let cols := ["posting_date"; "doc_id"; "gl_account"; "bucket"; "type";
                   "customer_vendor"; "due_date"; "days_overdue";
                   "open_amount"]%string in
      let available_cols := List.filter (fun c => has_column c (df a)) cols in
      {| columns := available_cols;
         rows := if existsb (String.eqb "days_overdue") available_cols
                 then sort_by days_desc_leb overdue else overdue |}
  end.




(** *** Sample data *)

Definition aged_row (pd : Z) (doc : string) (open : Q) (days : option Z) : Row :=
  set_days_overdue days
    (set_flags true false false false false
       (set_mapping "Trade receivables" "Receivable" None true
          (raw_row pd doc "120000" (Some open) None (Some open)))).

(** Three open receivables of a normalized table: 45 days late, not yet
    due, and without a due date. *)
Definition sample_receivables : Table :=
  {| columns := ["posting_date"; "doc_id"; "gl_account"; "amount"; "due_date";
                 "open_amount"; "bucket"; "type"; "is_receivable";
                 "days_overdue"]%string;
     rows := [ aged_row 200 "R1" 500 (Some 45%Z);
               aged_row 210 "R2" 300 (Some (-5)%Z);
               aged_row 220 "R3" 100 None ] |}.

End Aging.

(** ** Anomaly engine ([analytics/anomalies.py]) *)

Module Anomalies.

Inductive Severity := Low | Medium | High.

Inductive Method := Zscore | Mad | IsolationForest.

#[global] Instance Severity_eq_dec : EqDecision Severity.
Proof. solve_decision. Defined.

#[global] Instance Method_eq_dec : EqDecision Method.
Proof. solve_decision. Defined.

(** The [Anomaly] dataclass as the detectors build it; [explanation] and
    [top_contributors], filled in afterwards by [_explain_anomaly], are left
    out. *)
Record Anomaly := mkAnomaly {
  date : string;
  bucket : string;
  type : string;
  amount : Q;
  expected_amount : Q;
  deviation : Q;
  deviation_pct : Q;
  severity : Severity;
  method : Method
}.

(** A row of [monthly], the frame of amounts summed per
    (year_month, bucket, type); [year_month] is the period as
    [strftime('%Y-%m')] prints it. *)
Record MonthlyRow := mkMonthly {
  year_month : string;
  m_bucket : string;
  m_type : string;
  m_amount : Q
}.

(** A score handed to [_determine_severity]: the non-negative number
    [abs(score_num / sqrt(score_rad))], with [score_rad > 0].  The z-score
    divides by the standard deviation, the square root of the variance, so
    the embedding keeps the variance and compares squares ([score_gt_real]
    and [score_lt_real] relate the two tests to the real number); a rational
    score has [score_rad = 1]. *)
Record Score := mkScore {
  score_num : Q;
  score_rad : Q
}.

(** [score > c] *)
Definition score_gt (s : Score) (c : Q) : bool :=
  if Qlt_bool c 0 then true
  else Qlt_bool (c * c * score_rad s) (score_num s * score_num s).

(** [score < c] *)
Definition score_lt (s : Score) (c : Q) : bool :=
  if Qle_bool c 0 then false
  else Qlt_bool (score_num s * score_num s) (c * c * score_rad s).

(** [_determine_severity] *)
Definition determine_severity (score : Score) (m : Method) : Severity :=
  match m with
  | Zscore =>
      if score_gt score 4 then High
      else if score_gt score (35 # 10) then Medium
      else Low
  | Mad =>
      if score_gt score 5 then High
      else if score_gt score 4 then Medium
      else Low
  | IsolationForest =>
      if score_lt score (- (3 # 10)) then High
      else if score_lt score (- (2 # 10)) then Medium
      else Low
  end.

(** [Series.var()] with pandas' default [ddof=1]; [Series.std()] is its
    square root. *)
Definition sample_var (l : list Q) : Q :=
  let mean := Qmean l in
  Qsum (map (fun x => (x - mean) * (x - mean)) l)
  / inject_Z (Z.of_nat (length l - 1)).

(** [median]: the middle element of the sorted values, or the mean of the
    two middle ones. *)
Definition median (l : list Q) : Q :=
  let s := sort_by Qle_bool l in
  let n := length s in
  if Nat.even n
  then (nth (n / 2 - 1) s 0 + nth (n / 2) s 0) / 2
  else nth (n / 2) s 0.

(** [monthly['bucket'].unique()]: the buckets in order of first appearance. *)
Definition unique_buckets (monthly : list MonthlyRow) : list string :=
  fold_left
    (fun acc b => if existsb (String.eqb b) acc then acc else acc ++ [b])
    (map m_bucket monthly) [].

(** [monthly[monthly['bucket'] == bucket]] *)
Definition bucket_data (monthly : list MonthlyRow) (b : string) : list MonthlyRow :=
  List.filter (fun r => String.eqb (m_bucket r) b) monthly.

(** [((amount - expected) / abs(expected)) * 100 if expected != 0 else 0] *)
Definition deviation_pct_of (amount expected : Q) : Q :=
  if Qeq_bool expected 0 then 0
  else ((amount - expected) / Qabs expected) * 100.

Definition make_anomaly (row : MonthlyRow) (expected : Q) (sev : Severity) (m : Method)
  : Anomaly :=
  {| date := year_month row;
     bucket := m_bucket row;
     type := m_type row;
     amount := m_amount row;
     expected_amount := expected;
     deviation := m_amount row - expected;
     deviation_pct := deviation_pct_of (m_amount row) expected;
     severity := sev;
     method := m |}.

(** The detector's settings, read from the configuration in [__init__]. *)
Record Detector := mkDetector {
  zscore_threshold : Q;
  mad_threshold : Q;
  use_isolation_forest : bool
}.

Definition default_detector : Detector :=
  {| zscore_threshold := 3; mad_threshold := 35 # 10; use_isolation_forest := true |}.

(** The body of the bucket loop of [_detect_zscore_anomalies]. *)
Definition zscore_bucket (d : Detector) (data : list MonthlyRow) : list Anomaly :=
  if (length data <? 6)%nat then []
  else
    let amounts := map m_amount data in
    let mean := Qmean amounts in
    let var := sample_var amounts in
    if Qeq_bool var 0 then []
    else
      let zscore row := mkScore (m_amount row - mean) var in
      let anomalous :=
        List.filter (fun row => score_gt (zscore row) (zscore_threshold d)) data in
      map (fun row => make_anomaly row mean (determine_severity (zscore row) Zscore) Zscore)
          anomalous.

Definition detect_zscore_anomalies (d : Detector) (monthly : list MonthlyRow)
  : list Anomaly :=
  flat_map (fun b => zscore_bucket d (bucket_data monthly b)) (unique_buckets monthly).

(** The body of the bucket loop of [_detect_mad_anomalies]. *)
Definition mad_bucket (d : Detector) (data : list MonthlyRow) : list Anomaly :=
  if (length data <? 6)%nat then []
  else
    let amounts := map m_amount data in
    let med := median amounts in
    let mad := median (map (fun x => Qabs (x - med)) amounts) in
    if Qeq_bool mad 0 then []
    else
      let mad_score row := mkScore ((6745 # 10000) * (m_amount row - med) / mad) 1 in
      let anomalous :=
        List.filter (fun row => score_gt (mad_score row) (mad_threshold d)) data in
      map (fun row => make_anomaly row med (determine_severity (mad_score row) Mad) Mad)
          anomalous.

Definition detect_mad_anomalies (d : Detector) (monthly : list MonthlyRow)
  : list Anomaly :=
  flat_map (fun b => mad_bucket d (bucket_data monthly b)) (unique_buckets monthly).

Section IsolationForest.

(** The fitted [sklearn] model is external: for the amounts of one bucket
    it yields, per row, whether [fit_predict] returned [-1] and the value of
    [score_samples]. *)
Variable iso_forest : list Q -> list (bool * Q).

(** The body of the bucket loop of [_detect_isolation_forest_anomalies]. *)
Definition isolation_forest_bucket (data : list MonthlyRow) : list Anomaly :=
  if (length data <? 10)%nat then []
  else
    let scored := combine data (iso_forest (map m_amount data)) in
    let anomalous := List.filter (fun p => fst (snd p)) scored in
    let normal_amounts :=
      map (fun p => m_amount (fst p)) (List.filter (fun p => negb (fst (snd p))) scored) in
    let expected :=
      if (0 <? length normal_amounts)%nat then median normal_amounts
      else median (map m_amount data) in
    map (fun p =>
           let row := fst p in
           let anomaly_score := snd (snd p) in
           make_anomaly row expected
             (determine_severity (mkScore anomaly_score 1) IsolationForest)
             IsolationForest)
        anomalous.

Definition detect_isolation_forest_anomalies (monthly : list MonthlyRow) : list Anomaly :=
  flat_map (fun b => isolation_forest_bucket (bucket_data monthly b))
           (unique_buckets monthly).

End IsolationForest.

(** [severity_order = {'high': 0, 'medium': 1, 'low': 2}] *)
Definition severity_order (s : Severity) : nat :=
  match s with
  | High => 0
  | Medium => 1
  | Low => 2
  end.

Definition anomaly_key (a : Anomaly) : string * string := (date a, bucket a).

(** Tuple order of the deduplication sort key
    [(a.date, a.bucket, severity_order[a.severity])]. *)
Definition dedup_leb (a b : Anomaly) : bool :=
  match String.compare (date a) (date b) with
  | Lt => true
  | Gt => false
  | Eq =>
      match String.compare (bucket a) (bucket b) with
      | Lt => true
      | Gt => false
      | Eq => (severity_order (severity a) <=? severity_order (severity b))%nat
      end
  end.

(** One iteration of the loop of [_deduplicate_anomalies] on the state
    [(seen, unique)]. *)
Definition dedup_step (st : gset (string * string) * list Anomaly) (a : Anomaly)
  : gset (string * string) * list Anomaly :=
  let key := anomaly_key a in
  if bool_decide (key ∈ fst st) then st
  else ({[ key ]} ∪ fst st, snd st ++ [a]).

(** [_deduplicate_anomalies] *)
Definition deduplicate_anomalies (anomalies : list Anomaly) : list Anomaly :=
  snd (fold_left dedup_step (sort_by dedup_leb anomalies) (∅, [])).

(** Tuple order of the final sort key
    [(severity_order[a.severity], abs(a.deviation_pct))]. *)
Definition final_leb (a b : Anomaly) : bool :=
  let sa := severity_order (severity a) in
  let sb := severity_order (severity b) in
  if (sa <? sb)%nat then true
  else if (sb <? sa)%nat then false
  else Qle_bool (Qabs (deviation_pct a)) (Qabs (deviation_pct b)).

(** The anomaly list returned by [detect_all]. *)
Definition detect_all (iso_forest : list Q -> list (bool * Q)) (d : Detector)
  (monthly : list MonthlyRow) : list Anomaly :=
  let zscore_anomalies := detect_zscore_anomalies d monthly in
  let mad_anomalies := detect_mad_anomalies d monthly in
  let anomalies := zscore_anomalies ++ mad_anomalies in
  let anomalies :=
    if use_isolation_forest d
    then anomalies ++ detect_isolation_forest_anomalies iso_forest monthly
    else anomalies in
  sort_by final_leb (deduplicate_anomalies anomalies).

(** The summary dictionary of [_create_summary]. *)
Record Summary := mkSummary {
  total_count : nat;
  high_severity_count : nat;
  medium_severity_count : nat;
  low_severity_count : nat;
  by_type : gmap string nat;
  by_bucket : gmap string nat
}.

(** [d[k] = d.get(k, 0) + 1] *)
Definition count_up (d : gmap string nat) (k : string) : gmap string nat :=
  <[ k := (default 0 (d !! k) + 1)%nat ]> d.

Definition count_severity (s : Severity) (anomalies : list Anomaly) : nat :=
  length (List.filter (fun a => bool_decide (severity a = s)) anomalies).

(** [_create_summary] *)
Definition create_summary (anomalies : list Anomaly) : Summary :=
  match anomalies with
  | [] =>
      {| total_count := 0; high_severity_count := 0; medium_severity_count := 0;
         low_severity_count := 0; by_type := ∅; by_bucket := ∅ |}
  | _ =>
      {| total_count := length anomalies;
         high_severity_count := count_severity High anomalies;
         medium_severity_count := count_severity Medium anomalies;
         low_severity_count := count_severity Low anomalies;
         by_type := fold_left (fun d a => count_up d (type a)) anomalies ∅;
         by_bucket := fold_left (fun d a => count_up d (bucket a)) anomalies ∅ |}
  end.

(** The [AnomalyResult] of [detect_all]: the anomalies and their summary. *)
Definition detect_all_result (iso_forest : list Q -> list (bool * Q)) (d : Detector)
  (monthly : list MonthlyRow) : list Anomaly * Summary :=
  let anomalies := detect_all iso_forest d monthly in
  (anomalies, create_summary anomalies).

(** *** Closed form of the deduplication loop *)

(** The anomalies the loop appends when it starts with the keys [seen]:
    the first anomaly of every key not seen before. *)
Fixpoint dedup_first (seen : gset (string * string)) (l : list Anomaly) : list Anomaly :=
  match l with
  | [] => []
  | a :: rest =>
      if bool_decide (anomaly_key a ∈ seen) then dedup_first seen rest
      else a :: dedup_first ({[ anomaly_key a ]} ∪ seen) rest
  end.

(** [a] has the key [k]. *)
Definition has_key (k : string * string) (a : Anomaly) : bool :=
  bool_decide (anomaly_key a = k).

(** *** A year with one spike *)

Definition months : list string :=
  [ "2024-01"; "2024-02"; "2024-03"; "2024-04"; "2024-05"; "2024-06";
    "2024-07"; "2024-08"; "2024-09"; "2024-10"; "2024-11"; "2024-12" ]%string.

(** The monthly sum of the bucket "Sales" in month [i]: [base], except in
    month [k], where it is [base + spike]. *)
Definition spike_row (base spike : Q) (k i : nat) : MonthlyRow :=
  {| year_month := nth i months ""%string;
     m_bucket := "Sales";
     m_type := "Revenue";
     m_amount := if (i =? k)%nat then base + spike else base |}.

Definition spike_series (base spike : Q) (k : nat) : list MonthlyRow :=
  map (spike_row base spike k) (seq 0 12).

(** An isolation forest that flags nothing. *)
Definition quiet_forest (amounts : list Q) : list (bool * Q) :=
  map (fun _ => (false, 0)) amounts.

(** An isolation forest that flags every amount above 500. *)
Definition eager_forest (amounts : list Q) : list (bool * Q) :=
  map (fun x => (Qlt_bool 500 x, - (6 # 10))) amounts.

(** Three flags: June of "Sales" by two methods, March of "Rent" by one. *)
Definition sample_flags : list Anomaly :=
  [ mkAnomaly "2024-06" "Sales" "Revenue" 1100 200 900 450 Low Zscore;
    mkAnomaly "2024-03" "Rent" "OPEX" 90 50 40 80 Medium Zscore;
    mkAnomaly "2024-06" "Sales" "Revenue" 1100 100 1000 1000 High Mad ].

End Anomalies.

(** ** KPI engine: growth metrics ([analytics/kpis.py]) *)

Module Kpis.

(** A row of [monthly_kpis] as [_calculate_monthly_kpis] returns it; the
    [revenue] and [opex] columns are always present there. *)
Record MonthlyKpi := mkMonthlyKpi {
  year_month : Z;
  revenue : Q;
  opex : Q
}.

(** A float that may be infinite or undefined: pandas does not raise on a
    zero divisor, it yields [inf] or [NaN]. *)
Inductive FVal := Fin (q : Q) | PosInf | NegInf | NaN.

Inductive Metric := RevenueMoM | RevenueYoY | RevenueCagr | OpexMoM.

#[global] Instance Metric_eq_dec : EqDecision Metric.
Proof. solve_decision. Defined.

(** The partial arithmetic operations the growth computation evaluates,
    with the metric they serve and their operands: a division
    [num / den] and a root [base ** (1 / degree)]. *)
Inductive Op :=
| OpDiv (m : Metric) (num den : Q)
| OpRoot (m : Metric) (base degree : Q).

Definition op_metric (o : Op) : Metric :=
  match o with
  | OpDiv m _ _ => m
  | OpRoot m _ _ => m
  end.

(** A division by zero, or a root of a negative number or of degree zero. *)
Definition op_unsafe (o : Op) : bool :=
  match o with
  | OpDiv _ _ den => Qeq_bool den 0
  | OpRoot _ base degree => negb (Qle_bool 0 base) || Qeq_bool degree 0
  end.

Definition Traced (A : Type) : Type := Writer Op A.

(** Float division of two finite numbers. *)
Definition fdiv (a b : Q) : FVal :=
  if Qeq_bool b 0 then
    (if Qeq_bool a 0 then NaN
     else if Qle_bool 0 a then PosInf else NegInf)
  else Fin (a / b).

Definition fmap_fin (f : Q -> Q) (v : FVal) : FVal :=
  match v with
  | Fin q => Fin (f q)
  | other => other
  end.

(** [(cur / prev - 1) * 100], the division being traced. *)
Definition pct_of (m : Metric) (cur prev : Q) : Traced FVal :=
  let* _ := w_tell (OpDiv m cur prev) in
  w_ret (fmap_fin (fun q => q * 100) (fmap_fin (fun q => q - 1) (fdiv cur prev))).

Fixpoint trace_all {A B} (f : A -> Traced B) (l : list A) : Traced (list B) :=
  match l with
  | [] => w_ret []
  | x :: xs =>
      let* y := f x in
      let* ys := trace_all f xs in
      w_ret (y :: ys)
  end.

(** [series.pct_change(periods) * 100]: the first [periods] entries are
    [NaN], every later one divides by the entry [periods] rows before. *)
Definition pct_change (m : Metric) (periods : nat) (series : list Q) : Traced (list FVal) :=
  let* tail :=
    trace_all (fun p => pct_of m (fst p) (snd p)) (combine (skipn periods series) series) in
  w_ret (repeat NaN (Nat.min periods (length series)) ++ tail).

Definition is_nan (v : FVal) : bool :=
  match v with NaN => true | _ => false end.

Definition fin_values (l : list FVal) : list Q :=
  flat_map (fun v => match v with Fin q => [q] | _ => [] end) l.

(** [Series.mean()]: [NaN] entries are skipped, infinities are not. *)
Definition fmean (l : list FVal) : FVal :=
  let kept := List.filter (fun v => negb (is_nan v)) l in
  let has_pos := existsb (fun v => match v with PosInf => true | _ => false end) kept in
  let has_neg := existsb (fun v => match v with NegInf => true | _ => false end) kept in
  match kept with
  | [] => NaN
  | _ =>
      if has_pos && has_neg then NaN
      else if has_pos then PosInf
      else if has_neg then NegInf
      else Fin (Qmean (fin_values kept))
  end.

(** [series.iloc[-1]] *)
Definition last_val (l : list FVal) : FVal := List.last l NaN.

Section Growth.

(** The float power [base ** exponent]. *)
Variable power : Q -> Q -> Q.

(** The CAGR block: entered with at least 12 rows. *)
Definition cagr_block (revenues : list Q) (growth : gmap string FVal)
  : Traced (gmap string FVal) :=
  let first_value := hd 0 revenues in
  let last_value := List.last revenues 0 in
  let n := inject_Z (Z.of_nat (length revenues)) in
  let* _ := w_tell (OpDiv RevenueCagr n 12) in
  let periods := n / 12 in
  if Qlt_bool 0 first_value then
    if Qlt_bool 0 last_value then
      let* _ := w_tell (OpDiv RevenueCagr last_value first_value) in
      let* _ := w_tell (OpDiv RevenueCagr 1 periods) in
      let* _ := w_tell (OpRoot RevenueCagr (last_value / first_value) periods) in
      let cagr := (power (last_value / first_value) (1 / periods) - 1) * 100 in
      w_ret (<[ "revenue_cagr"%string := Fin cagr ]> growth)
    else w_ret growth
  else w_ret growth.

(** The month-over-month block, for the revenue and for the OPEX column. *)
Definition mom_block (m : Metric) (latest_key avg_key : string) (series : list Q)
  (growth : gmap string FVal) : Traced (gmap string FVal) :=
  let* mom := pct_change m 1 series in
  let growth := <[ latest_key := last_val mom ]> growth in
  w_ret (<[ avg_key := fmean mom ]> growth).

(** The year-over-year block: entered with at least 13 rows. *)
Definition yoy_block (revenues : list Q) (growth : gmap string FVal)
  : Traced (gmap string FVal) :=
  let* yoy := pct_change RevenueYoY 12 revenues in
  let growth := <[ "latest_revenue_yoy"%string := last_val yoy ]> growth in
  w_ret (<[ "avg_revenue_yoy"%string := fmean yoy ]> growth).

(** [_calculate_growth_metrics]: the [growth] dictionary together with the
    trace of the partial operations evaluated on the way.  The tests
    ['revenue' in monthly.columns] and ['opex' in monthly.columns] hold for
    every [monthly_kpis] frame; the periods of its rows are distinct, so the
    order [sort_values] gives does not depend on the sorting algorithm. *)
Definition calculate_growth_metrics (monthly_kpis : list MonthlyKpi)
  : Traced (gmap string FVal) :=
  let growth : gmap string FVal := ∅ in
  if (length monthly_kpis <? 2)%nat then w_ret growth
  else
    let monthly :=
      sort_by (fun a b => (year_month a <=? year_month b)%Z) monthly_kpis in
    let revenues := map revenue monthly in
    let* growth :=
      mom_block RevenueMoM "latest_revenue_mom" "avg_revenue_mom" revenues growth in
    let* growth :=
      if (13 <=? length monthly)%nat then yoy_block revenues growth
      else w_ret growth in
    let* growth :=
      if (12 <=? length monthly)%nat then cagr_block revenues growth
      else w_ret growth in
    mom_block OpexMoM "latest_opex_mom" "avg_opex_mom" (map opex monthly) growth.

End Growth.

(** *** Monthly and summary KPIs, DSO and DPO *)

(** A row of [monthly_pivot]: the month and the amounts of the three types
    the derivation reads, after [fillna(0)]. *)
Record PivotRow := mkPivotRow {
  pv_year_month : Z;
  pv_Revenue : Q;
  pv_OPEX : Q;
  pv_Payroll : Q
}.

(** The pivoted frame: the type columns it has, and its rows. *)
Record PivotFrame := mkPivotFrame {
  has_Revenue : bool;
  has_OPEX : bool;
  has_Payroll : bool;
  pv_rows : list PivotRow
}.

(** A row of the frame [_calculate_monthly_kpis] returns (its columns
    derived from the pivot). *)
Record MonthlyDerived := mkMonthlyDerived {
  md_year_month : Z;
  md_revenue : Q;
  md_opex : Q;
  md_payroll : Q;
  md_gross_profit : Q;
  md_gross_margin_pct : Q;
  md_opex_ratio : Q;
  md_payroll_ratio : Q;
  md_payroll_of_opex : Q
}.

(** [np.where(den != 0, (num / den) * 100, 0)] *)
Definition pct_or_zero (num den : Q) : Q :=
  if Qeq_bool den 0 then 0 else (num / den) * 100.

(** The derivation part of [_calculate_monthly_kpis], from the pivoted
    frame on. *)
Definition derive_monthly_kpis (p : PivotFrame) : list MonthlyDerived :=
  map (fun r =>
         let revenue := if has_Revenue p then pv_Revenue r else 0 in
         let opex := if has_OPEX p then pv_OPEX r else 0 in
         let payroll := if has_Payroll p then pv_Payroll r else 0 in
         let gross_profit := revenue - opex in
         {| md_year_month := pv_year_month r;
            md_revenue := revenue;
            md_opex := opex;
            md_payroll := payroll;
            md_gross_profit := gross_profit;
            md_gross_margin_pct := pct_or_zero gross_profit revenue;
            md_opex_ratio := pct_or_zero opex revenue;
            md_payroll_ratio := pct_or_zero payroll revenue;
            md_payroll_of_opex := pct_or_zero payroll opex |})
      (pv_rows p).

(** The entries of the dictionary of [_calculate_summary_kpis] that are
    totals and counts; the top buckets, the mean transaction size and the
    two date strings are left out. *)
Record SummaryKpis := mkSummaryKpis {
  total_by_type : gmap string Q;
  total_revenue : Q;
  total_opex : Q;
  total_payroll : Q;
  total_expenses : Q;
  net_profit : Q;
  net_margin_pct : Q;
  total_transactions : nat;
  transactions_by_type : gmap string nat
}.

Definition calculate_summary_kpis (t : Frame.Table) : SummaryKpis :=
  let groups := group_by Frame.type (Frame.rows t) in
  let by_type : gmap string Q :=
    list_to_map (map (fun g => (fst g, Qsum_skipna (map Frame.amount (snd g)))) groups) in
  let revenue := default 0 (by_type !! "Revenue"%string) in
  let opex := default 0 (by_type !! "OPEX"%string) in
  let payroll := default 0 (by_type !! "Payroll"%string) in
  let expenses := opex + payroll in
  let profit := revenue - expenses in
  {| total_by_type := by_type;
     total_revenue := revenue;
     total_opex := opex;
     total_payroll := payroll;
     total_expenses := expenses;
     net_profit := profit;
     net_margin_pct := if Qeq_bool revenue 0 then 0 else (profit / revenue) * 100;
     total_transactions := length (Frame.rows t);
     transactions_by_type :=
       list_to_map (map (fun g => (fst g, length (snd g))) groups) |}.

(** The common body of [calculate_dso] ([kind := is_receivable],
    [flow := is_revenue]) and [calculate_dpo] ([kind := is_payable],
    [flow := is_opex]); [enabled] is the configuration entry
    [calculate_dso] / [calculate_dpo], on when it is not set. *)
Definition outstanding_days (enabled : option bool) (kind flow : Frame.Row -> bool)
  (no_data calculated : string) (t : Frame.Table) : Logged (option Q) :=
  if negb (default true enabled) then log_ret None
  else
    let items := List.filter kind (Frame.rows t) in
    match Frame.max_posting_date items with
    | None =>
        let* _ := log_emit LogWarning no_data in
        log_ret None
    | Some recent_date =>
        let start_date := (recent_date - 90)%Z in
        let recent :=
          Qsum_skipna
            (map Frame.amount
               (List.filter
                  (fun r => flow r && (start_date <=? Frame.posting_date r)%Z)
                  (Frame.rows t))) in
        if Qle_bool recent 0 then log_ret None
        else
          let avg_daily := recent / 90 in
          let outstanding :=
            if Frame.has_column "open_amount" t
            then Qsum_skipna (map Frame.open_amount items)
            else Qsum_skipna (map Frame.amount items) in
          if Qlt_bool 0 avg_daily then
            let* _ := log_emit LogInfo calculated in
            log_ret (Some (outstanding / avg_daily))
          else log_ret None
    end.

Definition calculate_dso (enabled : option bool) (t : Frame.Table) : Logged (option Q) :=
  outstanding_days enabled Frame.is_receivable Frame.is_revenue
    "No receivables data for DSO calculation" "DSO calculated" t.

Definition calculate_dpo (enabled : option bool) (t : Frame.Table) : Logged (option Q) :=
  outstanding_days enabled Frame.is_payable Frame.is_opex
    "No payables data for DPO calculation" "DPO calculated" t.

(** *** Sample data *)

(** Fourteen months of revenue, the first of them without any. *)
Definition fourteen_months : list MonthlyKpi :=
  map (fun i => mkMonthlyKpi (Z.of_nat i)
                  (if (i =? 0)%nat then 0 else inject_Z (Z.of_nat (100 + i))) 40)
      (seq 0 14).

(** Two months, the first of them without revenue. *)
Definition two_months : list MonthlyKpi :=
  [ mkMonthlyKpi 0 0 40; mkMonthlyKpi 1 5 40 ].

(** A power function for running the examples; its values play no role. *)
Definition sample_power (base exponent : Q) : Q := base.

End Kpis.


(** * Properties *)

(** ** Arithmetic helpers *)

Lemma Qlt_bool_iff (a b : Q) : Qlt_bool a b = true <-> a < b.
Proof.
  unfold Qlt_bool. rewrite negb_true_iff.
  destruct (Qle_bool b a) eqn:E.
  - apply Qle_bool_iff in E. split; [discriminate | intros H; lra].
  - split; [intros _ | reflexivity].
    destruct (Qlt_le_dec a b) as [H | H]; [exact H |].
    apply Qle_bool_iff in H. congruence.
Qed.

Lemma Qle_bool_false_iff (a b : Q) : Qle_bool a b = false <-> b < a.
Proof.
  rewrite <- Qlt_bool_iff. unfold Qlt_bool.
  destruct (Qle_bool a b); simpl; split; congruence.
Qed.

Lemma Qeq_bool_false (a b : Q) : ~ a == b -> Qeq_bool a b = false.
Proof.
  intros H. destruct (Qeq_bool a b) eqn:E; [| reflexivity].
  apply Qeq_bool_iff in E. contradiction.
Qed.

Lemma Qlt_bool_false (a b : Q) : b <= a -> Qlt_bool a b = false.
Proof.
  intros H. unfold Qlt_bool. apply Qle_bool_iff in H. rewrite H. reflexivity.
Qed.

Lemma Qsum_from (l : list Q) (a : Q) : fold_left Qplus l a == a + Qsum l.
Proof.
  unfold Qsum. revert a. induction l as [| x xs IH]; intros a; simpl.
  - ring.
  - rewrite IH, (IH (0 + x)). ring.
Qed.

Lemma Qsum_cons (x : Q) (l : list Q) : Qsum (x :: l) == x + Qsum l.
Proof. unfold Qsum at 1. simpl. rewrite Qsum_from. ring. Qed.

Lemma inject_nat_S (n : nat) :
  inject_Z (Z.of_nat (S n)) == inject_Z (Z.of_nat n) + 1.
Proof. rewrite Nat2Z.inj_succ. unfold Z.succ. rewrite inject_Z_plus. reflexivity. Qed.

Lemma Qsum_bounds (lo hi : Q) (l : list Q) :
  Forall (fun x => lo <= x /\ x <= hi) l ->
  inject_Z (Z.of_nat (length l)) * lo <= Qsum l
  /\ Qsum l <= inject_Z (Z.of_nat (length l)) * hi.
Proof.
  induction 1 as [| x xs [Hlo Hhi] _ [IHlo IHhi]].
  - change (0 * lo <= 0 /\ 0 <= 0 * hi). lra.
  - rewrite Qsum_cons.
    replace (length (x :: xs)) with (S (length xs)) by reflexivity.
    rewrite inject_nat_S.
    split; lra.
Qed.

Lemma w_bind_fst {L A B} (c : Writer L A) (k : A -> Writer L B) :
  fst (w_bind c k) = fst (k (fst c)).
Proof. unfold w_bind. destruct c as [a l1]. simpl. destruct (k a). reflexivity. Qed.

Lemma w_bind_snd {L A B} (c : Writer L A) (k : A -> Writer L B) :
  snd (w_bind c k) = snd c ++ snd (k (fst c)).
Proof. unfold w_bind. destruct c as [a l1]. simpl. destruct (k a). reflexivity. Qed.

(** ** Ratio status and going-concern score *)

Section RatioProperties.
Import Ratios.

Lemma determine_status_cases (v : Q) (thr : Thresholds) :
  (determine_status v thr = Excellent /\ thr_excellent thr <= v)
  \/ (determine_status v thr = Good /\ v < thr_excellent thr /\ thr_good thr <= v)
  \/ (determine_status v thr = Warning /\ v < thr_excellent thr /\ v < thr_good thr
      /\ thr_warning thr <= v)
  \/ (determine_status v thr = Critical /\ v < thr_excellent thr /\ v < thr_good thr
      /\ v < thr_warning thr).
Proof.
  unfold determine_status.
  destruct (Qle_bool (thr_excellent thr) v) eqn:E1.
  { left. apply Qle_bool_iff in E1. auto. }
  apply Qle_bool_false_iff in E1.
  destruct (Qle_bool (thr_good thr) v) eqn:E2.
  { right; left. apply Qle_bool_iff in E2. auto. }
  apply Qle_bool_false_iff in E2.
  destruct (Qle_bool (thr_warning thr) v) eqn:E3.
  { right; right; left. apply Qle_bool_iff in E3. auto. }
  apply Qle_bool_false_iff in E3.
  right; right; right. auto.
Qed.

Lemma determine_status_mono (thr : Thresholds) (v1 v2 : Q) :
  v1 <= v2 ->
  (status_rank (determine_status v1 thr) <= status_rank (determine_status v2 thr))%nat.
Proof.
  intros Hle.
  destruct (determine_status_cases v1 thr) as [[-> H1] | [[-> H1] | [[-> H1] | [-> H1]]]];
  destruct (determine_status_cases v2 thr) as [[-> H2] | [[-> H2] | [[-> H2] | [-> H2]]]];
  simpl; try lia; exfalso; lra.
Qed.

(** C8: with thresholds ordered excellent >= good >= warning, the status is
    the highest tier whose threshold the value meets (every better tier is
    missed), and the status tier never drops when the value grows. *)
Theorem determine_status_highest_tier_monotone (thr : Thresholds) :
  thr_good thr <= thr_excellent thr ->
  thr_warning thr <= thr_good thr ->
  (forall v : Q,
      tier_met v thr (determine_status v thr)
      /\ forall t : Status,
           (status_rank (determine_status v thr) < status_rank t)%nat ->
           ~ tier_met v thr t)
  /\ (forall v1 v2 : Q,
        v1 <= v2 ->
        (status_rank (determine_status v1 thr)
         <= status_rank (determine_status v2 thr))%nat).
Proof.
  intros _ _. split.
  - intros v.
    destruct (determine_status_cases v thr) as [[-> H] | [[-> H] | [[-> H] | [-> H]]]];
      (split; [simpl; tauto |]);
      intros t Ht; destruct t; simpl in *; try lia; lra.
  - intros v1 v2. apply determine_status_mono.
Qed.

Lemma determine_status_highest_tier_monotone_witness :
  let thr := mkThresholds 2 (15 # 10) 1 (5 # 10) in
  thr_good thr <= thr_excellent thr
  /\ thr_warning thr <= thr_good thr
  /\ determine_status (25 # 10) thr = Excellent
  /\ (status_rank (determine_status (12 # 10) thr)
      <= status_rank (determine_status (25 # 10) thr))%nat.
Proof.
  intros thr.
  assert (Hg : thr_good thr <= thr_excellent thr) by (vm_compute; discriminate).
  assert (Hw : thr_warning thr <= thr_good thr) by (vm_compute; discriminate).
  split; [exact Hg |]. split; [exact Hw |]. split; [reflexivity |].
  apply (proj2 (determine_status_highest_tier_monotone thr Hg Hw)).
  vm_compute. discriminate.
Defined.


Lemma calculate_ratios_spec (st : Statements) (ratios : list RatioResult) :
  calculate_ratios st ratios = ratios ++ map (ratio_result_of st) ratio_configs.
Proof.
  unfold calculate_ratios. generalize ratio_configs. intros cfgs.
  revert ratios. induction cfgs as [| c cs IH]; intros ratios; simpl.
  - rewrite app_nil_r. reflexivity.
  - rewrite IH, <- app_assoc. reflexivity.
Qed.



Lemma fold_left_snoc_map {A B} (f : A -> B) (l : list A) (acc : list B) :
  fold_left (fun scores r => scores ++ [f r]) l acc = acc ++ map f l.
Proof.
  revert acc. induction l as [| x xs IH]; intros acc; simpl.
  - rewrite app_nil_r. reflexivity.
  - rewrite IH, <- app_assoc. reflexivity.
Qed.

Lemma calculate_category_score_spec (cat : Category) (ratios : list RatioResult) :
  calculate_category_score cat ratios = spec_sub_score cat ratios.
Proof.
  unfold calculate_category_score, spec_sub_score, spec_applicable_in.
  destruct (List.filter _ ratios) as [| r rs] eqn:E; [reflexivity |].
  rewrite fold_left_snoc_map, app_nil_l. unfold Qmean.
  rewrite List.length_map. reflexivity.
Qed.



(** The mean of the points always lies between the critical and the
    excellent score. *)
Lemma spec_sub_score_bounds (cat : Category) (ratios : list RatioResult) :
  25 <= spec_sub_score cat ratios /\ spec_sub_score cat ratios <= 90.
Proof.
  unfold spec_sub_score.
  destruct (spec_applicable_in cat ratios) as [| r rs] eqn:E; [split; lra |].
  set (sel := r :: rs).
  assert (Hb : Forall (fun x => 25 <= x /\ x <= 90)
                 (map (fun r0 => spec_points (status r0)) sel)).
  { apply List.Forall_forall. intros x Hx. apply List.in_map_iff in Hx.
    destruct Hx as [r0 [<- _]]. destruct (status r0); simpl; split; lra. }
  apply Qsum_bounds in Hb. rewrite List.length_map in Hb.
  assert (Hn : 0 < inject_Z (Z.of_nat (length sel))).
  { unfold sel. replace (length (r :: rs)) with (S (length rs)) by reflexivity.
    rewrite inject_nat_S.
    assert (0 <= inject_Z (Z.of_nat (length rs))).
    { change 0 with (inject_Z 0). rewrite <- Zle_Qle. lia. }
    lra. }
  destruct Hb as [Hlo Hhi]. split.
  - apply Qle_shift_div_l; [exact Hn | lra].
  - apply Qle_shift_div_r; [exact Hn | lra].
Qed.



End RatioProperties.

(** ** Normalizer *)

Section NormalizerProperties.
Import Frame Normalizer.

Lemma has_column_add_column (n m : string) (cols : list string) :
  existsb (String.eqb n) (add_column m cols)
  = existsb (String.eqb n) cols || String.eqb n m.
Proof.
  unfold add_column. destruct (existsb (String.eqb m) cols) eqn:E.
  - destruct (String.eqb n m) eqn:Enm.
    + apply String.eqb_eq in Enm. subst. rewrite E. reflexivity.
    + rewrite orb_false_r. reflexivity.
  - rewrite existsb_app. simpl. rewrite orb_false_r. reflexivity.
Qed.

Lemma has_column_add_columns (n : string) (names cols : list string) :
  existsb (String.eqb n) (add_columns names cols)
  = existsb (String.eqb n) cols || existsb (String.eqb n) names.
Proof.
  unfold add_columns. revert cols.
  induction names as [| m ms IH]; intros cols; simpl.
  - rewrite orb_false_r. reflexivity.
  - rewrite IH, has_column_add_column.
    rewrite <- orb_assoc. reflexivity.
Qed.

Lemma max_posting_date_map (f : Row -> Row) (rs : list Row) :
  (forall r, posting_date (f r) = posting_date r) ->
  max_posting_date (map f rs) = max_posting_date rs.
Proof.
  intros Hf. destruct rs as [| r rs]; [reflexivity |].
  simpl. rewrite Hf. f_equal.
  generalize (posting_date r). induction rs as [| x xs IH]; intros z; simpl.
  - reflexivity.
  - rewrite Hf. apply IH.
Qed.

Lemma normalize_amounts_fst (config : Config) (t : Table) :
  fst (normalize_amounts config t)
  = {| columns := columns t;
       rows := map (amounts_row config (has_column "open_amount" t)) (rows t) |}.
Proof.
  unfold normalize_amounts, amounts_row.
  destruct (String.eqb _ "positive_credit").
  - rewrite w_bind_fst. reflexivity.
  - simpl. rewrite map_id. destruct t; reflexivity.
Qed.

Lemma merge_mapping_fst (mapping : list MappingRow) (t : Table) :
  fst (merge_mapping mapping t)
  = {| columns := add_columns ["bucket"; "type"; "entity_mapped"; "is_mapped"]%string
                    (columns t);
       rows := map (merge_row (build_mapping_dict mapping)) (rows t) |}.
Proof. unfold merge_mapping. rewrite !w_bind_fst. reflexivity. Qed.

Lemma enrich_ar_ap_flags_fst (t : Table) :
  fst (enrich_ar_ap_flags t)
  = {| columns := add_columns
                    ["is_receivable"; "is_payable"; "is_revenue"; "is_opex";
                     "is_payroll"]%string (columns t);
       rows := map flags_row (rows t) |}.
Proof. unfold enrich_ar_ap_flags. rewrite w_bind_fst. reflexivity. Qed.

Lemma calculate_overdue_fst (config : Config) (t : Table) :
  fst (calculate_overdue config t)
  = {| columns := add_columns ["days_overdue"; "is_overdue"]%string (columns t);
       rows := map (overdue_row config (has_column "due_date" t)
                      (has_column "open_amount" t) (max_posting_date (rows t)))
                   (rows t) |}.
Proof.
  unfold calculate_overdue, overdue_row.
  destruct (has_column "due_date" t); simpl negb; cbv iota.
  - rewrite w_bind_fst. cbn [fst log_ret w_ret].
    destruct (has_column "open_amount" t).
    + rewrite map_map. reflexivity.
    + reflexivity.
  - rewrite w_bind_fst. reflexivity.
Qed.

Lemma normalize_fst (config : Config) (mapping : list MappingRow) (fagl : Table) :
  fst (normalize config mapping fagl)
  = {| columns :=
         add_columns ["days_overdue"; "is_overdue"]%string
           (add_columns ["is_receivable"; "is_payable"; "is_revenue"; "is_opex";
                         "is_payroll"]%string
              (add_columns ["bucket"; "type"; "entity_mapped"; "is_mapped"]%string
                 (columns fagl)));
       rows := map (normalize_row config mapping fagl) (rows fagl) |}.
Proof.
  unfold normalize.
  rewrite !w_bind_fst. cbn [fst log_ret w_ret].
  rewrite calculate_overdue_fst, enrich_ar_ap_flags_fst, merge_mapping_fst,
    normalize_amounts_fst.
  cbn [columns rows].
  unfold has_column. cbn [columns].
  rewrite !has_column_add_columns. cbn [existsb String.eqb Ascii.eqb Bool.eqb orb].
  rewrite !orb_false_r.
  rewrite !map_map.
  rewrite !max_posting_date_map.
  all: try reflexivity.
  all: intros r; unfold amounts_row;
    destruct (String.eqb _ "positive_credit"); reflexivity.
Qed.

Lemma fold_insert_lookup_none (mapping : list MappingRow)
  (d : gmap string MappingInfo) (k : string) :
  fold_left
    (fun d row =>
       <[ map_gl_account row :=
            {| info_bucket := map_bucket row; info_type := map_type row;
               info_entity_mapped := map_entity row; info_notes := map_notes row |} ]> d)
    mapping d !! k = None
  <-> d !! k = None /\ ~ In k (mapping_keys mapping).
Proof.
  revert d. induction mapping as [| row rest IH]; intros d; simpl.
  - tauto.
  - rewrite IH. destruct (decide (map_gl_account row = k)) as [Heq | Hne].
    + subst k. rewrite lookup_insert_eq. split; [intros [H _]; discriminate | tauto].
    + rewrite lookup_insert_ne by exact Hne. tauto.
Qed.

(** An account is a key of [mapping_dict] exactly when some row of the
    mapping table carries it. *)
Lemma build_mapping_dict_none (mapping : list MappingRow) (k : string) :
  build_mapping_dict mapping !! k = None <-> ~ In k (mapping_keys mapping).
Proof.
  unfold build_mapping_dict. rewrite fold_insert_lookup_none.
  rewrite lookup_empty. tauto.
Qed.

Lemma fold_insert_bucket (mapping : list MappingRow)
  (d : gmap string MappingInfo) (k : string) (i : MappingInfo) :
  fold_left
    (fun d row =>
       <[ map_gl_account row :=
            {| info_bucket := map_bucket row; info_type := map_type row;
               info_entity_mapped := map_entity row; info_notes := map_notes row |} ]> d)
    mapping d !! k = Some i ->
  d !! k = Some i \/ exists row, In row mapping /\ info_bucket i = map_bucket row.
Proof.
  revert d. induction mapping as [| row rest IH]; intros d; simpl.
  - tauto.
  - intros H. apply IH in H. destruct H as [H | [row' [Hin Hb]]].
    + destruct (decide (map_gl_account row = k)) as [Heq | Hne].
      * subst k. rewrite lookup_insert_eq in H. injection H as <-.
        right. exists row. tauto.
      * rewrite lookup_insert_ne in H by exact Hne. tauto.
    + right. exists row'. tauto.
Qed.

Lemma normalize_row_gl_account config mapping fagl r :
  gl_account (normalize_row config mapping fagl r) = gl_account r.
Proof.
  unfold normalize_row, overdue_row, flags_row, merge_row, amounts_row.
  destruct (has_column "due_date" fagl), (has_column "open_amount" fagl),
    (String.eqb _ "positive_credit"); reflexivity.
Qed.

Lemma normalize_row_mapping config mapping fagl r :
  let found := build_mapping_dict mapping !! gl_account r in
  let r' := normalize_row config mapping fagl r in
  bucket r' = match found with Some i => info_bucket i | None => "Unmapped"%string end
  /\ type r' = match found with Some i => info_type i | None => "Other"%string end
  /\ is_mapped r' = negb (String.eqb (bucket r') "Unmapped").
Proof.
  unfold normalize_row, overdue_row, flags_row, merge_row, amounts_row.
  destruct (has_column "due_date" fagl), (has_column "open_amount" fagl),
    (String.eqb _ "positive_credit"); cbn; auto.
Qed.

(** What the join does: [is_mapped] tests the bucket label against the
    literal "Unmapped"; an absent account gets the two default labels. *)
Lemma normalize_mapping_join config mapping fagl (r' : Row) :
  In r' (rows (fst (normalize config mapping fagl))) ->
  (is_mapped r' = true <->
     exists i, build_mapping_dict mapping !! gl_account r' = Some i
               /\ info_bucket i <> "Unmapped"%string)
  /\ (~ In (gl_account r') (mapping_keys mapping) ->
      bucket r' = "Unmapped"%string /\ type r' = "Other"%string /\ is_mapped r' = false).
Proof.
  rewrite normalize_fst. cbn [rows]. intros Hin.
  apply List.in_map_iff in Hin. destruct Hin as [r [<- _]].
  rewrite normalize_row_gl_account.
  destruct (normalize_row_mapping config mapping fagl r) as [Hb [Ht Hm]].
  cbv zeta in *. rewrite Hm, Hb. clear Hm.
  split.
  - destruct (build_mapping_dict mapping !! gl_account r) as [i |] eqn:E.
    + rewrite negb_true_iff, String.eqb_neq. split.
      * intros H. exists i. tauto.
      * intros [i' [Hi' Hne]]. congruence.
    + simpl. split; [discriminate | intros [i' [Hi' _]]; discriminate].
  - intros Hnot. apply build_mapping_dict_none in Hnot.
    rewrite Ht, Hnot. simpl. tauto.
Qed.

(** When no row of the mapping table is labelled "Unmapped", [is_mapped]
    says exactly whether the account is a key of the mapping table. *)
Lemma normalize_is_mapped_iff_key config mapping fagl (r' : Row) :
  (forall row, In row mapping -> map_bucket row <> "Unmapped"%string) ->
  In r' (rows (fst (normalize config mapping fagl))) ->
  (is_mapped r' = true <-> In (gl_account r') (mapping_keys mapping)).
Proof.
  intros Hlabels Hin.
  destruct (normalize_mapping_join config mapping fagl r' Hin) as [Hiff _].
  rewrite Hiff. split.
  - intros [i [Hi _]].
    destruct (in_dec string_dec (gl_account r') (mapping_keys mapping)) as [H | H];
      [exact H |].
    apply build_mapping_dict_none in H. congruence.
  - intros Hkey.
    destruct (build_mapping_dict mapping !! gl_account r') as [i |] eqn:E.
    + exists i. split; [reflexivity |].
      unfold build_mapping_dict in E. apply fold_insert_bucket in E.
      destruct E as [E | [row [Hrow ->]]].
      * rewrite lookup_empty in E. discriminate.
      * apply Hlabels. exact Hrow.
    + apply build_mapping_dict_none in E. contradiction.
Qed.

(** C1 (failing input): the account "100" is a key of the mapping table
    under the bucket label "Unmapped"; its row keeps the mapped type
    "Revenue" and yet comes out with [is_mapped = false]. *)
Theorem normalize_is_mapped_sentinel_collision :
  let out := fst (normalize no_config sentinel_mapping sentinel_ledger) in
  exists r : Row,
    rows out = [r]
    /\ In (gl_account r) (mapping_keys sentinel_mapping)
    /\ is_mapped r = false
    /\ bucket r = "Unmapped"%string
    /\ type r = "Revenue"%string.
Proof.
  intros out. unfold out. rewrite normalize_fst. cbn [rows sentinel_ledger map].
  eexists. split; [reflexivity |].
  rewrite normalize_row_gl_account.
  destruct (normalize_row_mapping no_config sentinel_mapping sentinel_ledger
              (raw_row 10 "D1" "100" (Some 1000) None None)) as [Hb [Ht Hm]].
  cbv zeta in *. rewrite Hm, Hb, Ht.
  split; [simpl; tauto |].
  assert (E : build_mapping_dict sentinel_mapping !! "100"%string
              = Some (mkMappingInfo "Unmapped" "Revenue" None None)).
  { unfold build_mapping_dict, sentinel_mapping. simpl. apply lookup_insert_eq. }
  cbn [gl_account raw_row]. rewrite E. simpl. tauto.
Qed.

Lemma normalize_amounts_log (config : Config) (t : Table) (e : LogEntry) :
  In e (snd (normalize_amounts config t)) -> log_level e = LogInfo.
Proof.
  unfold normalize_amounts. destruct (String.eqb _ "positive_credit"); simpl.
  - intros [<- | []]. reflexivity.
  - intros [].
Qed.

Lemma merge_mapping_log (mapping : list MappingRow) (t : Table) (e : LogEntry) :
  In e (snd (merge_mapping mapping t)) ->
  log_level e = LogWarning -> log_event e = "Unmapped rows after merge"%string.
Proof.
  unfold merge_mapping. rewrite !w_bind_snd. cbn [snd log_ret w_ret log_emit w_tell].
  unfold log_when. destruct (0 <? _)%nat; simpl.
  - intros [<- | [<- | []]]; simpl; [reflexivity | discriminate].
  - intros [<- | []]; simpl; discriminate.
Qed.

Lemma calculate_overdue_log_without_due_date (config : Config) (t : Table) :
  has_column "due_date" t = false ->
  snd (calculate_overdue config t)
  = [mkLog LogInfo "due_date column not available, skipping overdue calculation"].
Proof. intros H. unfold calculate_overdue. rewrite H. reflexivity. Qed.

Lemma normalize_log_without_due_date config mapping fagl :
  has_column "due_date" fagl = false ->
  snd (normalize config mapping fagl)
  = [mkLog LogInfo "Starting data normalization"]
    ++ snd (normalize_amounts config fagl)
    ++ snd (merge_mapping mapping (fst (normalize_amounts config fagl)))
    ++ [mkLog LogDebug "Added type flags";
        mkLog LogInfo "due_date column not available, skipping overdue calculation";
        mkLog LogInfo "Normalization complete"].
Proof.
  intros Hdue. unfold normalize.
  repeat (rewrite w_bind_snd || rewrite w_bind_fst).
  cbn [fst snd log_ret w_ret log_emit w_tell].
  rewrite calculate_overdue_log_without_due_date.
  - unfold enrich_ar_ap_flags. rewrite w_bind_snd.
    cbn [snd log_ret w_ret log_emit w_tell]. rewrite app_nil_r. reflexivity.
  - rewrite enrich_ar_ap_flags_fst, merge_mapping_fst, normalize_amounts_fst.
    unfold has_column in *. cbn [columns].
    rewrite !has_column_add_columns, Hdue. reflexivity.
Qed.

End NormalizerProperties.

(** ** Aging *)

Section AgingProperties.
Import Frame Normalizer Aging.

Lemma ensure_days_overdue_present (a : Analyzer) (t : Table) :
  has_column "days_overdue" t = true -> ensure_days_overdue a t = (t, []).
Proof. intros H. unfold ensure_days_overdue. rewrite H. reflexivity. Qed.

Lemma ensure_days_overdue_fallback (a : Analyzer) (t : Table) :
  has_column "days_overdue" t = false ->
  has_column "due_date" t && any_due_date (rows t) = false ->
  ensure_days_overdue a t
  = ({| columns := add_column "days_overdue" (columns t);
        rows := map (fun r =>
                  set_days_overdue
                    (days_between (current_date a) (Some (posting_date r + 30)%Z)) r)
                  (rows t) |},
     [mkLog LogWarning "No due_date available, using posting_date + 30 days"]).
Proof.
  intros H1 H2. unfold ensure_days_overdue. rewrite H1, H2. reflexivity.
Qed.

(** C2 (as the code has it): without a [due_date] column [normalize] skips
    the overdue calculation, leaving [days_overdue = 0] and
    [is_overdue = false] in every row and logging an informational line; its
    only possible warning is the one about unmapped rows.  The synthetic due
    date [posting_date + 30], with its warning, belongs to the aging bucket
    assignment and is used only for a table that has neither a
    [days_overdue] column nor a usable [due_date]; a normalized table has
    [days_overdue], so the assignment leaves it as it is. *)
Theorem overdue_without_due_date_column
  (config : Config) (mapping : list MappingRow) (fagl : Table) :
  has_column "due_date" fagl = false ->
  let out := normalize config mapping fagl in
  (forall r : Row, In r (rows (fst out)) ->
     days_overdue r = Some 0%Z /\ is_overdue r = false)
  /\ In (mkLog LogInfo "due_date column not available, skipping overdue calculation")
        (snd out)
  /\ (forall e : LogEntry, In e (snd out) -> log_level e = LogWarning ->
        log_event e = "Unmapped rows after merge"%string)
  /\ has_column "days_overdue" (fst out) = true
  /\ (forall a : Analyzer, ensure_days_overdue a (fst out) = (fst out, []))
  /\ (forall (a : Analyzer) (t : Table),
        has_column "days_overdue" t = false ->
        has_column "due_date" t && any_due_date (rows t) = false ->
        rows (fst (ensure_days_overdue a t))
        = map (fun r =>
                 set_days_overdue
                   (days_between (current_date a) (Some (posting_date r + 30)%Z)) r)
              (rows t)
        /\ snd (ensure_days_overdue a t)
           = [mkLog LogWarning "No due_date available, using posting_date + 30 days"]).
Proof.
  intros Hdue out.
  assert (Hcol : has_column "days_overdue" (fst out) = true).
  { unfold out. rewrite normalize_fst. unfold has_column. cbn [columns].
    rewrite has_column_add_columns. simpl. apply orb_true_r. }
  split; [| split; [| split; [| split; [exact Hcol | split]]]].
  - intros r Hr. unfold out in Hr. rewrite normalize_fst in Hr. cbn [rows] in Hr.
    apply List.in_map_iff in Hr. destruct Hr as [r0 [<- _]].
    unfold normalize_row, overdue_row. rewrite Hdue. simpl. tauto.
  - unfold out. rewrite normalize_log_without_due_date by exact Hdue.
    rewrite !in_app_iff. right. right. right. simpl. tauto.
  - intros e He Hlvl. unfold out in He.
    rewrite normalize_log_without_due_date in He by exact Hdue.
    rewrite !in_app_iff in He.
    destruct He as [He | [He | [He | He]]].
    + destruct He as [<- | []]. discriminate.
    + apply normalize_amounts_log in He. congruence.
    + eapply merge_mapping_log; eauto.
    + simpl in He. destruct He as [<- | [<- | [<- | []]]]; discriminate.
  - intros a. apply ensure_days_overdue_present. exact Hcol.
  - intros a t H1 H2. rewrite (ensure_days_overdue_fallback a t H1 H2). tauto.
Qed.

Lemma overdue_without_due_date_column_witness :
  has_column "due_date" ledger_without_due_date = false
  /\ Forall (fun r => days_overdue r = Some 0%Z /\ is_overdue r = false)
       (rows (fst (normalize no_config revenue_mapping ledger_without_due_date))).
Proof.
  assert (H : has_column "due_date" ledger_without_due_date = false) by reflexivity.
  split; [exact H |].
  apply List.Forall_forall.
  exact (proj1 (overdue_without_due_date_column no_config revenue_mapping
                  ledger_without_due_date H)).
Defined.

(** C2 (counterexample): two postings on days 100 and 131 without a
    [due_date] column.  The claimed fallback would give the first row
    [131 - (100 + 30) = 1] day; [normalize] gives 0, and logs no warning. *)
Lemma normalize_without_due_date_no_fallback :
  let fagl := ledger_without_due_date in
  let out := normalize no_config revenue_mapping fagl in
  has_column "due_date" fagl = false
  /\ ~ Forall (fun r =>
                 days_overdue r
                 = days_between (max_posting_date (rows fagl))
                     (Some (posting_date r + 30)%Z))
              (rows (fst out))
  /\ ~ exists e : LogEntry, In e (snd out) /\ log_level e = LogWarning.
Proof.
  intros fagl out. split; [reflexivity |]. split.
  - intros H. apply List.Forall_forall with (x := normalize_row no_config revenue_mapping fagl
        (raw_row 100 "D1" "400000" (Some 1000) None None)) in H.
    + vm_compute in H. discriminate.
    + unfold out. rewrite normalize_fst. cbn [rows]. left. reflexivity.
  - intros [e [He Hlvl]]. unfold out in He. vm_compute in He.
    repeat (destruct He as [<- | He]; [discriminate |]). exact He.
Qed.

Lemma apply_bucket_relabel (buckets : list AgingBucket) (rs : list Row) (l0 : string) :
  fold_left apply_bucket buckets (map (set_aging_bucket l0) rs)
  = map (fun r =>
           set_aging_bucket
             (fold_left (fun label b => if in_range b (days_overdue r)
                                        then bucket_name b else label) buckets l0) r)
        rs.
Proof.
  revert rs l0. induction buckets as [| b bs IH]; intros rs l0; simpl.
  - reflexivity.
  - unfold apply_bucket at 2. rewrite map_map.
    assert (E : map (fun x => if in_range b (days_overdue (set_aging_bucket l0 x))
                              then set_aging_bucket (bucket_name b) (set_aging_bucket l0 x)
                              else set_aging_bucket l0 x) rs
                = map (fun x => set_aging_bucket
                                  (if in_range b (days_overdue x)
                                   then bucket_name b else l0) x) rs).
    { apply map_ext. intros x. cbn [days_overdue set_aging_bucket].
      destruct (in_range b (days_overdue x)); reflexivity. }
    rewrite E. clear E.
    induction rs as [| r rs IHrs].
    + simpl. clear IH. induction bs; simpl; auto.
    + cbn [map].
      change (set_aging_bucket (if in_range b (days_overdue r) then bucket_name b else l0) r
              :: map (fun x => set_aging_bucket
                        (if in_range b (days_overdue x) then bucket_name b else l0) x) rs)
        with ([set_aging_bucket (if in_range b (days_overdue r) then bucket_name b else l0) r]
              ++ map (fun x => set_aging_bucket
                        (if in_range b (days_overdue x) then bucket_name b else l0) x) rs).
      assert (Happ : forall xs ys, fold_left apply_bucket bs (xs ++ ys)
                     = fold_left apply_bucket bs xs ++ fold_left apply_bucket bs ys).
      { clear. induction bs as [| b' bs' IHb]; intros xs ys; simpl; [reflexivity |].
        unfold apply_bucket at 2 4 6. rewrite map_app. apply IHb. }
      rewrite Happ, IHrs. f_equal.
      change [set_aging_bucket (if in_range b (days_overdue r) then bucket_name b else l0) r]
        with (map (set_aging_bucket
                     (if in_range b (days_overdue r) then bucket_name b else l0)) [r]).
      rewrite IH. reflexivity.
Qed.

Lemma assign_aging_buckets_rows (a : Analyzer) (t : Table) :
  rows (fst (assign_aging_buckets a t))
  = map (fun r => set_aging_bucket (assigned_label (aging_buckets a) (days_overdue r)) r)
        (rows (fst (ensure_days_overdue a t))).
Proof.
  unfold assign_aging_buckets. rewrite w_bind_fst. cbn [fst log_ret w_ret rows].
  apply apply_bucket_relabel.
Qed.

Lemma ensure_days_overdue_length (a : Analyzer) (t : Table) :
  length (rows (fst (ensure_days_overdue a t))) = length (rows t).
Proof.
  unfold ensure_days_overdue.
  destruct (has_column "days_overdue" t); [reflexivity |].
  destruct (has_column "due_date" t && any_due_date (rows t)).
  - cbn [fst log_ret w_ret rows]. apply List.length_map.
  - rewrite w_bind_fst. cbn [fst log_ret w_ret rows]. apply List.length_map.
Qed.

Lemma assigned_label_snoc (bs : list AgingBucket) (b : AgingBucket) (d : option Z) :
  assigned_label (bs ++ [b]) d
  = if in_range b d then bucket_name b else assigned_label bs d.
Proof. unfold assigned_label. rewrite fold_left_app. reflexivity. Qed.

Lemma in_range_covers (b : AgingBucket) (d : Z) :
  in_range b (Some d) = true <-> covers b d.
Proof.
  unfold in_range, covers. rewrite andb_true_iff, !Z.leb_le. tauto.
Qed.

Lemma non_overlapping_prefix (bs : list AgingBucket) (b : AgingBucket) :
  non_overlapping (bs ++ [b]) -> non_overlapping bs.
Proof.
  intros H i j bi bj d Hi Hj. apply (H i j bi bj d).
  - rewrite lookup_app_l; [exact Hi | eapply lookup_lt_Some; eauto].
  - rewrite lookup_app_l; [exact Hj | eapply lookup_lt_Some; eauto].
Qed.

Lemma assigned_label_covering (buckets : list AgingBucket) (b : AgingBucket) (d : Z) :
  non_overlapping buckets -> In b buckets -> covers b d ->
  assigned_label buckets (Some d) = bucket_name b.
Proof.
  induction buckets as [| b' bs IH] using rev_ind; intros Hno Hin Hcov.
  - destruct Hin.
  - rewrite assigned_label_snoc.
    destruct (in_range b' (Some d)) eqn:E.
    + apply in_app_iff in Hin. destruct Hin as [Hin | [-> | []]]; [| reflexivity].
      exfalso. apply in_range_covers in E.
      apply list_elem_of_In, list_elem_of_lookup in Hin. destruct Hin as [i Hi].
      apply (Hno i (length bs) b b' d).
      * rewrite lookup_app_l; [exact Hi | eapply lookup_lt_Some; eauto].
      * rewrite lookup_app_r by lia. rewrite Nat.sub_diag. reflexivity.
      * apply lookup_lt_Some in Hi. lia.
      * tauto.
    + apply in_app_iff in Hin. destruct Hin as [Hin | [-> | []]].
      * apply IH; [eapply non_overlapping_prefix; eauto | exact Hin | exact Hcov].
      * apply in_range_covers in Hcov. congruence.
Qed.

Lemma assigned_label_uncovered (buckets : list AgingBucket) (d : option Z) :
  (forall b, In b buckets -> in_range b d = false) ->
  assigned_label buckets d = "Unknown"%string.
Proof.
  induction buckets as [| b' bs IH] using rev_ind; intros H.
  - reflexivity.
  - rewrite assigned_label_snoc, H by (apply in_app_iff; simpl; tauto).
    apply IH. intros b Hb. apply H. apply in_app_iff. tauto.
Qed.

(** C6: with pairwise non-overlapping buckets, the assignment keeps every
    row and only writes its [aging_bucket]: the label of the one configured
    bucket whose range holds the row's [days_overdue], or "Unknown" when no
    range holds it. *)
Theorem assign_aging_buckets_partition (a : Analyzer) (t : Table) :
  non_overlapping (aging_buckets a) ->
  let dated := fst (ensure_days_overdue a t) in
  let out := fst (assign_aging_buckets a t) in
  length (rows out) = length (rows t)
  /\ Forall2
       (fun r r' =>
          r' = set_aging_bucket (aging_bucket r') r
          /\ (forall (b : AgingBucket) (d : Z),
                In b (aging_buckets a) -> days_overdue r = Some d -> covers b d ->
                aging_bucket r' = bucket_name b
                /\ forall b' : AgingBucket,
                     In b' (aging_buckets a) -> covers b' d ->
                     bucket_name b' = bucket_name b)
          /\ ((forall b : AgingBucket,
                 In b (aging_buckets a) -> in_range b (days_overdue r) = false) ->
              aging_bucket r' = "Unknown"%string))
       (rows dated) (rows out).
Proof.
  intros Hno dated out. unfold out, dated.
  rewrite assign_aging_buckets_rows. split.
  - rewrite List.length_map. apply ensure_days_overdue_length.
  - induction (rows (fst (ensure_days_overdue a t))) as [| r rs IH];
      cbn [map]; constructor; [| exact IH].
    cbn [aging_bucket set_aging_bucket]. split; [reflexivity |]. split.
    + intros b d Hb Hd Hcov. rewrite Hd. split.
      * apply assigned_label_covering; assumption.
      * intros b' Hb' Hcov'.
        rewrite <- (assigned_label_covering _ b' d Hno Hb' Hcov').
        apply assigned_label_covering; assumption.
    + apply assigned_label_uncovered.
Qed.

Lemma default_aging_buckets_non_overlapping : non_overlapping default_aging_buckets.
Proof.
  intros i j bi bj d Hi Hj Hne [Hci Hcj].
  destruct i as [| [| [| [| [| i]]]]]; cbn in Hi; try discriminate;
    destruct j as [| [| [| [| [| j]]]]]; cbn in Hj; try discriminate;
    try (exfalso; apply Hne; reflexivity);
    injection Hi as <-; injection Hj as <-;
    unfold covers in *; cbn in *; lia.
Qed.

Lemma assign_aging_buckets_partition_witness :
  let a := make_analyzer sample_receivables None in
  non_overlapping (aging_buckets a)
  /\ length (rows (fst (assign_aging_buckets a sample_receivables))) = 3%nat
  /\ map aging_bucket (rows (fst (assign_aging_buckets a sample_receivables)))
     = ["31-60 days"; "Unknown"; "Unknown"]%string.
Proof.
  intros a.
  assert (Hno : non_overlapping (aging_buckets a))
    by exact default_aging_buckets_non_overlapping.
  split; [exact Hno |]. split.
  - rewrite (proj1 (assign_aging_buckets_partition a sample_receivables Hno)).
    reflexivity.
  - vm_compute. reflexivity.
Defined.

End AgingProperties.

(** ** Stable sorting *)

Section SortProperties.
Context {A : Type}.
Variable leb : A -> A -> bool.
Hypothesis leb_total : forall a b, leb a b = true \/ leb b a = true.
Hypothesis leb_trans : forall a b c, leb a b = true -> leb b c = true -> leb a c = true.

Lemma sort_insert_perm (x : A) (l : list A) : Permutation (sort_insert leb x l) (x :: l).
Proof.
  induction l as [| y ys IH]; simpl.
  - reflexivity.
  - destruct (leb x y).
    + reflexivity.
    + rewrite IH. apply perm_swap.
Qed.

Lemma sort_by_perm (l : list A) : Permutation (sort_by leb l) l.
Proof.
  induction l as [| x xs IH]; simpl.
  - reflexivity.
  - rewrite sort_insert_perm. constructor. exact IH.
Qed.

Lemma sort_insert_sorted (x : A) (l : list A) :
  StronglySorted (fun a b => leb a b = true) l ->
  StronglySorted (fun a b => leb a b = true) (sort_insert leb x l).
Proof.
  induction 1 as [| y ys Hs IH Hall]; simpl.
  - constructor; constructor.
  - destruct (leb x y) eqn:E.
    + constructor; [constructor; assumption |].
      constructor; [exact E |].
      eapply List.Forall_impl; [| exact Hall].
      intros z Hz. simpl in Hz. eapply leb_trans; eauto.
    + constructor; [exact IH |].
      assert (Hyx : leb y x = true) by (destruct (leb_total x y); congruence).
      eapply Permutation_Forall; [symmetry; apply sort_insert_perm |].
      constructor; assumption.
Qed.

Lemma sort_by_sorted (l : list A) :
  StronglySorted (fun a b => leb a b = true) (sort_by leb l).
Proof.
  induction l as [| x xs IH]; simpl.
  - constructor.
  - apply sort_insert_sorted. exact IH.
Qed.

End SortProperties.

Section TwoValuedSort.
Context {A : Type}.
Variable leb : A -> A -> bool.
Variables lo hi : A.
Hypothesis lo_lo : leb lo lo = true.
Hypothesis lo_hi : leb lo hi = true.
Hypothesis hi_lo : leb hi lo = false.

Lemma sort_insert_hi_repeat (m : nat) :
  sort_insert leb hi (repeat lo m) = repeat lo m ++ [hi].
Proof.
  induction m as [| m IH]; simpl.
  - reflexivity.
  - rewrite hi_lo, IH. reflexivity.
Qed.

Lemma sort_insert_lo_repeat (m : nat) (tl : list A) :
  (tl = [] \/ tl = [hi]) ->
  sort_insert leb lo (repeat lo m ++ tl) = lo :: repeat lo m ++ tl.
Proof.
  intros Htl. destruct m as [| m]; simpl.
  - destruct Htl as [-> | ->]; simpl; [reflexivity |]. rewrite lo_hi. reflexivity.
  - rewrite lo_lo. reflexivity.
Qed.

(** Sorting a list that is [lo] everywhere except for one [hi] at index
    [k] puts the [hi] last. *)
Lemma sort_by_one_hi (k s n : nat) :
  sort_by leb (map (fun i => if (i =? k)%nat then hi else lo) (seq s n))
  = if (s <=? k)%nat && (k <? s + n)%nat
    then repeat lo (n - 1) ++ [hi] else repeat lo n.
Proof.
  revert s. induction n as [| n IH]; intros s.
  - simpl. destruct (s <=? k)%nat eqn:E1; simpl; [| reflexivity].
    destruct (k <? s + 0)%nat eqn:E2; [| reflexivity].
    apply Nat.leb_le in E1. apply Nat.ltb_lt in E2. lia.
  - cbn [seq map sort_by]. rewrite IH.
    destruct (s =? k)%nat eqn:Esk.
    + apply Nat.eqb_eq in Esk. subst k.
      replace (S s <=? s)%nat with false by (symmetry; apply Nat.leb_gt; lia).
      rewrite Nat.leb_refl.
      replace (s <? s + S n)%nat with true by (symmetry; apply Nat.ltb_lt; lia).
      cbn [andb]. rewrite sort_insert_hi_repeat.
      replace (S n - 1)%nat with n by lia. reflexivity.
    + apply Nat.eqb_neq in Esk.
      destruct ((S s <=? k)%nat && (k <? S s + n)%nat) eqn:E.
      * apply andb_true_iff in E. destruct E as [E1 E2].
        apply Nat.leb_le in E1. apply Nat.ltb_lt in E2.
        replace (s <=? k)%nat with true by (symmetry; apply Nat.leb_le; lia).
        replace (k <? s + S n)%nat with true by (symmetry; apply Nat.ltb_lt; lia).
        cbn [andb]. rewrite sort_insert_lo_repeat by tauto.
        destruct n as [| n]; [lia |].
        replace (S n - 1)%nat with n by lia.
        replace (S (S n) - 1)%nat with (S n) by lia. reflexivity.
      * replace ((s <=? k)%nat && (k <? s + S n)%nat) with false.
        -- rewrite <- (app_nil_r (repeat lo n)).
           rewrite sort_insert_lo_repeat by tauto.
           rewrite app_nil_r. reflexivity.
        -- symmetry. apply andb_false_iff.
           apply andb_false_iff in E. destruct E as [E | E].
           ++ apply Nat.leb_gt in E. left. apply Nat.leb_gt. lia.
           ++ apply Nat.ltb_ge in E.
              destruct (Nat.le_gt_cases s k).
              ** right. apply Nat.ltb_ge. lia.
              ** left. apply Nat.leb_gt. lia.
Qed.

End TwoValuedSort.

(** ** Anomaly deduplication *)

Section DedupProperties.
Import Anomalies.

Lemma string_compare_refl (s : string) : String.compare s s = Eq.
Proof. apply (proj2 (String_as_OT.cmp_eq s s)). reflexivity. Qed.

Lemma string_compare_lt_trans (a b c : string) :
  String.compare a b = Lt -> String.compare b c = Lt -> String.compare a c = Lt.
Proof.
  intros H1 H2.
  apply (proj2 (String_as_OT.cmp_lt a c)).
  apply String_as_OT.lt_trans with b; apply String_as_OT.cmp_lt; assumption.
Qed.

Lemma string_compare_gt_lt (a b : string) :
  String.compare a b = Gt -> String.compare b a = Lt.
Proof.
  intros H. rewrite String.compare_antisym in H.
  destruct (String.compare b a); simpl in H; congruence.
Qed.

(** The sort key compared through a single three-way comparison. *)
Lemma dedup_leb_cases (a b : Anomaly) :
  dedup_leb a b = true <->
  String.compare (date a) (date b) = Lt
  \/ (date a = date b /\ String.compare (bucket a) (bucket b) = Lt)
  \/ (date a = date b /\ bucket a = bucket b
      /\ (severity_order (severity a) <= severity_order (severity b))%nat).
Proof.
  unfold dedup_leb.
  destruct (String.compare (date a) (date b)) eqn:Ed.
  - apply String.compare_eq_iff in Ed.
    destruct (String.compare (bucket a) (bucket b)) eqn:Eb.
    + apply String.compare_eq_iff in Eb. rewrite Nat.leb_le.
      split; [tauto |]. intros [H | [[_ H] | H]]; [discriminate | discriminate | tauto].
    + split; [tauto | reflexivity].
    + split; [discriminate |].
      intros [H | [[_ H] | [_ [H _]]]]; try discriminate.
      rewrite H, string_compare_refl in Eb. discriminate.
  - split; [tauto | reflexivity].
  - split; [discriminate |].
    intros [H | [[H _] | [H _]]]; try discriminate;
      rewrite H, string_compare_refl in Ed; discriminate.
Qed.

Lemma dedup_leb_total (a b : Anomaly) : dedup_leb a b = true \/ dedup_leb b a = true.
Proof.
  rewrite !dedup_leb_cases.
  destruct (String.compare (date a) (date b)) eqn:Ed.
  - apply String.compare_eq_iff in Ed.
    destruct (String.compare (bucket a) (bucket b)) eqn:Eb.
    + apply String.compare_eq_iff in Eb.
      destruct (Nat.le_ge_cases (severity_order (severity a))
                  (severity_order (severity b))); [left | right]; auto.
    + left. auto.
    + right. apply string_compare_gt_lt in Eb. auto.
  - left. auto.
  - right. left. apply string_compare_gt_lt. exact Ed.
Qed.

Lemma dedup_leb_trans (a b c : Anomaly) :
  dedup_leb a b = true -> dedup_leb b c = true -> dedup_leb a c = true.
Proof.
  rewrite !dedup_leb_cases.
  intros [H1 | [[E1 H1] | [E1 [F1 H1]]]] [H2 | [[E2 H2] | [E2 [F2 H2]]]].
  - left. eapply string_compare_lt_trans; eauto.
  - left. rewrite <- E2. exact H1.
  - left. rewrite <- E2. exact H1.
  - left. rewrite E1. exact H2.
  - right. left. split; [congruence |]. eapply string_compare_lt_trans; eauto.
  - right. left. split; [congruence |]. rewrite <- F2. exact H1.
  - left. rewrite E1. exact H2.
  - right. left. split; [congruence |]. rewrite F1. exact H2.
  - right. right. split; [congruence |]. split; [congruence | lia].
Qed.

Lemma dedup_loop_closed (l : list Anomaly) (seen : gset (string * string))
  (acc : list Anomaly) :
  snd (fold_left dedup_step l (seen, acc)) = acc ++ dedup_first seen l.
Proof.
  revert seen acc. induction l as [| a rest IH]; intros seen acc; simpl.
  - rewrite app_nil_r. reflexivity.
  - unfold dedup_step at 2. cbn [fst snd].
    destruct (bool_decide (anomaly_key a ∈ seen)).
    + apply IH.
    + rewrite IH, <- app_assoc. reflexivity.
Qed.

Lemma deduplicate_anomalies_closed (anomalies : list Anomaly) :
  deduplicate_anomalies anomalies = dedup_first ∅ (sort_by dedup_leb anomalies).
Proof. unfold deduplicate_anomalies. apply dedup_loop_closed. Qed.

Lemma dedup_first_subset (seen : gset (string * string)) (l : list Anomaly) (x : Anomaly) :
  In x (dedup_first seen l) -> In x l.
Proof.
  revert seen. induction l as [| a rest IH]; intros seen; simpl; [tauto |].
  destruct (bool_decide (anomaly_key a ∈ seen)); simpl.
  - intros H. right. eapply IH; eauto.
  - intros [H | H]; [tauto | right; eapply IH; eauto].
Qed.

Lemma dedup_first_seen (k : string * string) (seen : gset (string * string))
  (l : list Anomaly) :
  k ∈ seen -> List.filter (has_key k) (dedup_first seen l) = [].
Proof.
  revert seen. induction l as [| a rest IH]; intros seen Hk; simpl; [reflexivity |].
  destruct (bool_decide (anomaly_key a ∈ seen)) eqn:E.
  - apply IH. exact Hk.
  - simpl. unfold has_key at 1.
    rewrite bool_decide_eq_false_2.
    + apply IH. apply elem_of_union. right. exact Hk.
    + intros Heq. apply bool_decide_eq_false in E. apply E. rewrite Heq. exact Hk.
Qed.

Lemma dedup_first_first (k : string * string) (l1 l2 : list Anomaly) (x : Anomaly)
  (seen : gset (string * string)) :
  k ∉ seen -> anomaly_key x = k ->
  (forall y, In y l1 -> anomaly_key y <> k) ->
  List.filter (has_key k) (dedup_first seen (l1 ++ x :: l2)) = [x].
Proof.
  revert seen. induction l1 as [| y l1' IH]; intros seen Hk Hx Hl1; simpl.
  - rewrite Hx. rewrite bool_decide_eq_false_2 by exact Hk.
    simpl. unfold has_key at 1. rewrite bool_decide_eq_true_2 by exact Hx.
    f_equal. apply dedup_first_seen. apply elem_of_union. left.
    apply elem_of_singleton. reflexivity.
  - assert (Hy : anomaly_key y <> k) by (apply Hl1; simpl; tauto).
    assert (Hl1' : forall z, In z l1' -> anomaly_key z <> k)
      by (intros z Hz; apply Hl1; simpl; tauto).
    destruct (bool_decide (anomaly_key y ∈ seen)).
    + apply IH; assumption.
    + simpl. unfold has_key at 1. rewrite bool_decide_eq_false_2 by exact Hy.
      apply IH; [| assumption | assumption].
      rewrite elem_of_union, elem_of_singleton. intros [Heq | Hin]; [| contradiction].
      apply Hy. symmetry. exact Heq.
Qed.

Lemma first_occurrence (k : string * string) (l : list Anomaly) :
  (exists a, In a l /\ anomaly_key a = k) ->
  exists l1 x l2,
    l = l1 ++ x :: l2 /\ anomaly_key x = k /\ forall y, In y l1 -> anomaly_key y <> k.
Proof.
  induction l as [| a rest IH]; intros [b [Hin Hb]]; [destruct Hin |].
  destruct (decide (anomaly_key a = k)) as [Ha | Ha].
  - exists [], a, rest. simpl. tauto.
  - destruct Hin as [-> | Hin]; [contradiction |].
    destruct IH as [l1 [x [l2 [-> [Hx Hl1]]]]]; [eauto |].
    exists (a :: l1), x, l2. simpl. split; [reflexivity |]. split; [exact Hx |].
    intros y [<- | Hy]; auto.
Qed.

Lemma sorted_after {A} (R : A -> A -> Prop) (l1 l2 : list A) (x : A) :
  StronglySorted R (l1 ++ x :: l2) -> Forall (R x) l2.
Proof.
  induction l1 as [| y l1' IH]; simpl; intros H; inversion H; subst; auto.
Qed.

Lemma filter_perm {A} (f : A -> bool) (l l' : list A) :
  Permutation l l' -> Permutation (List.filter f l) (List.filter f l').
Proof.
  induction 1 as [| x l l' _ IH | x y l | l l' l'' _ IH1 _ IH2]; simpl.
  - constructor.
  - destruct (f x); [constructor |]; exact IH.
  - destruct (f x), (f y); try reflexivity. apply perm_swap.
  - etransitivity; eauto.
Qed.

(** One anomaly per flagged key survives, and it is one of the worst. *)
Lemma dedup_one_per_key (anomalies : list Anomaly) (k : string * string) :
  (exists a, In a anomalies /\ anomaly_key a = k) ->
  exists u : Anomaly,
    List.filter (has_key k) (deduplicate_anomalies anomalies) = [u]
    /\ In u anomalies
    /\ anomaly_key u = k
    /\ forall a, In a anomalies -> anomaly_key a = k ->
         (severity_order (severity u) <= severity_order (severity a))%nat.
Proof.
  intros [a0 [Hin0 Hk0]].
  pose proof (sort_by_perm dedup_leb anomalies) as Hperm.
  pose proof (sort_by_sorted dedup_leb dedup_leb_total dedup_leb_trans anomalies) as Hsorted.
  destruct (first_occurrence k (sort_by dedup_leb anomalies)) as [l1 [u [l2 [Hl [Hu Hl1]]]]].
  { exists a0. split; [| exact Hk0].
    eapply Permutation_in; [symmetry; exact Hperm | exact Hin0]. }
  exists u. rewrite deduplicate_anomalies_closed, Hl.
  split; [apply dedup_first_first; [apply not_elem_of_empty | exact Hu | exact Hl1] |].
  assert (Hu_in : In u (sort_by dedup_leb anomalies)).
  { rewrite Hl. apply in_app_iff. simpl. tauto. }
  split; [eapply Permutation_in; eauto |]. split; [exact Hu |].
  intros a Ha Hka.
  assert (Ha' : In a (sort_by dedup_leb anomalies))
    by (eapply Permutation_in; [symmetry; exact Hperm | exact Ha]).
  rewrite Hl in Ha', Hsorted. apply in_app_iff in Ha'.
  destruct Ha' as [Ha' | [<- | Ha']].
  - exfalso. exact (Hl1 a Ha' Hka).
  - lia.
  - apply sorted_after in Hsorted.
    rewrite List.Forall_forall in Hsorted. specialize (Hsorted a Ha').
    apply dedup_leb_cases in Hsorted.
    assert (Ed : date a = date u /\ bucket a = bucket u).
    { unfold anomaly_key in Hu, Hka. rewrite <- Hu in Hka.
      injection Hka as -> ->. tauto. }
    destruct Ed as [Ed Eb].
    destruct Hsorted as [H | [[_ H] | [_ [_ H]]]].
    + rewrite Ed, string_compare_refl in H. discriminate.
    + rewrite Eb, string_compare_refl in H. discriminate.
    + exact H.
Qed.

Lemma deduplicate_subset (anomalies : list Anomaly) (x : Anomaly) :
  In x (deduplicate_anomalies anomalies) -> In x anomalies.
Proof.
  rewrite deduplicate_anomalies_closed. intros H.
  apply dedup_first_subset in H.
  eapply Permutation_in; [apply sort_by_perm | exact H].
Qed.

Lemma filter_singleton_perm {A} (f : A -> bool) (l l' : list A) (u : A) :
  Permutation l l' -> List.filter f l = [u] -> List.filter f l' = [u].
Proof.
  intros Hp Hf. apply (filter_perm f) in Hp. rewrite Hf in Hp.
  apply Permutation_length_1_inv in Hp. exact Hp.
Qed.

(** C5: when a (period, bucket) key is flagged, exactly one anomaly with
    that key is left after deduplication, also in the list [detect_all]
    finally sorts, and its severity is the highest among all the flags of
    the key. *)
Theorem deduplicate_keeps_one_worst (anomalies : list Anomaly) (k : string * string) :
  (exists a b : Anomaly,
      In a anomalies /\ In b anomalies
      /\ anomaly_key a = k /\ anomaly_key b = k /\ method a <> method b) ->
  exists u : Anomaly,
    List.filter (has_key k) (deduplicate_anomalies anomalies) = [u]
    /\ List.filter (has_key k) (sort_by final_leb (deduplicate_anomalies anomalies)) = [u]
    /\ In u anomalies
    /\ (forall a : Anomaly, In a anomalies -> anomaly_key a = k ->
          (severity_order (severity u) <= severity_order (severity a))%nat).
Proof.
  intros [a [b [Ha [_ [Hka _]]]]].
  destruct (dedup_one_per_key anomalies k) as [u [Hf [Hin [_ Hmin]]]]; [eauto |].
  exists u. split; [exact Hf |]. split; [| split; assumption].
  eapply filter_singleton_perm; [| exact Hf].
  symmetry. apply sort_by_perm.
Qed.

Lemma deduplicate_keeps_one_worst_witness :
  (exists a b : Anomaly,
      In a sample_flags /\ In b sample_flags
      /\ anomaly_key a = ("2024-06", "Sales")%string
      /\ anomaly_key b = ("2024-06", "Sales")%string
      /\ method a <> method b)
  /\ exists u : Anomaly,
       List.filter (has_key ("2024-06", "Sales")%string)
         (deduplicate_anomalies sample_flags) = [u]
       /\ severity u = High.
Proof.
  assert (H : exists a b : Anomaly,
      In a sample_flags /\ In b sample_flags
      /\ anomaly_key a = ("2024-06", "Sales")%string
      /\ anomaly_key b = ("2024-06", "Sales")%string
      /\ method a <> method b).
  { exists (mkAnomaly "2024-06" "Sales" "Revenue" 1100 200 900 450 Low Zscore),
           (mkAnomaly "2024-06" "Sales" "Revenue" 1100 100 1000 1000 High Mad).
    simpl. repeat split; try tauto. discriminate. }
  split; [exact H |].
  destruct (deduplicate_keeps_one_worst sample_flags _ H) as [u [Hf [_ [_ Hmin]]]].
  exists u. split; [exact Hf |].
  specialize (Hmin (mkAnomaly "2024-06" "Sales" "Revenue" 1100 100 1000 1000 High Mad)).
  simpl in Hmin.
  assert (Hle : (severity_order (severity u) <= 0)%nat) by (apply Hmin; tauto).
  destruct (severity u); simpl in Hle; [lia | lia | reflexivity].
Defined.

End DedupProperties.

(** ** The score tests over the reals *)

Section ScoreOverReals.
Import Anomalies.

Lemma abs_quotient_gt (n v c : R) :
  (0 < v)%R ->
  ((c < Rabs (n / sqrt v))%R <-> (c < 0 \/ c * c * v < n * n)%R).
Proof.
  intros Hv.
  assert (Hs : (0 < sqrt v)%R) by (apply sqrt_lt_R0; exact Hv).
  assert (Hss : (sqrt v * sqrt v = v)%R) by (apply sqrt_sqrt; Lra.lra).
  assert (Habs : (Rabs (n / sqrt v) = Rabs n / sqrt v)%R).
  { unfold Rdiv. rewrite Rabs_mult, (Rabs_pos_eq (/ sqrt v)); [reflexivity |].
    left. apply Rinv_0_lt_compat. exact Hs. }
  rewrite Habs.
  assert (Hn : (0 <= Rabs n)%R) by apply Rabs_pos.
  assert (Hnn : (Rabs n * Rabs n = n * n)%R).
  { unfold Rabs. destruct (Rcase_abs n); ring. }
  split.
  - intros H. destruct (Rlt_le_dec c 0) as [Hc | Hc]; [left; exact Hc | right].
    assert (H1 : (c * sqrt v < Rabs n)%R).
    { apply (Rmult_lt_compat_r (sqrt v)) in H; [| exact Hs].
      unfold Rdiv in H. rewrite Rmult_assoc, Rinv_l, Rmult_1_r in H; Lra.lra. }
    rewrite <- Hnn, <- Hss.
    assert (0 <= c * sqrt v)%R by (apply Rmult_le_pos; Lra.lra).
    replace (c * c * (sqrt v * sqrt v))%R with ((c * sqrt v) * (c * sqrt v))%R by ring.
    apply Rmult_le_0_lt_compat; Lra.lra.
  - intros [Hc | Hc].
    + assert (0 <= Rabs n / sqrt v)%R.
      { unfold Rdiv. apply Rmult_le_pos; [exact Hn |].
        left. apply Rinv_0_lt_compat. exact Hs. }
      Lra.lra.
    + destruct (Rlt_le_dec c 0) as [Hc0 | Hc0].
      * assert (0 <= Rabs n / sqrt v)%R.
        { unfold Rdiv. apply Rmult_le_pos; [exact Hn |].
          left. apply Rinv_0_lt_compat. exact Hs. }
        Lra.lra.
      * apply (Rmult_lt_reg_r (sqrt v)); [exact Hs |].
        unfold Rdiv. rewrite Rmult_assoc, Rinv_l, Rmult_1_r by Lra.lra.
        rewrite <- Hnn, <- Hss in Hc.
        replace (c * c * (sqrt v * sqrt v))%R with ((c * sqrt v) * (c * sqrt v))%R in Hc by ring.
        assert (0 <= c * sqrt v)%R by (apply Rmult_le_pos; Lra.lra).
        destruct (Rlt_le_dec (c * sqrt v) (Rabs n)) as [Hlt | Hge]; [exact Hlt |].
        exfalso.
        assert (Rabs n * Rabs n <= (c * sqrt v) * (c * sqrt v))%R
          by (apply Rmult_le_compat; Lra.lra).
        Lra.lra.
Qed.

Lemma Q2R_zero : Q2R 0 = 0%R.
Proof. unfold Q2R. simpl. Lra.lra. Qed.

(** [score_gt] decides [score > c] for the real number the score stands
    for, [abs(score_num / sqrt(score_rad))]. *)
Lemma score_gt_real (n v c : Q) :
  0 < v ->
  (score_gt (mkScore n v) c = true
   <-> (Q2R c < Rabs (Q2R n / sqrt (Q2R v)))%R).
Proof.
  intros Hv.
  assert (Hv' : (0 < Q2R v)%R) by (rewrite <- Q2R_zero; apply Qlt_Rlt; exact Hv).
  rewrite (abs_quotient_gt _ _ _ Hv').
  unfold score_gt. cbn [score_num score_rad].
  destruct (Qlt_bool c 0) eqn:Ec.
  - apply Qlt_bool_iff in Ec. apply Qlt_Rlt in Ec. rewrite Q2R_zero in Ec.
    split; [intros _; left; exact Ec | reflexivity].
  - assert (Hc : 0 <= c).
    { destruct (Qlt_le_dec c 0) as [H | H]; [| exact H].
      apply Qlt_bool_iff in H. congruence. }
    apply Qle_Rle in Hc. rewrite Q2R_zero in Hc.
    rewrite Qlt_bool_iff. rewrite <- !Q2R_mult. split.
    + intros H. right. apply Qlt_Rlt. exact H.
    + intros [H | H]; [Lra.lra | apply Rlt_Qlt; exact H].
Qed.

Lemma abs_quotient_lt (n v c : R) :
  (0 < v)%R ->
  ((Rabs (n / sqrt v) < c)%R <-> (0 < c /\ n * n < c * c * v)%R).
Proof.
  intros Hv.
  assert (Hs : (0 < sqrt v)%R) by (apply sqrt_lt_R0; exact Hv).
  assert (Hss : (sqrt v * sqrt v = v)%R) by (apply sqrt_sqrt; Lra.lra).
  assert (Habs : (Rabs (n / sqrt v) = Rabs n / sqrt v)%R).
  { unfold Rdiv. rewrite Rabs_mult, (Rabs_pos_eq (/ sqrt v)); [reflexivity |].
    left. apply Rinv_0_lt_compat. exact Hs. }
  rewrite Habs.
  assert (Hn : (0 <= Rabs n)%R) by apply Rabs_pos.
  assert (Hnn : (Rabs n * Rabs n = n * n)%R).
  { unfold Rabs. destruct (Rcase_abs n); ring. }
  assert (Hq : (0 <= Rabs n / sqrt v)%R).
  { unfold Rdiv. apply Rmult_le_pos; [exact Hn |].
    left. apply Rinv_0_lt_compat. exact Hs. }
  split.
  - intros H. split; [Lra.lra |].
    assert (H1 : (Rabs n < c * sqrt v)%R).
    { apply (Rmult_lt_compat_r (sqrt v)) in H; [| exact Hs].
      unfold Rdiv in H. rewrite Rmult_assoc, Rinv_l, Rmult_1_r in H; Lra.lra. }
    rewrite <- Hnn, <- Hss.
    replace (c * c * (sqrt v * sqrt v))%R with ((c * sqrt v) * (c * sqrt v))%R by ring.
    apply Rmult_le_0_lt_compat; Lra.lra.
  - intros [Hc H].
    apply (Rmult_lt_reg_r (sqrt v)); [exact Hs |].
    unfold Rdiv. rewrite Rmult_assoc, Rinv_l, Rmult_1_r by Lra.lra.
    rewrite <- Hnn, <- Hss in H.
    replace (c * c * (sqrt v * sqrt v))%R with ((c * sqrt v) * (c * sqrt v))%R in H by ring.
    assert (0 <= c * sqrt v)%R by (apply Rmult_le_pos; Lra.lra).
    destruct (Rlt_le_dec (Rabs n) (c * sqrt v)) as [Hlt | Hge]; [exact Hlt |].
    exfalso.
    assert ((c * sqrt v) * (c * sqrt v) <= Rabs n * Rabs n)%R
      by (apply Rmult_le_compat; Lra.lra).
    Lra.lra.
Qed.

(** [score_lt] decides [score < c] in the same sense. *)
Lemma score_lt_real (n v c : Q) :
  0 < v ->
  (score_lt (mkScore n v) c = true
   <-> (Rabs (Q2R n / sqrt (Q2R v)) < Q2R c)%R).
Proof.
  intros Hv.
  assert (Hv' : (0 < Q2R v)%R) by (rewrite <- Q2R_zero; apply Qlt_Rlt; exact Hv).
  rewrite (abs_quotient_lt _ _ _ Hv').
  unfold score_lt. cbn [score_num score_rad].
  destruct (Qle_bool c 0) eqn:Ec.
  - apply Qle_bool_iff in Ec. apply Qle_Rle in Ec. rewrite Q2R_zero in Ec.
    split; [discriminate | intros [H _]; Lra.lra].
  - apply Qle_bool_false_iff in Ec. apply Qlt_Rlt in Ec. rewrite Q2R_zero in Ec.
    rewrite Qlt_bool_iff. rewrite <- !Q2R_mult. split.
    + intros H. split; [exact Ec | apply Qlt_Rlt; exact H].
    + intros [_ H]. apply Rlt_Qlt. exact H.
Qed.

End ScoreOverReals.

(** ** A single spike in twelve months *)

Section SpikeProperties.
Import Anomalies.

Lemma Qsum_spike (lo hi : Q) (k : nat) :
  (k < 12)%nat ->
  Qsum (map (fun i => if (i =? k)%nat then hi else lo) (seq 0 12)) == 11 * lo + hi.
Proof.
  intros Hk.
  do 12 (destruct k as [| k]; [unfold Qsum; cbn; ring |]).
  lia.
Qed.

Lemma spike_amounts (base spike : Q) (k : nat) :
  map m_amount (spike_series base spike k)
  = map (fun i => if (i =? k)%nat then base + spike else base) (seq 0 12).
Proof. unfold spike_series. rewrite map_map. reflexivity. Qed.

Lemma spike_mean (base spike : Q) (k : nat) :
  (k < 12)%nat ->
  Qmean (map m_amount (spike_series base spike k)) == base + spike / 12.
Proof.
  intros Hk. rewrite spike_amounts. unfold Qmean.
  rewrite Qsum_spike by exact Hk.
  rewrite List.length_map, List.length_seq.
  change (inject_Z (Z.of_nat 12)) with 12. field.
Qed.

Lemma spike_var (base spike : Q) (k : nat) :
  (k < 12)%nat ->
  sample_var (map m_amount (spike_series base spike k)) == spike * spike / 12.
Proof.
  intros Hk. unfold sample_var.
  pose proof (spike_mean base spike k Hk) as Hmean.
  set (mean := Qmean (map m_amount (spike_series base spike k))) in *.
  rewrite spike_amounts. rewrite map_map.
  rewrite (map_ext _ (fun i => if (i =? k)%nat
                               then (base + spike - mean) * (base + spike - mean)
                               else (base - mean) * (base - mean)))
    by (intros i; destruct (i =? k)%nat; reflexivity).
  rewrite Qsum_spike by exact Hk.
  rewrite List.length_map, List.length_seq.
  change (inject_Z (Z.of_nat (12 - 1))) with 11.
  rewrite Hmean. field.
Qed.

(** The z-score of the spike, [11 / sqrt 12], is above 3 and below 3.5. *)
Lemma spike_score_tests (d var spike : Q) :
  0 < spike -> d == (11 # 12) * spike -> var == spike * spike / 12 ->
  score_gt (mkScore d var) 3 = true
  /\ score_gt (mkScore d var) 4 = false
  /\ score_gt (mkScore d var) (35 # 10) = false.
Proof.
  intros Hs Hd Hv.
  assert (Hss : 0 < spike * spike) by (apply Qmult_lt_0_compat; assumption).
  unfold score_gt. cbn [score_num score_rad].
  change (Qlt_bool 3 0) with false.
  change (Qlt_bool 4 0) with false.
  change (Qlt_bool (35 # 10) 0) with false.
  cbv iota.
  split; [| split].
  - apply Qlt_bool_iff. rewrite Hd, Hv.
    setoid_replace (3 * 3 * (spike * spike / 12)) with ((108 # 144) * (spike * spike))
      using relation Qeq by field.
    setoid_replace ((11 # 12) * spike * ((11 # 12) * spike))
      with ((121 # 144) * (spike * spike))
      using relation Qeq by ring.
    lra.
  - apply Qlt_bool_false. rewrite Hd, Hv.
    setoid_replace (4 * 4 * (spike * spike / 12)) with ((192 # 144) * (spike * spike))
      using relation Qeq by field.
    setoid_replace ((11 # 12) * spike * ((11 # 12) * spike))
      with ((121 # 144) * (spike * spike))
      using relation Qeq by ring.
    lra.
  - apply Qlt_bool_false. rewrite Hd, Hv.
    setoid_replace ((35 # 10) * (35 # 10) * (spike * spike / 12))
      with ((147 # 144) * (spike * spike))
      using relation Qeq by field.
    setoid_replace ((11 # 12) * spike * ((11 # 12) * spike))
      with ((121 # 144) * (spike * spike))
      using relation Qeq by ring.
    lra.
Qed.

(** The z-score of an ordinary month, [-1 / sqrt 12], is not flagged. *)
Lemma base_score_test (d var spike : Q) :
  0 < spike -> d == - ((1 # 12) * spike) -> var == spike * spike / 12 ->
  score_gt (mkScore d var) 3 = false.
Proof.
  intros Hs Hd Hv.
  assert (Hss : 0 < spike * spike) by (apply Qmult_lt_0_compat; assumption).
  unfold score_gt. cbn [score_num score_rad].
  change (Qlt_bool 3 0) with false. cbv iota.
  apply Qlt_bool_false. rewrite Hd, Hv.
  setoid_replace (3 * 3 * (spike * spike / 12)) with ((108 # 144) * (spike * spike))
      using relation Qeq by field.
  setoid_replace (- ((1 # 12) * spike) * - ((1 # 12) * spike))
    with ((1 # 144) * (spike * spike))
      using relation Qeq by ring.
  lra.
Qed.

Lemma filter_map_comm {A B} (p : B -> bool) (f : A -> B) (l : list A) :
  List.filter p (map f l) = map f (List.filter (fun x => p (f x)) l).
Proof.
  induction l as [| x xs IH]; simpl; [reflexivity |].
  destruct (p (f x)); simpl; rewrite IH; reflexivity.
Qed.

Lemma filter_index (k : nat) :
  (k < 12)%nat -> List.filter (fun i => (i =? k)%nat) (seq 0 12) = [k].
Proof.
  intros Hk. do 12 (destruct k as [| k]; [reflexivity |]). lia.
Qed.

Lemma spike_zscore_bucket (base spike : Q) (k : nat) :
  0 < spike -> (k < 12)%nat ->
  zscore_bucket default_detector (spike_series base spike k)
  = [ make_anomaly (spike_row base spike k k)
        (Qmean (map m_amount (spike_series base spike k))) Low Zscore ].
Proof.
  intros Hs Hk.
  pose proof (spike_mean base spike k Hk) as Hmean.
  pose proof (spike_var base spike k Hk) as Hvar.
  assert (Hss : 0 < spike * spike) by (apply Qmult_lt_0_compat; assumption).
  unfold zscore_bucket.
  set (mean := Qmean (map m_amount (spike_series base spike k))) in *.
  set (var := sample_var (map m_amount (spike_series base spike k))) in *.
  replace (length (spike_series base spike k) <? 6)%nat with false by reflexivity.
  assert (Hnz : ~ var == 0).
  { rewrite Hvar. intros H.
    assert (E : spike * spike / 12 == spike * spike * (1 # 12)) by field.
    rewrite E in H. lra. }
  rewrite (Qeq_bool_false _ _ Hnz).
  cbn [zscore_threshold default_detector].
  unfold spike_series at 1. rewrite filter_map_comm.
  rewrite (List.filter_ext_in _ (fun i => (i =? k)%nat)).
  - rewrite filter_index by exact Hk. cbn [map].
    destruct (spike_score_tests (m_amount (spike_row base spike k k) - mean) var spike)
      as [_ [H4 H35]]; [exact Hs | | exact Hvar |].
    + cbn [m_amount spike_row]. rewrite Nat.eqb_refl, Hmean. field.
    + unfold determine_severity. rewrite H4, H35. reflexivity.
  - intros i _. cbn [m_amount spike_row].
    destruct (i =? k)%nat.
    + apply (spike_score_tests _ var spike); [exact Hs | | exact Hvar].
      rewrite Hmean. field.
    + apply (base_score_test _ var spike); [exact Hs | | exact Hvar].
      rewrite Hmean. field.
Qed.

Lemma median_one_hi (lo hi : Q) (k : nat) :
  (k < 12)%nat ->
  Qle_bool lo lo = true -> Qle_bool lo hi = true -> Qle_bool hi lo = false ->
  median (map (fun i => if (i =? k)%nat then hi else lo) (seq 0 12)) = (lo + lo) / 2.
Proof.
  intros Hk Hll Hlh Hhl. unfold median.
  rewrite (sort_by_one_hi Qle_bool lo hi Hll Hlh Hhl k 0 12).
  replace ((0 <=? k)%nat && (k <? 0 + 12)%nat) with true.
  - reflexivity.
  - symmetry. apply andb_true_iff. split; [apply Nat.leb_le | apply Nat.ltb_lt]; lia.
Qed.

Lemma spike_mad_bucket (base spike : Q) (k : nat) :
  0 < spike -> (k < 12)%nat ->
  mad_bucket default_detector (spike_series base spike k) = [].
Proof.
  intros Hs Hk. unfold mad_bucket.
  replace (length (spike_series base spike k) <? 6)%nat with false by reflexivity.
  rewrite spike_amounts.
  rewrite (median_one_hi base (base + spike) k Hk)
    by (first [apply Qle_bool_iff | apply Qle_bool_false_iff]; lra).
  set (med := (base + base) / 2).
  assert (Hmed : med == base) by (unfold med; field).
  rewrite map_map.
  rewrite (map_ext _ (fun i => if (i =? k)%nat
                               then Qabs (base + spike - med) else Qabs (base - med)))
    by (intros i; destruct (i =? k)%nat; reflexivity).
  assert (Hlo : Qabs (base - med) == 0).
  { rewrite Hmed. setoid_replace (base - base) with 0 using relation Qeq by ring.
    reflexivity. }
  assert (Hhi : Qabs (base + spike - med) == spike).
  { rewrite Hmed. setoid_replace (base + spike - base) with spike using relation Qeq by ring.
    apply Qabs_pos. lra. }
  rewrite (median_one_hi (Qabs (base - med)) (Qabs (base + spike - med)) k Hk).
  - replace (Qeq_bool ((Qabs (base - med) + Qabs (base - med)) / 2) 0) with true;
      [reflexivity |].
    symmetry. apply Qeq_bool_iff. rewrite Hlo. reflexivity.
  - apply Qle_bool_iff. lra.
  - apply Qle_bool_iff. rewrite Hlo, Hhi. lra.
  - apply Qle_bool_false_iff. rewrite Hlo, Hhi. lra.
Qed.

Lemma spike_unique_buckets (base spike : Q) (k : nat) :
  unique_buckets (spike_series base spike k) = ["Sales"%string].
Proof. reflexivity. Qed.

Lemma spike_bucket_data (base spike : Q) (k : nat) :
  bucket_data (spike_series base spike k) "Sales" = spike_series base spike k.
Proof. reflexivity. Qed.

Lemma spike_detect_zscore (base spike : Q) (k : nat) :
  0 < spike -> (k < 12)%nat ->
  detect_zscore_anomalies default_detector (spike_series base spike k)
  = [ make_anomaly (spike_row base spike k k)
        (Qmean (map m_amount (spike_series base spike k))) Low Zscore ].
Proof.
  intros Hs Hk. unfold detect_zscore_anomalies.
  rewrite spike_unique_buckets. cbn [flat_map].
  rewrite spike_bucket_data, spike_zscore_bucket by assumption.
  reflexivity.
Qed.

Lemma spike_detect_mad (base spike : Q) (k : nat) :
  0 < spike -> (k < 12)%nat ->
  detect_mad_anomalies default_detector (spike_series base spike k) = [].
Proof.
  intros Hs Hk. unfold detect_mad_anomalies.
  rewrite spike_unique_buckets. cbn [flat_map].
  rewrite spike_bucket_data, spike_mad_bucket by assumption.
  reflexivity.
Qed.

(** The score passed by the isolation-forest detector is an absolute value,
    so neither negative bound of its severity ladder is ever met. *)
Lemma isolation_forest_always_low (iso : list Q -> list (bool * Q))
  (monthly : list MonthlyRow) (a : Anomaly) :
  In a (detect_isolation_forest_anomalies iso monthly) -> severity a = Low.
Proof.
  unfold detect_isolation_forest_anomalies. rewrite in_flat_map.
  intros [b [_ Ha]]. unfold isolation_forest_bucket in Ha.
  destruct (length (bucket_data monthly b) <? 10)%nat; [destruct Ha |].
  apply List.in_map_iff in Ha. destruct Ha as [p [<- _]]. reflexivity.
Qed.

(** C3 (as the code has it): in a year of equal monthly sums with one month
    raised by any positive amount, the z-score detector flags exactly that
    month, with method "zscore" and severity "low" (the score is
    [11 / sqrt 12], about 3.18: above the threshold 3, below 3.5); the MAD
    detector skips the bucket, its MAD being zero; whatever the isolation
    forest adds, [detect_all] keeps exactly one anomaly for that month and
    bucket, of severity "low", and no anomaly of a higher severity. *)
Theorem spike_flagged_low_by_zscore_only
  (iso : list Q -> list (bool * Q)) (base spike : Q) (k : nat) :
  0 < spike -> (k < 12)%nat ->
  let series := spike_series base spike k in
  let month := nth k months ""%string in
  (exists a : Anomaly,
      detect_zscore_anomalies default_detector series = [a]
      /\ date a = month /\ bucket a = "Sales"%string
      /\ amount a = base + spike
      /\ method a = Zscore /\ severity a = Low)
  /\ detect_mad_anomalies default_detector series = []
  /\ (exists u : Anomaly,
        List.filter (has_key (month, "Sales"%string))
          (detect_all iso default_detector series) = [u]
        /\ severity u = Low)
  /\ (forall a : Anomaly,
        In a (detect_all iso default_detector series) -> severity a = Low).
Proof.
  intros Hs Hk series month.
  pose proof (spike_detect_zscore base spike k Hs Hk) as Hz.
  pose proof (spike_detect_mad base spike k Hs Hk) as Hm.
  fold series in Hz, Hm.
  set (flag := make_anomaly (spike_row base spike k k)
                 (Qmean (map m_amount (spike_series base spike k))) Low Zscore) in *.
  assert (Hkey : anomaly_key flag = (month, "Sales"%string)) by reflexivity.
  set (anomalies := [flag] ++ [] ++ detect_isolation_forest_anomalies iso series).
  assert (Hall : detect_all iso default_detector series
                 = sort_by final_leb (deduplicate_anomalies anomalies)).
  { unfold detect_all. rewrite Hz, Hm. reflexivity. }
  assert (Hlow : forall a, In a anomalies -> severity a = Low).
  { intros a [<- | Ha]; [reflexivity |].
    eapply isolation_forest_always_low. exact Ha. }
  split; [| split; [exact Hm | split]].
  - exists flag. split; [exact Hz |]. cbn [flag make_anomaly date bucket amount method
      severity spike_row year_month m_bucket m_amount].
    rewrite Nat.eqb_refl. repeat split; reflexivity.
  - destruct (dedup_one_per_key anomalies (month, "Sales"%string))
      as [u [Hf [Hin _]]].
    { exists flag. split; [left; reflexivity | exact Hkey]. }
    exists u. split; [| apply Hlow; exact Hin].
    rewrite Hall. eapply filter_singleton_perm; [| exact Hf].
    symmetry. apply sort_by_perm.
  - intros a Ha. rewrite Hall in Ha.
    apply Hlow. apply deduplicate_subset.
    eapply Permutation_in; [apply sort_by_perm | exact Ha].
Qed.

Lemma spike_flagged_low_by_zscore_only_witness :
  0 < 1000 /\ (5 < 12)%nat
  /\ detect_mad_anomalies default_detector (spike_series 100 1000 5) = []
  /\ forall a : Anomaly,
       In a (detect_all eager_forest default_detector (spike_series 100 1000 5)) ->
       severity a = Low.
Proof.
  assert (Hs : 0 < 1000) by reflexivity.
  assert (Hk : (5 < 12)%nat) by lia.
  split; [exact Hs |]. split; [exact Hk |].
  destruct (spike_flagged_low_by_zscore_only eager_forest 100 1000 5 Hs Hk)
    as [_ [Hm [_ Hall]]].
  split; [exact Hm | exact Hall].
Defined.

(** C3 (counterexample): twelve months at 100 with June at 1100.  The
    z-score detector flags June with severity "low", not "high"; the MAD
    detector flags nothing; the deduplicated result, with or without flags
    of the isolation forest, holds June once, with severity "low". *)
Lemma spike_is_not_high :
  let series := spike_series 100 1000 5 in
  map (fun a => (date a, method a, severity a))
      (detect_zscore_anomalies default_detector series)
    = [("2024-06"%string, Zscore, Low)]
  /\ detect_mad_anomalies default_detector series = []
  /\ map (fun a => (date a, method a, severity a))
         (detect_all quiet_forest default_detector series)
     = [("2024-06"%string, Zscore, Low)]
  /\ map (fun a => (date a, severity a))
         (detect_all eager_forest default_detector series)
     = [("2024-06"%string, Low)]
  /\ ~ (exists a : Anomaly,
          In a (detect_zscore_anomalies default_detector series)
          /\ severity a = High)
  /\ ~ (exists a : Anomaly,
          In a (detect_mad_anomalies default_detector series))
  /\ ~ (exists a : Anomaly,
          In a (detect_all eager_forest default_detector series)
          /\ severity a = High).
Proof.
  intros series.
  assert (Hz : detect_zscore_anomalies default_detector series
               = [ make_anomaly (spike_row 100 1000 5 5)
                     (Qmean (map m_amount series)) Low Zscore ])
    by (vm_compute; reflexivity).
  assert (Hm : detect_mad_anomalies default_detector series = [])
    by (vm_compute; reflexivity).
  assert (He : map (fun a => (date a, severity a))
                 (detect_all eager_forest default_detector series)
               = [("2024-06"%string, Low)])
    by (vm_compute; reflexivity).
  split; [rewrite Hz; reflexivity |].
  split; [exact Hm |].
  split; [vm_compute; reflexivity |].
  split; [exact He |].
  split; [| split].
  - rewrite Hz. intros [a [[<- | []] Hsev]]. discriminate Hsev.
  - rewrite Hm. intros [a []].
  - intros [a [Ha Hsev]].
    assert (Hin : In (date a, severity a)
                    (map (fun a => (date a, severity a))
                       (detect_all eager_forest default_detector series)))
      by exact (List.in_map (fun a => (date a, severity a)) _ a Ha).
    rewrite He in Hin. destruct Hin as [Hin | []].
    rewrite Hsev in Hin. discriminate Hin.
Qed.

End SpikeProperties.

(** ** Growth metrics *)

Section GrowthProperties.
Import Kpis.
Variable power : Q -> Q -> Q.

Lemma trace_all_metric {A} (m : Metric) (f : A -> Traced FVal) (l : list A) :
  (forall x o, In o (snd (f x)) -> op_metric o = m) ->
  forall o, In o (snd (trace_all f l)) -> op_metric o = m.
Proof.
  intros Hf. induction l as [| x xs IH]; simpl; intros o Ho.
  - destruct Ho.
  - rewrite w_bind_snd in Ho. apply in_app_iff in Ho. destruct Ho as [Ho | Ho].
    + eapply Hf; eauto.
    + rewrite w_bind_snd in Ho. cbn [snd w_ret] in Ho. rewrite app_nil_r in Ho.
      apply IH. exact Ho.
Qed.

Lemma pct_change_metric (m : Metric) (periods : nat) (series : list Q) (o : Op) :
  In o (snd (pct_change m periods series)) -> op_metric o = m.
Proof.
  unfold pct_change. rewrite w_bind_snd. cbn [snd w_ret]. rewrite app_nil_r.
  apply trace_all_metric. intros p o' Ho'. unfold pct_of in Ho'.
  rewrite w_bind_snd in Ho'. simpl in Ho'. destruct Ho' as [<- | []]. reflexivity.
Qed.

Lemma inject_nat_pos (n : nat) : (0 < n)%nat -> 0 < inject_Z (Z.of_nat n).
Proof.
  intros H. change 0 with (inject_Z 0). rewrite <- Zlt_Qlt. lia.
Qed.

(** What the CAGR block does on either side of its guard. *)
Lemma cagr_block_cases (revenues : list Q) (growth : gmap string FVal) :
  let first_value := hd 0 revenues in
  let last_value := List.last revenues 0 in
  let n := inject_Z (Z.of_nat (length revenues)) in
  (0 < first_value /\ 0 < last_value
   /\ cagr_block power revenues growth
      = (<[ "revenue_cagr"%string :=
              Fin ((power (last_value / first_value) (1 / (n / 12)) - 1) * 100) ]> growth,
         [ OpDiv RevenueCagr n 12;
           OpDiv RevenueCagr last_value first_value;
           OpDiv RevenueCagr 1 (n / 12);
           OpRoot RevenueCagr (last_value / first_value) (n / 12) ]))
  \/ (~ (0 < first_value /\ 0 < last_value)
      /\ cagr_block power revenues growth = (growth, [OpDiv RevenueCagr n 12])).
Proof.
  intros first_value last_value n. unfold cagr_block.
  fold first_value last_value n.
  destruct (Qlt_bool 0 first_value) eqn:E1.
  - destruct (Qlt_bool 0 last_value) eqn:E2.
    + left. apply Qlt_bool_iff in E1. apply Qlt_bool_iff in E2.
      split; [exact E1 |]. split; [exact E2 |]. reflexivity.
    + right. split; [| reflexivity].
      intros [_ H]. apply Qlt_bool_iff in H. congruence.
  - right. split; [| reflexivity].
    intros [H _]. apply Qlt_bool_iff in H. congruence.
Qed.

Lemma cagr_block_safe (revenues : list Q) (growth : gmap string FVal) (o : Op) :
  In o (snd (cagr_block power revenues growth)) ->
  op_metric o = RevenueCagr /\ op_unsafe o = false.
Proof.
  destruct (cagr_block_cases revenues growth) as [[Hf [Hl ->]] | [_ ->]];
    cbn [snd In].
  - assert (Hn : 0 < inject_Z (Z.of_nat (length revenues))).
    { apply inject_nat_pos. destruct revenues as [| r rs]; simpl in *; [lra | lia]. }
    set (n := inject_Z (Z.of_nat (length revenues))) in *.
    assert (Hp : 0 < n / 12) by (apply Qlt_shift_div_l; lra).
    assert (Hb : 0 < List.last revenues 0 / hd 0 revenues)
      by (apply Qlt_shift_div_l; lra).
    intros [<- | [<- | [<- | [<- | []]]]]; (split; [reflexivity |]); cbn [op_unsafe].
    + reflexivity.
    + apply Qeq_bool_false. lra.
    + apply Qeq_bool_false. lra.
    + apply orb_false_iff. split.
      * apply negb_false_iff. apply Qle_bool_iff. lra.
      * apply Qeq_bool_false. lra.
  - intros [<- | []]. split; reflexivity.
Qed.

Lemma mom_block_lookup (m : Metric) (latest_key avg_key : string) (series : list Q)
  (growth : gmap string FVal) (k : string) :
  k <> latest_key -> k <> avg_key ->
  fst (mom_block m latest_key avg_key series growth) !! k = growth !! k.
Proof.
  intros H1 H2. unfold mom_block. rewrite w_bind_fst. cbn [fst w_ret].
  rewrite !lookup_insert_ne by congruence. reflexivity.
Qed.

Lemma mom_block_metric (m : Metric) (latest_key avg_key : string) (series : list Q)
  (growth : gmap string FVal) (o : Op) :
  In o (snd (mom_block m latest_key avg_key series growth)) -> op_metric o = m.
Proof.
  unfold mom_block. rewrite w_bind_snd. cbn [snd w_ret]. rewrite app_nil_r.
  apply pct_change_metric.
Qed.

Lemma yoy_block_lookup (revenues : list Q) (growth : gmap string FVal) (k : string) :
  k <> "latest_revenue_yoy"%string -> k <> "avg_revenue_yoy"%string ->
  fst (yoy_block revenues growth) !! k = growth !! k.
Proof.
  intros H1 H2. unfold yoy_block. rewrite w_bind_fst. cbn [fst w_ret].
  rewrite !lookup_insert_ne by congruence. reflexivity.
Qed.

Lemma yoy_block_keys (revenues : list Q) (growth : gmap string FVal) :
  is_Some (fst (yoy_block revenues growth) !! "latest_revenue_yoy"%string)
  /\ is_Some (fst (yoy_block revenues growth) !! "avg_revenue_yoy"%string).
Proof.
  unfold yoy_block. rewrite w_bind_fst. cbn [fst w_ret]. split.
  - rewrite lookup_insert_ne by discriminate. rewrite lookup_insert_eq.
    eexists. reflexivity.
  - rewrite lookup_insert_eq. eexists. reflexivity.
Qed.

Lemma yoy_block_metric (revenues : list Q) (growth : gmap string FVal) (o : Op) :
  In o (snd (yoy_block revenues growth)) -> op_metric o = RevenueYoY.
Proof.
  unfold yoy_block. rewrite w_bind_snd. cbn [snd w_ret]. rewrite app_nil_r.
  apply pct_change_metric.
Qed.

Lemma sort_by_length {A} (leb : A -> A -> bool) (l : list A) :
  length (sort_by leb l) = length l.
Proof. apply Permutation_length. apply sort_by_perm. Qed.

(** C7: the year-over-year figures are in the result exactly when there
    are at least 13 monthly rows, the CAGR exactly when there are at least
    12 rows and the first and last revenues are strictly positive.  Every
    operation evaluated for the CAGR is safe (no zero divisor, no negative
    base, no zero degree); with fewer than 13 rows nothing is evaluated for
    the year-over-year figures, and when the CAGR is left out the only
    operation evaluated for it is the division of the row count by 12. *)
Theorem growth_metrics_guarded (monthly_kpis : list MonthlyKpi) :
  let result := calculate_growth_metrics power monthly_kpis in
  let growth := fst result in
  let trace := snd result in
  let monthly := sort_by (fun a b => (year_month a <=? year_month b)%Z) monthly_kpis in
  let first_value := hd 0 (map revenue monthly) in
  let last_value := List.last (map revenue monthly) 0 in
  let cagr_due :=
    (12 <= length monthly_kpis)%nat /\ 0 < first_value /\ 0 < last_value in
  (is_Some (growth !! "latest_revenue_yoy"%string) <-> (13 <= length monthly_kpis)%nat)
  /\ (is_Some (growth !! "avg_revenue_yoy"%string) <-> (13 <= length monthly_kpis)%nat)
  /\ (is_Some (growth !! "revenue_cagr"%string) <-> cagr_due)
  /\ (forall o : Op, In o trace -> op_metric o = RevenueCagr -> op_unsafe o = false)
  /\ ((length monthly_kpis < 13)%nat ->
      forall o : Op, In o trace -> op_metric o <> RevenueYoY)
  /\ (~ cagr_due ->
      forall o : Op, In o trace -> op_metric o = RevenueCagr ->
        exists n : Q, o = OpDiv RevenueCagr n 12).
Proof.
  intros result growth trace monthly first_value last_value cagr_due.
  unfold growth, trace, result, calculate_growth_metrics.
  destruct (length monthly_kpis <? 2)%nat eqn:E2.
  { apply Nat.ltb_lt in E2. cbn [fst snd w_ret].
    assert (Hnone : forall k : string, is_Some ((∅ : gmap string FVal) !! k) <-> False).
    { intros k. rewrite lookup_empty. split; [intros [? H]; discriminate H | tauto]. }
    rewrite !Hnone. unfold cagr_due.
    split; [split; [tauto | lia] |]. split; [split; [tauto | lia] |].
    split; [split; [tauto | lia] |]. split; [intros o [] |].
    split; [intros _ o [] | intros _ o []]. }
  apply Nat.ltb_ge in E2.
  cbv zeta. fold monthly.
  assert (Hlen : length monthly = length monthly_kpis) by apply sort_by_length.
  rewrite Hlen.
  set (revenues := map revenue monthly) in *.
  repeat (rewrite w_bind_fst || rewrite w_bind_snd).
  set (mom := mom_block RevenueMoM "latest_revenue_mom" "avg_revenue_mom" revenues ∅).
  set (yoy := if (13 <=? length monthly_kpis)%nat then _ else w_ret (fst mom)).
  set (cagr := if (12 <=? length monthly_kpis)%nat then _ else w_ret (fst yoy)).
  assert (Hmom : forall k : string,
            k <> "latest_revenue_mom"%string -> k <> "avg_revenue_mom"%string ->
            fst mom !! k = None).
  { intros k H1 H2. unfold mom. rewrite mom_block_lookup by assumption.
    apply lookup_empty. }
  assert (Hyoy_fst :
    (forall k, k <> "latest_revenue_yoy"%string -> k <> "avg_revenue_yoy"%string ->
       fst yoy !! k = fst mom !! k)
    /\ (is_Some (fst yoy !! "latest_revenue_yoy"%string) <-> (13 <= length monthly_kpis)%nat)
    /\ (is_Some (fst yoy !! "avg_revenue_yoy"%string) <-> (13 <= length monthly_kpis)%nat)
    /\ (forall o, In o (snd yoy) -> op_metric o = RevenueYoY)
    /\ ((length monthly_kpis < 13)%nat -> snd yoy = [])).
  { unfold yoy. destruct (13 <=? length monthly_kpis)%nat eqn:E13.
    - apply Nat.leb_le in E13.
      split; [intros k H1 H2; apply yoy_block_lookup; assumption |].
      destruct (yoy_block_keys revenues (fst mom)) as [K1 K2].
      split; [tauto |]. split; [tauto |].
      split; [intros o; apply yoy_block_metric | lia].
    - apply Nat.leb_gt in E13. cbn [fst snd w_ret].
      split; [reflexivity |].
      rewrite !Hmom by discriminate.
      split; [split; [intros [? H]; discriminate H | lia] |].
      split; [split; [intros [? H]; discriminate H | lia] |].
      split; [intros o [] | reflexivity]. }
  destruct Hyoy_fst as [Hyoy_other [Hyoy1 [Hyoy2 [Hyoy_ops Hyoy_none]]]].
  assert (Hcagr :
    (forall k, k <> "revenue_cagr"%string -> fst cagr !! k = fst yoy !! k)
    /\ (is_Some (fst cagr !! "revenue_cagr"%string) <-> cagr_due)
    /\ (forall o, In o (snd cagr) -> op_metric o = RevenueCagr /\ op_unsafe o = false)
    /\ (~ cagr_due -> forall o, In o (snd cagr) -> exists n, o = OpDiv RevenueCagr n 12)).
  { assert (Hnone : fst yoy !! "revenue_cagr"%string = None).
    { rewrite Hyoy_other by discriminate. apply Hmom; discriminate. }
    unfold cagr. destruct (12 <=? length monthly_kpis)%nat eqn:E12.
    - apply Nat.leb_le in E12.
      split; [| split; [| split]].
      + intros k Hk.
        destruct (cagr_block_cases revenues (fst yoy)) as [[_ [_ ->]] | [_ ->]];
          cbn [fst]; [rewrite lookup_insert_ne by congruence |]; reflexivity.
      + destruct (cagr_block_cases revenues (fst yoy)) as [[Hf [Hl ->]] | [Hn ->]];
          cbn [fst].
        * rewrite lookup_insert_eq. unfold cagr_due, first_value, last_value.
          split; [intros _; tauto | intros _; eexists; reflexivity].
        * rewrite Hnone. unfold cagr_due, first_value, last_value.
          split; [intros [? H]; discriminate H | tauto].
      + intros o. apply cagr_block_safe.
      + intros Hnot.
        destruct (cagr_block_cases revenues (fst yoy)) as [[Hf [Hl _]] | [_ ->]].
        * exfalso. apply Hnot. unfold cagr_due, first_value, last_value. tauto.
        * cbn [snd]. intros o [<- | []]. eexists. reflexivity.
    - apply Nat.leb_gt in E12. cbn [fst snd w_ret].
      split; [reflexivity |]. split; [| split].
      + rewrite Hnone. unfold cagr_due.
        split; [intros [? H]; discriminate H | lia].
      + intros o [].
      + intros _ o []. }
  destruct Hcagr as [Hcagr_other [Hcagr_key [Hcagr_ops Hcagr_none]]].
  rewrite !mom_block_lookup by discriminate.
  rewrite !Hcagr_other by discriminate.
  split; [exact Hyoy1 |]. split; [exact Hyoy2 |]. split; [exact Hcagr_key |].
  assert (Hsplit : forall o,
    In o (snd mom ++ snd yoy ++ snd cagr
          ++ snd (mom_block OpexMoM "latest_opex_mom" "avg_opex_mom"
                    (map opex monthly) (fst cagr))) ->
    (In o (snd cagr))
    \/ (In o (snd yoy))
    \/ op_metric o = RevenueMoM \/ op_metric o = OpexMoM).
  { intros o Ho. rewrite !in_app_iff in Ho.
    destruct Ho as [Ho | [Ho | [Ho | Ho]]].
    - right; right; left. eapply mom_block_metric; eauto.
    - right; left. exact Ho.
    - left. exact Ho.
    - right; right; right. eapply mom_block_metric; eauto. }
  split; [| split].
  - intros o Ho Hm. apply Hsplit in Ho.
    destruct Ho as [Ho | [Ho | [Ho | Ho]]].
    + apply Hcagr_ops. exact Ho.
    + apply Hyoy_ops in Ho. congruence.
    + congruence.
    + congruence.
  - intros Hlt o Ho Hm. apply Hsplit in Ho.
    destruct Ho as [Ho | [Ho | [Ho | Ho]]].
    + apply Hcagr_ops in Ho. destruct Ho as [Ho _]. congruence.
    + rewrite (Hyoy_none Hlt) in Ho. destruct Ho.
    + congruence.
    + congruence.
  - intros Hnot o Ho Hm. apply Hsplit in Ho.
    destruct Ho as [Ho | [Ho | [Ho | Ho]]].
    + apply Hcagr_none; assumption.
    + apply Hyoy_ops in Ho. congruence.
    + congruence.
    + congruence.
Qed.

End GrowthProperties.

Section GrowthExamples.
Import Kpis.

Lemma growth_metrics_guarded_witness :
  let result := calculate_growth_metrics sample_power fourteen_months in
  is_Some (fst result !! "latest_revenue_yoy"%string)
  /\ ~ is_Some (fst result !! "revenue_cagr"%string)
  /\ forall o : Op, In o (snd result) -> op_metric o = RevenueCagr ->
       exists n : Q, o = OpDiv RevenueCagr n 12.
Proof.
  intros result.
  destruct (growth_metrics_guarded sample_power fourteen_months)
    as [Hyoy [_ [Hcagr [_ [_ Hout]]]]].
  assert (Hnot : ~ ((12 <= length fourteen_months)%nat
                    /\ 0 < hd 0 (map revenue
                                   (sort_by (fun a b => (year_month a <=? year_month b)%Z)
                                      fourteen_months))
                    /\ 0 < List.last (map revenue
                                        (sort_by (fun a b => (year_month a <=? year_month b)%Z)
                                           fourteen_months)) 0)).
  { intros [_ [Hf _]]. vm_compute in Hf. discriminate Hf. }
  split; [| split].
  - apply Hyoy. unfold fourteen_months. rewrite List.length_map, List.length_seq. lia.
  - intros Hs. apply Hnot. apply Hcagr. exact Hs.
  - apply Hout. exact Hnot.
Defined.

(** C7 (counterexample): the percentage changes are not guarded.  With two
    months, the first without revenue, the year-over-year figures and the
    CAGR are left out and still the computation divides 5 by 0 for the
    month-over-month change; with fourteen such months the year-over-year
    figure is emitted and divides 112 by 0 (pandas then yields [inf]). *)
Lemma growth_divides_by_zero :
  (let result := calculate_growth_metrics sample_power two_months in
   fst result !! "latest_revenue_yoy"%string = None
   /\ fst result !! "revenue_cagr"%string = None
   /\ In (OpDiv RevenueMoM 5 0) (snd result)
   /\ op_unsafe (OpDiv RevenueMoM 5 0) = true)
  /\ (let result := calculate_growth_metrics sample_power fourteen_months in
      fst result !! "avg_revenue_yoy"%string = Some PosInf
      /\ In (OpDiv RevenueYoY 112 0) (snd result)
      /\ op_unsafe (OpDiv RevenueYoY 112 0) = true).
Proof.
  split.
  - vm_compute. tauto.
  - vm_compute. tauto.
Qed.

End GrowthExamples.

(** * Further properties *)

(** ** Sums, groups and sorted lists *)

Lemma Qsum_app (l1 l2 : list Q) : Qsum (l1 ++ l2) == Qsum l1 + Qsum l2.
Proof.
  induction l1 as [| x xs IH]; simpl.
  - unfold Qsum at 2. simpl. ring.
  - rewrite !Qsum_cons, IH. ring.
Qed.

Lemma Qsum_perm (l l' : list Q) : Permutation l l' -> Qsum l == Qsum l'.
Proof.
  induction 1 as [| x l l' _ IH | x y l | l l' l'' _ IH1 _ IH2].
  - reflexivity.
  - rewrite !Qsum_cons, IH. reflexivity.
  - rewrite !Qsum_cons. ring.
  - rewrite IH1. exact IH2.
Qed.

Lemma Qsum_map_ext {A} (f g : A -> Q) (l : list A) :
  (forall x, In x l -> f x == g x) -> Qsum (map f l) == Qsum (map g l).
Proof.
  induction l as [| x xs IH]; intros H; simpl; [reflexivity |].
  rewrite !Qsum_cons.
  rewrite IH by (intros y Hy; apply H; simpl; auto).
  rewrite (H x) by (simpl; auto). reflexivity.
Qed.

Lemma Qsum_map_plus {A} (f g : A -> Q) (l : list A) :
  Qsum (map (fun x => f x + g x) l) == Qsum (map f l) + Qsum (map g l).
Proof.
  induction l as [| x xs IH]; simpl.
  - unfold Qsum. simpl. ring.
  - rewrite !Qsum_cons, IH. ring.
Qed.

Lemma Qsum_map_scale {A} (c : Q) (f : A -> Q) (l : list A) :
  Qsum (map (fun x => f x * c) l) == Qsum (map f l) * c.
Proof.
  induction l as [| x xs IH]; simpl.
  - unfold Qsum. simpl. ring.
  - rewrite !Qsum_cons, IH. ring.
Qed.

Lemma Qsum_map_zero {A} (l : list A) : Qsum (map (fun _ => 0) l) == 0.
Proof.
  induction l as [| x xs IH]; simpl; [reflexivity |].
  rewrite Qsum_cons, IH. ring.
Qed.

(** The value a cell contributes to a sum that skips missing values. *)
Lemma Qsum_skipna_map {A} (g : A -> option Q) (l : list A) :
  Qsum_skipna (map g l) == Qsum (map (fun x => default 0 (g x)) l).
Proof.
  unfold Qsum_skipna. induction l as [| x xs IH]; simpl; [reflexivity |].
  rewrite Qsum_app, IH, Qsum_cons.
  destruct (g x); simpl; unfold Qsum at 1; simpl; ring.
Qed.

Lemma distinct_from (l acc : list string) :
  List.NoDup acc ->
  List.NoDup (fold_left (fun acc k => if existsb (String.eqb k) acc then acc else acc ++ [k])
                   l acc)
  /\ forall x,
       In x (fold_left (fun acc k => if existsb (String.eqb k) acc then acc else acc ++ [k])
                       l acc)
       <-> In x acc \/ In x l.
Proof.
  revert acc. induction l as [| k ks IH]; intros acc Hnd; simpl.
  - split; [exact Hnd | tauto].
  - destruct (existsb (String.eqb k) acc) eqn:E.
    + destruct (IH acc Hnd) as [H1 H2]. split; [exact H1 |].
      intros x. rewrite H2.
      apply existsb_exists in E. destruct E as [y [Hy Hky]].
      apply String.eqb_eq in Hky. subst y. split; [tauto |].
      intros [H | [<- | H]]; tauto.
    + assert (Hnot : ~ In k acc).
      { intros Hin. assert (existsb (String.eqb k) acc = true); [| congruence].
        apply existsb_exists. exists k. split; [exact Hin | apply String.eqb_refl]. }
      destruct (IH (acc ++ [k])) as [H1 H2].
      { apply List.NoDup_app.
        - exact Hnd.
        - constructor; [intros [] | constructor].
        - intros x Hx [<- | []]. contradiction. }
      split; [exact H1 |].
      intros x. rewrite H2, in_app_iff. simpl. tauto.
Qed.

Lemma group_keys_spec (l : list string) :
  List.NoDup (group_keys l) /\ forall x, In x (group_keys l) <-> In x l.
Proof.
  unfold group_keys, distinct.
  destruct (distinct_from l [] (List.NoDup_nil _)) as [Hnd Hin].
  pose proof (sort_by_perm String.leb
                (fold_left (fun acc k => if existsb (String.eqb k) acc then acc else acc ++ [k])
                           l [])) as Hp.
  split.
  - eapply Permutation_NoDup; [symmetry; exact Hp | exact Hnd].
  - intros x. split.
    + intros H. eapply Permutation_in in H; [| exact Hp].
      apply Hin in H. simpl in H. tauto.
    + intros H. eapply Permutation_in; [symmetry; exact Hp |].
      apply Hin. tauto.
Qed.

Lemma list_sum_map_plus {A} (f g : A -> nat) (l : list A) :
  list_sum (map (fun x => (f x + g x)%nat) l)
  = (list_sum (map f l) + list_sum (map g l))%nat.
Proof. induction l as [| x xs IH]; simpl; [reflexivity | rewrite IH; lia]. Qed.

(** Exactly one key of a duplicate-free list equals a key that is in it. *)
Lemma one_key_matches (k : string) (ks : list string) :
  List.NoDup ks -> In k ks ->
  list_sum (map (fun k' => if String.eqb k k' then 1%nat else 0%nat) ks) = 1%nat.
Proof.
  induction 1 as [| k0 ks Hnot Hnd IH]; intros Hin; [destruct Hin |].
  simpl. destruct (String.eqb k k0) eqn:E.
  - apply String.eqb_eq in E. subst k0.
    assert (H0 : list_sum (map (fun k' => if String.eqb k k' then 1%nat else 0%nat) ks) = 0%nat).
    { clear IH Hin Hnd. induction ks as [| k1 ks IH]; simpl; [reflexivity |].
      destruct (String.eqb k k1) eqn:E1.
      - apply String.eqb_eq in E1. subst. exfalso. apply Hnot. simpl. tauto.
      - apply IH. intros H. apply Hnot. simpl. tauto. }
    rewrite H0. reflexivity.
  - apply String.eqb_neq in E. destruct Hin as [-> | Hin]; [contradiction |].
    rewrite IH by exact Hin. reflexivity.
Qed.

Lemma one_key_weight (k : string) (w : Q) (ks : list string) :
  List.NoDup ks -> In k ks ->
  Qsum (map (fun k' => if String.eqb k k' then w else 0) ks) == w.
Proof.
  induction 1 as [| k0 ks Hnot Hnd IH]; intros Hin; [destruct Hin |].
  simpl. rewrite Qsum_cons. destruct (String.eqb k k0) eqn:E.
  - apply String.eqb_eq in E. subst k0.
    rewrite (Qsum_map_ext _ (fun _ => 0)).
    + rewrite Qsum_map_zero. ring.
    + intros k1 Hk1. destruct (String.eqb k k1) eqn:E1; [| reflexivity].
      apply String.eqb_eq in E1. subst. contradiction.
  - apply String.eqb_neq in E. destruct Hin as [-> | Hin]; [contradiction |].
    rewrite IH by exact Hin. ring.
Qed.

(** The groups of a duplicate-free key list that holds every key partition
    the rows: the group sizes add up to the number of rows. *)
Lemma groups_count {A} (key : A -> string) (l : list A) (ks : list string) :
  List.NoDup ks -> (forall x, In x l -> In (key x) ks) ->
  list_sum (map (fun k => length (List.filter (fun x => String.eqb (key x) k) l)) ks)
  = length l.
Proof.
  intros Hnd. induction l as [| x xs IH]; intros Hall.
  - clear Hnd Hall. induction ks as [| k ks IH]; simpl; [reflexivity | exact IH].
  - rewrite (map_ext _ (fun k => ((if String.eqb (key x) k then 1 else 0)
                                  + length (List.filter (fun y => String.eqb (key y) k) xs))%nat)).
    + rewrite list_sum_map_plus.
      rewrite one_key_matches; [| exact Hnd | apply Hall; simpl; auto].
      rewrite IH; [reflexivity | intros y Hy; apply Hall; simpl; auto].
    + intros k. simpl. destruct (String.eqb (key x) k); reflexivity.
Qed.

(** ... and the group sums add up to the sum over the rows. *)
Lemma groups_sum {A} (key : A -> string) (w : A -> Q) (l : list A) (ks : list string) :
  List.NoDup ks -> (forall x, In x l -> In (key x) ks) ->
  Qsum (map (fun k => Qsum (map w (List.filter (fun x => String.eqb (key x) k) l))) ks)
  == Qsum (map w l).
Proof.
  intros Hnd. induction l as [| x xs IH]; intros Hall.
  - simpl. apply Qsum_map_zero.
  - rewrite (Qsum_map_ext _
               (fun k => (if String.eqb (key x) k then w x else 0)
                         + Qsum (map w (List.filter (fun y => String.eqb (key y) k) xs)))).
    + rewrite Qsum_map_plus.
      rewrite one_key_weight; [| exact Hnd | apply Hall; simpl; auto].
      rewrite IH by (intros y Hy; apply Hall; simpl; auto).
      simpl. rewrite Qsum_cons. reflexivity.
    + intros k _. simpl. destruct (String.eqb (key x) k); simpl.
      * rewrite Qsum_cons. reflexivity.
      * ring.
Qed.

Lemma group_by_keys {A} (key : A -> string) (l : list A) :
  map fst (group_by key l) = group_keys (map key l).
Proof. unfold group_by. rewrite map_map. simpl. apply map_id. Qed.

Lemma group_by_count {A} (key : A -> string) (l : list A) :
  list_sum (map (fun g => length (snd g)) (group_by key l)) = length l.
Proof.
  unfold group_by. rewrite map_map. simpl.
  destruct (group_keys_spec (map key l)) as [Hnd Hin].
  apply groups_count; [exact Hnd |].
  intros x Hx. apply Hin. apply in_map. exact Hx.
Qed.

Lemma group_by_sum {A} (key : A -> string) (w : A -> Q) (l : list A) :
  Qsum (map (fun g => Qsum (map w (snd g))) (group_by key l)) == Qsum (map w l).
Proof.
  unfold group_by. rewrite map_map. simpl.
  destruct (group_keys_spec (map key l)) as [Hnd Hin].
  apply groups_sum; [exact Hnd |].
  intros x Hx. apply Hin. apply in_map. exact Hx.
Qed.

(** Every group is non-empty and holds exactly the rows of its key. *)
Lemma group_by_member {A} (key : A -> string) (l : list A) (g : string * list A) :
  In g (group_by key l) ->
  snd g = List.filter (fun x => String.eqb (key x) (fst g)) l
  /\ (0 < length (snd g))%nat.
Proof.
  unfold group_by. intros Hg. apply List.in_map_iff in Hg.
  destruct Hg as [k [<- Hk]]. simpl. split; [reflexivity |].
  apply (proj2 (group_keys_spec (map key l))) in Hk.
  apply List.in_map_iff in Hk. destruct Hk as [x [Hx Hin]].
  induction l as [| y ys IH]; [destruct Hin |].
  simpl. destruct (String.eqb (key y) k) eqn:E; [simpl; lia |].
  destruct Hin as [-> | Hin].
  - rewrite Hx, String.eqb_refl in E. discriminate.
  - apply IH. exact Hin.
Qed.

Lemma filter_filter_key {A} (key : A -> string) (p : string -> bool) (k : string)
  (l : list A) :
  p k = true ->
  List.filter (fun x => String.eqb (key x) k) (List.filter (fun x => p (key x)) l)
  = List.filter (fun x => String.eqb (key x) k) l.
Proof.
  intros Hk. induction l as [| x xs IH]; simpl; [reflexivity |].
  destruct (p (key x)) eqn:Ep; simpl.
  - rewrite IH. reflexivity.
  - destruct (String.eqb_spec (key x) k) as [E | _]; [| exact IH].
    rewrite E in Ep. congruence.
Qed.

(** The groups whose key passes a test hold between them the rows whose
    key passes it. *)
Lemma group_by_sum_filter {A} (key : A -> string) (w : A -> Q) (p : string -> bool)
  (l : list A) :
  Qsum (map (fun g => Qsum (map w (snd g)))
          (List.filter (fun g => p (fst g)) (group_by key l)))
  == Qsum (map w (List.filter (fun x => p (key x)) l)).
Proof.
  unfold group_by. rewrite filter_map_comm, map_map. cbn [fst snd].
  destruct (group_keys_spec (map key l)) as [Hnd Hin].
  rewrite <- (groups_sum key w (List.filter (fun x => p (key x)) l)
                (List.filter p (group_keys (map key l)))).
  - apply Qsum_map_ext. intros k Hk. apply List.filter_In in Hk.
    rewrite filter_filter_key by tauto. reflexivity.
  - apply List.NoDup_filter. exact Hnd.
  - intros x Hx. apply List.filter_In in Hx. destruct Hx as [Hx Hp].
    apply List.filter_In. split; [| exact Hp].
    apply Hin. apply List.in_map. exact Hx.
Qed.

Lemma list_sum_perm (l l' : list nat) :
  Permutation l l' -> list_sum l = list_sum l'.
Proof. induction 1; simpl; lia. Qed.

Lemma StronglySorted_weaken {A} (P Q : A -> A -> Prop) (l : list A) :
  (forall a b, P a b -> Q a b) -> StronglySorted P l -> StronglySorted Q l.
Proof.
  intros HPQ. induction 1 as [| a l Hs IH Hall]; constructor.
  - exact IH.
  - eapply List.Forall_impl; [| exact Hall]. intros b. apply HPQ.
Qed.

Lemma Qabs_leb_total {A} (f : A -> Q) (a b : A) :
  Qle_bool (Qabs (f b)) (Qabs (f a)) = true
  \/ Qle_bool (Qabs (f a)) (Qabs (f b)) = true.
Proof.
  rewrite !Qle_bool_iff.
  destruct (Qlt_le_dec (Qabs (f a)) (Qabs (f b))) as [H | H].
  - right. apply Qlt_le_weak. exact H.
  - left. exact H.
Qed.

Lemma Qabs_leb_trans {A} (f : A -> Q) (a b c : A) :
  Qle_bool (Qabs (f b)) (Qabs (f a)) = true ->
  Qle_bool (Qabs (f c)) (Qabs (f b)) = true ->
  Qle_bool (Qabs (f c)) (Qabs (f a)) = true.
Proof. rewrite !Qle_bool_iff. intros H1 H2. eapply Qle_trans; eassumption. Qed.

Lemma group_by_nil {A} (key : A -> string) : group_by key [] = [].
Proof. reflexivity. Qed.

Lemma filter_nil_iff {A} (f : A -> bool) (l : list A) :
  List.filter f l = [] <-> forall x, In x l -> f x = false.
Proof.
  induction l as [| x xs IH]; simpl.
  - split; [intros _ y [] | reflexivity].
  - destruct (f x) eqn:E.
    + split; [discriminate |]. intros H. specialize (H x (or_introl eq_refl)). congruence.
    + rewrite IH. split.
      * intros H y [<- | Hy]; [exact E | apply H; exact Hy].
      * intros H y Hy. apply H. right. exact Hy.
Qed.

Lemma list_to_map_keys {V} (G : string -> V) (ks : list string) (k : string) :
  (list_to_map (map (fun k' => (k', G k')) ks) : gmap string V) !! k
  = if existsb (String.eqb k) ks then Some (G k) else None.
Proof.
  induction ks as [| k' ks IH]; [apply lookup_empty |].
  cbn [map existsb]. rewrite list_to_map_cons.
  destruct (String.eqb_spec k k') as [<- | Hne].
  - apply lookup_insert_eq.
  - rewrite lookup_insert_ne by congruence. exact IH.
Qed.

Lemma existsb_count (k : string) (l : list string) :
  existsb (String.eqb k) l = negb (length (List.filter (String.eqb k) l) =? 0)%nat.
Proof.
  induction l as [| x xs IH]; [reflexivity |].
  cbn [existsb List.filter]. destruct (String.eqb k x); [reflexivity | exact IH].
Qed.

(** The dictionary made from the groups of a [groupby]: a key is present
    exactly when some row carries it, with the value computed from its
    rows. *)
Lemma list_to_map_group_by {A V} (key : A -> string) (F : list A -> V)
  (l : list A) (k : string) :
  let rows_of := List.filter (fun x => String.eqb (key x) k) l in
  (list_to_map (map (fun g => (fst g, F (snd g))) (group_by key l)) : gmap string V) !! k
  = if (length rows_of =? 0)%nat then None else Some (F rows_of).
Proof.
  intros rows_of. unfold group_by. rewrite map_map. cbn [fst snd].
  rewrite (list_to_map_keys
             (fun k' => F (List.filter (fun x => String.eqb (key x) k') l))).
  destruct (group_keys_spec (map key l)) as [_ Hin].
  assert (E : existsb (String.eqb k) (group_keys (map key l))
              = negb (length rows_of =? 0)%nat).
  { destruct (length rows_of =? 0)%nat eqn:En.
    - apply Nat.eqb_eq in En. apply length_zero_iff_nil in En.
      apply not_true_is_false. intros H. apply existsb_exists in H.
      destruct H as [k' [Hk' Heq]]. apply String.eqb_eq in Heq. subst k'.
      apply Hin, List.in_map_iff in Hk'. destruct Hk' as [x [Hx Hxl]].
      assert (Hr : In x rows_of).
      { apply List.filter_In. split; [exact Hxl | apply String.eqb_eq; exact Hx]. }
      rewrite En in Hr. destruct Hr.
    - apply Nat.eqb_neq in En. apply existsb_exists. exists k.
      split; [| apply String.eqb_refl].
      apply Hin. destruct rows_of as [| x rest] eqn:Er; [simpl in En; lia |].
      assert (Hx : In x rows_of) by (rewrite Er; left; reflexivity).
      apply List.filter_In in Hx. destruct Hx as [Hxl Hx].
      apply String.eqb_eq in Hx. rewrite <- Hx. apply List.in_map. exact Hxl. }
  rewrite E. destruct (length rows_of =? 0)%nat; reflexivity.
Qed.


(** ** Normalizer: rows, flags, amounts and the mapping *)

Section NormalizerMore.
Import Frame Normalizer.

Ltac normalize_row_cases config fagl :=
  unfold normalize_row, amounts_row;
  generalize
    (String.eqb (default "positive_debit"%string (amount_sign_convention config))
                "positive_credit"),
    (has_column "due_date" fagl), (has_column "open_amount" fagl),
    (max_posting_date (rows fagl));
  intros [] [] [] current_date; unfold overdue_row, flags_row, merge_row.

Lemma normalize_row_raw config mapping fagl r :
  let r' := normalize_row config mapping fagl r in
  posting_date r' = posting_date r /\ doc_id r' = doc_id r
  /\ gl_account r' = gl_account r /\ due_date r' = due_date r.
Proof. normalize_row_cases config fagl; repeat split; reflexivity. Qed.

Lemma normalize_row_flags config mapping fagl r :
  let r' := normalize_row config mapping fagl r in
  is_receivable r' = String.eqb (type r') "Receivable"
  /\ is_payable r' = String.eqb (type r') "Payable"
  /\ is_revenue r' = String.eqb (type r') "Revenue"
  /\ is_opex r' = String.eqb (type r') "OPEX"
  /\ is_payroll r' = String.eqb (type r') "Payroll".
Proof. normalize_row_cases config fagl; repeat split; reflexivity. Qed.


Lemma normalize_row_overdue config mapping fagl r :
  let r' := normalize_row config mapping fagl r in
  let d := days_between (max_posting_date (rows fagl)) (due_date r') in
  has_column "due_date" fagl = true ->
  days_overdue r' = d
  /\ is_overdue r'
     = gt_opt d (default 0%Z (overdue_threshold_days config))
       && (if has_column "open_amount" fagl
           then notna_nonzero (open_amount r') else true).
Proof.
  normalize_row_cases config fagl; intros H; try discriminate H;
    split; try reflexivity; cbn [negb]; cbv iota;
    try (symmetry; apply andb_true_r).
Qed.

Lemma normalize_rows_in config mapping fagl (r' : Row) :
  In r' (rows (fst (normalize config mapping fagl))) ->
  exists r, In r (rows fagl) /\ r' = normalize_row config mapping fagl r.
Proof.
  rewrite normalize_fst. cbn [rows]. intros Hin.
  apply List.in_map_iff in Hin. destruct Hin as [r [<- Hr]]. eauto.
Qed.

(** X1: [normalize] neither drops, adds nor reorders rows, leaves the
    document number, account, posting date and due date of every row as
    they were, and keeps every column the input table had. *)
Theorem normalize_keeps_rows
  (config : Config) (mapping : list MappingRow) (fagl : Table) :
  let out := fst (normalize config mapping fagl) in
  length (rows out) = length (rows fagl)
  /\ map doc_id (rows out) = map doc_id (rows fagl)
  /\ map gl_account (rows out) = map gl_account (rows fagl)
  /\ map posting_date (rows out) = map posting_date (rows fagl)
  /\ map due_date (rows out) = map due_date (rows fagl)
  /\ forall c : string, has_column c fagl = true -> has_column c out = true.
Proof.
  intros out. unfold out. rewrite normalize_fst. cbn [rows columns].
  split; [apply List.length_map |].
  rewrite !map_map.
  repeat split;
    try (apply map_ext; intros r;
         destruct (normalize_row_raw config mapping fagl r) as [H1 [H2 [H3 H4]]];
         assumption).
  intros c Hc. unfold has_column in *. cbn [columns].
  rewrite !has_column_add_columns, Hc. reflexivity.
Qed.

(** X2: in the table [normalize] returns, each of the five type flags says
    exactly that the row's mapped type is the flag's label, so at most one
    flag is set on a row; a row whose account is not in the mapping table
    (type "Other") carries no flag at all. *)
Theorem normalize_type_flags
  (config : Config) (mapping : list MappingRow) (fagl : Table) (r' : Row) :
  In r' (rows (fst (normalize config mapping fagl))) ->
  (is_receivable r' = true <-> type r' = "Receivable"%string)
  /\ (is_payable r' = true <-> type r' = "Payable"%string)
  /\ (is_revenue r' = true <-> type r' = "Revenue"%string)
  /\ (is_opex r' = true <-> type r' = "OPEX"%string)
  /\ (is_payroll r' = true <-> type r' = "Payroll"%string)
  /\ (length (List.filter (fun b : bool => b)
                [is_receivable r'; is_payable r'; is_revenue r'; is_opex r';
                 is_payroll r']) <= 1)%nat
  /\ (~ In (gl_account r') (mapping_keys mapping) ->
      is_receivable r' = false /\ is_payable r' = false /\ is_revenue r' = false
      /\ is_opex r' = false /\ is_payroll r' = false).
Proof.
  intros Hin.
  destruct (normalize_mapping_join config mapping fagl r' Hin) as [_ Hother].
  apply normalize_rows_in in Hin. destruct Hin as [r [_ ->]].
  destruct (normalize_row_flags config mapping fagl r) as [F1 [F2 [F3 [F4 F5]]]].
  cbv zeta in *.
  set (r' := normalize_row config mapping fagl r) in *.
  rewrite F1, F2, F3, F4, F5.
  do 5 (split; [apply String.eqb_eq |]).
  split.
  - destruct (String.eqb_spec (type r') "Receivable") as [-> | _]; [simpl; lia |].
    destruct (String.eqb_spec (type r') "Payable") as [-> | _]; [simpl; lia |].
    destruct (String.eqb_spec (type r') "Revenue") as [-> | _]; [simpl; lia |].
    destruct (String.eqb_spec (type r') "OPEX") as [-> | _]; [simpl; lia |].
    destruct (String.eqb (type r') "Payroll"); simpl; lia.
  - intros Hnot. destruct (Hother Hnot) as [_ [-> _]]. repeat split; reflexivity.
Qed.

Lemma normalize_type_flags_witness :
  let r' := normalize_row no_config revenue_mapping ledger_without_due_date
              (raw_row 100 "D1" "400000" (Some 1000) None None) in
  In r' (rows (fst (normalize no_config revenue_mapping ledger_without_due_date)))
  /\ is_revenue r' = true /\ is_receivable r' = false.
Proof.
  intros r'.
  assert (H : In r' (rows (fst (normalize no_config revenue_mapping
                                  ledger_without_due_date)))).
  { rewrite normalize_fst. left. reflexivity. }
  split; [exact H |].
  destruct (normalize_type_flags _ _ _ _ H) as [H1 [_ [H3 _]]].
  split; [apply H3; reflexivity |].
  apply not_true_is_false. intros E. apply H1 in E.
  vm_compute in E. discriminate E.
Defined.

Lemma gt_opt_true (d : option Z) (threshold : Z) :
  gt_opt d threshold = true <-> exists x, d = Some x /\ (threshold < x)%Z.
Proof.
  destruct d as [x |]; simpl.
  - rewrite Z.ltb_lt. split.
    + intros H. exists x. tauto.
    + intros [y [Hy Hlt]]. injection Hy as <-. exact Hlt.
  - split; [discriminate | intros [y [Hy _]]; discriminate].
Qed.

Lemma notna_nonzero_true (x : option Q) :
  notna_nonzero x = true <-> exists q, x = Some q /\ ~ q == 0.
Proof.
  destruct x as [q |]; simpl.
  - rewrite negb_true_iff. split.
    + intros H. exists q. split; [reflexivity |].
      intros Hq. apply Qeq_bool_iff in Hq. congruence.
    + intros [q' [Hq' Hne]]. injection Hq' as <-.
      destruct (Qeq_bool q 0) eqn:E; [| reflexivity].
      apply Qeq_bool_iff in E. contradiction.
  - split; [discriminate | intros [q [Hq _]]; discriminate].
Qed.

(** X3: when the input has a [due_date] column, [days_overdue] of every
    row is the number of days from its due date to the latest posting
    date of the table (missing when the due date is), and a row is flagged
    [is_overdue] exactly when that number exceeds the configured threshold
    (0 by default) and, if the table has an [open_amount] column, its open
    amount is present and not zero. *)
Theorem normalize_overdue_rows
  (config : Config) (mapping : list MappingRow) (fagl : Table) (r' : Row) :
  has_column "due_date" fagl = true ->
  In r' (rows (fst (normalize config mapping fagl))) ->
  days_overdue r' = days_between (max_posting_date (rows fagl)) (due_date r')
  /\ (is_overdue r' = true <->
        (exists d, days_overdue r' = Some d
                   /\ (default 0 (overdue_threshold_days config) < d)%Z)
        /\ (has_column "open_amount" fagl = true ->
            exists q, open_amount r' = Some q /\ ~ q == 0)).
Proof.
  intros Hdue Hin.
  apply normalize_rows_in in Hin. destruct Hin as [r [_ ->]].
  destruct (normalize_row_overdue config mapping fagl r Hdue) as [Hd Ho].
  split; [exact Hd |].
  rewrite Ho, Hd, andb_true_iff, gt_opt_true.
  destruct (has_column "open_amount" fagl).
  - rewrite notna_nonzero_true. tauto.
  - split; [intros [H _]; split; [exact H | discriminate] | tauto].
Qed.

Lemma normalize_overdue_rows_witness :
  let r' := normalize_row no_config revenue_mapping ledger_with_due_dates
              (raw_row 100 "D1" "120000" (Some 500) (Some 60%Z) (Some 500)) in
  has_column "due_date" ledger_with_due_dates = true
  /\ In r' (rows (fst (normalize no_config revenue_mapping ledger_with_due_dates)))
  /\ days_overdue r' = Some 71%Z
  /\ is_overdue r' = true.
Proof.
  intros r'.
  assert (Hdue : has_column "due_date" ledger_with_due_dates = true) by reflexivity.
  assert (Hin : In r' (rows (fst (normalize no_config revenue_mapping
                                    ledger_with_due_dates)))).
  { rewrite normalize_fst. left. reflexivity. }
  destruct (normalize_overdue_rows _ _ _ _ Hdue Hin) as [Hd Ho].
  split; [exact Hdue |]. split; [exact Hin |].
  split; [rewrite Hd; reflexivity |].
  apply Ho. split.
  - exists 71%Z. split; [rewrite Hd; reflexivity | reflexivity].
  - intros _. exists 500. split; [reflexivity | discriminate].
Defined.

Lemma neg_opt_involutive (x : option Q) : neg_opt (neg_opt x) = x.
Proof.
  destruct x as [[n d] |]; [| reflexivity].
  unfold neg_opt, Qopp. cbn [Qnum Qden]. rewrite Z.opp_involutive. reflexivity.
Qed.

Lemma amounts_row_credit (config : Config) (has_open : bool) (r : Row) :
  amount_sign_convention config = Some "positive_credit"%string ->
  amounts_row config has_open r
  = set_amounts (neg_opt (amount r))
      (if has_open then neg_opt (open_amount r) else open_amount r) r.
Proof. intros H. unfold amounts_row. rewrite H. reflexivity. Qed.

(** X4: under the "positive_credit" convention [_normalize_amounts]
    negates every amount (and every open amount when that column exists),
    leaves missing amounts missing, turns the column total into its
    negative, keeps the columns, and applied a second time gives the
    original table back. *)
Theorem normalize_amounts_flips_sign (config : Config) (t : Table) :
  amount_sign_convention config = Some "positive_credit"%string ->
  let out := fst (normalize_amounts config t) in
  columns out = columns t
  /\ map amount (rows out) = map (fun r => neg_opt (amount r)) (rows t)
  /\ map open_amount (rows out)
     = map (fun r => if has_column "open_amount" t
                     then neg_opt (open_amount r) else open_amount r) (rows t)
  /\ Qsum_skipna (map amount (rows out)) == - Qsum_skipna (map amount (rows t))
  /\ fst (normalize_amounts config out) = t.
Proof.
  intros H out. unfold out. rewrite !normalize_amounts_fst. cbn [columns rows].
  split; [reflexivity |].
  assert (Ha : map amount (map (amounts_row config (has_column "open_amount" t)) (rows t))
               = map (fun r => neg_opt (amount r)) (rows t)).
  { rewrite map_map. apply map_ext. intros r.
    rewrite amounts_row_credit by exact H. reflexivity. }
  split; [exact Ha |].
  split.
  { rewrite map_map. apply map_ext. intros r.
    rewrite amounts_row_credit by exact H. reflexivity. }
  split.
  - rewrite Ha, !Qsum_skipna_map.
    rewrite (Qsum_map_ext (fun r => default 0 (neg_opt (amount r)))
               (fun r => default 0 (amount r) * (- (1)))).
    + rewrite Qsum_map_scale. ring.
    + intros r _. destruct (amount r) as [q |]; simpl; ring.
  - unfold has_column at 1. cbn [columns]. fold (has_column "open_amount" t).
    rewrite map_map. destruct t as [cols rs]. cbn [columns rows]. f_equal.
    rewrite <- (map_id rs) at 2. apply map_ext. intros r.
    rewrite !amounts_row_credit by exact H.
    destruct r; destruct (has_column "open_amount" _); unfold set_amounts;
      cbn [Frame.amount Frame.open_amount posting_date doc_id gl_account due_date
           bucket type entity_mapped is_mapped is_receivable is_payable is_revenue
           is_opex is_payroll days_overdue is_overdue aging_bucket];
      rewrite ?neg_opt_involutive; reflexivity.
Qed.

Lemma normalize_amounts_flips_sign_witness :
  amount_sign_convention credit_config = Some "positive_credit"%string
  /\ map amount (rows (fst (normalize_amounts credit_config ledger_with_due_dates)))
     = [Some (- (500)); Some (- (300)); Some (- (200))].
Proof.
  assert (H : amount_sign_convention credit_config = Some "positive_credit"%string)
    by reflexivity.
  split; [exact H |].
  destruct (normalize_amounts_flips_sign credit_config ledger_with_due_dates H)
    as [_ [Ha _]].
  rewrite Ha. reflexivity.
Defined.





(** X6: [get_unmapped_summary] raises [ValueError] before [normalize] has
    run; afterwards it returns one line per account that has unmapped
    rows, each account once, whose transaction counts add up to the number
    of unmapped rows and whose totals add up to the sum of their amounts,
    ordered by the size of the total, largest first. *)
Theorem get_unmapped_summary_accounts (t : Table) :
  let unmapped := List.filter (fun r => negb (is_mapped r)) (rows t) in
  get_unmapped_summary None
  = Raised "ValueError" "Data not normalized. Call normalize() first."
  /\ exists s : list UnmappedSummaryRow,
       get_unmapped_summary (Some t) = Returned s
       /\ List.NoDup (map us_gl_account s)
       /\ (forall k : string,
             In k (map us_gl_account s)
             <-> exists r, In r (rows t) /\ is_mapped r = false /\ gl_account r = k)
       /\ (forall a, In a s -> (0 < us_transaction_count a)%nat)
       /\ list_sum (map us_transaction_count s) = length unmapped
       /\ Qsum (map us_total_amount s) == Qsum_skipna (map amount unmapped)
       /\ StronglySorted
            (fun a b => Qabs (us_total_amount b) <= Qabs (us_total_amount a)) s.
Proof.
  intros unmapped. split; [reflexivity |].
  set (mk := fun g : string * list Row =>
               {| us_gl_account := fst g;
                  us_transaction_count := length (snd g);
                  us_total_amount := Qsum_skipna (map amount (snd g)) |}).
  set (leb := fun a b : UnmappedSummaryRow =>
                Qle_bool (Qabs (us_total_amount b)) (Qabs (us_total_amount a))).
  set (summary := map mk (group_by gl_account unmapped)).
  assert (E : get_unmapped_summary (Some t) = Returned (sort_by leb summary)).
  { unfold get_unmapped_summary. fold unmapped.
    destruct unmapped eqn:Eu; reflexivity. }
  exists (sort_by leb summary). split; [exact E |].
  pose proof (sort_by_perm leb summary) as Hperm.
  assert (Hacc : map us_gl_account summary = group_keys (map gl_account unmapped)).
  { unfold summary. rewrite map_map. cbn [mk us_gl_account].
    apply (group_by_keys gl_account unmapped). }
  destruct (group_keys_spec (map gl_account unmapped)) as [Hnd Hkeys].
  split.
  { eapply Permutation_NoDup;
      [apply Permutation_map; symmetry; exact Hperm | rewrite Hacc; exact Hnd]. }
  split.
  { intros k. split.
    - intros Hk.
      apply (Permutation_in _ (Permutation_map us_gl_account Hperm)) in Hk.
      rewrite Hacc in Hk. apply Hkeys in Hk.
      apply List.in_map_iff in Hk. destruct Hk as [r [Hr Hin]].
      apply List.filter_In in Hin. destruct Hin as [Hin Hm].
      exists r. rewrite negb_true_iff in Hm. tauto.
    - intros [r [Hin [Hm Hk]]].
      apply (Permutation_in _ (Permutation_map us_gl_account (Permutation_sym Hperm))).
      rewrite Hacc. apply Hkeys. rewrite <- Hk.
      apply List.in_map. apply List.filter_In. rewrite Hm. tauto. }
  split.
  { intros a Ha. apply (Permutation_in _ Hperm) in Ha.
    apply List.in_map_iff in Ha. destruct Ha as [g [<- Hg]].
    apply group_by_member in Hg. exact (proj2 Hg). }
  split.
  { rewrite (list_sum_perm _ _ (Permutation_map us_transaction_count Hperm)).
    unfold summary. rewrite map_map. apply (group_by_count gl_account unmapped). }
  split.
  { rewrite (Qsum_perm _ _ (Permutation_map us_total_amount Hperm)).
    unfold summary. rewrite map_map. cbn [mk us_total_amount].
    rewrite Qsum_skipna_map.
    rewrite <- (group_by_sum gl_account (fun r => default 0 (amount r)) unmapped).
    apply Qsum_map_ext. intros g _. apply Qsum_skipna_map. }
  { apply StronglySorted_weaken with (P := fun a b => leb a b = true).
    - intros a b H. apply Qle_bool_iff. exact H.
    - apply sort_by_sorted.
      + intros a b. apply (Qabs_leb_total us_total_amount).
      + intros a b c. apply (Qabs_leb_trans us_total_amount). }
Qed.

End NormalizerMore.


(** ** Aging: the default ladder, the summary and the overdue list *)

Section AgingMore.
Import Frame Aging.

Lemma assigned_label_default (d : option Z) :
  assigned_label default_aging_buckets d
  = match d with
    | None => "Unknown"%string
    | Some x =>
        if (x <? 0)%Z then "Unknown"%string
        else if (x =? 0)%Z then "Current"%string
        else if (x <=? 30)%Z then "0-30 days"%string
        else if (x <=? 60)%Z then "31-60 days"%string
        else if (x <=? 90)%Z then "61-90 days"%string
        else if (x <=? 999999)%Z then ">90 days"%string
        else "Unknown"%string
    end.
Proof.
  destruct d as [x |]; [| reflexivity].
  unfold assigned_label, default_aging_buckets, in_range.
  cbn [fold_left min_days max_days bucket_name].
  destruct (Z.ltb_spec x 0), (Z.eqb_spec x 0); try lia;
    repeat match goal with
           | |- context [(?a <=? ?b)%Z] => destruct (Z.leb_spec a b); try lia
           end; reflexivity.
Qed.

Lemma assign_aging_buckets_in (a : Analyzer) (t : Table) (r' : Row) :
  In r' (rows (fst (assign_aging_buckets a t))) ->
  aging_bucket r' = assigned_label (aging_buckets a) (days_overdue r').
Proof.
  rewrite assign_aging_buckets_rows. intros Hin.
  apply List.in_map_iff in Hin. destruct Hin as [r [<- _]]. reflexivity.
Qed.

(** X7: with the default bucket list, the label a row gets is "Current"
    exactly at 0 days overdue, "0-30 days" from 1 to 30, "31-60 days" from
    31 to 60, "61-90 days" from 61 to 90, ">90 days" from 91 to 999999, and
    "Unknown" exactly when the number of days is missing, negative (not yet
    due) or above 999999. *)
Theorem default_buckets_ladder (t items : Table) (r' : Row) :
  In r' (rows (fst (assign_aging_buckets (make_analyzer t None) items))) ->
  (aging_bucket r' = "Current"%string <-> days_overdue r' = Some 0%Z)
  /\ (aging_bucket r' = "0-30 days"%string
      <-> exists x, days_overdue r' = Some x /\ (1 <= x <= 30)%Z)
  /\ (aging_bucket r' = "31-60 days"%string
      <-> exists x, days_overdue r' = Some x /\ (31 <= x <= 60)%Z)
  /\ (aging_bucket r' = "61-90 days"%string
      <-> exists x, days_overdue r' = Some x /\ (61 <= x <= 90)%Z)
  /\ (aging_bucket r' = ">90 days"%string
      <-> exists x, days_overdue r' = Some x /\ (91 <= x <= 999999)%Z)
  /\ (aging_bucket r' = "Unknown"%string
      <-> days_overdue r' = None
          \/ exists x, days_overdue r' = Some x /\ (x < 0 \/ 999999 < x)%Z).
Proof.
  intros Hin. apply assign_aging_buckets_in in Hin.
  cbn [make_analyzer aging_buckets default] in Hin.
  rewrite Hin, assigned_label_default. clear Hin.
  destruct (days_overdue r') as [x |].
  - destruct (Z.ltb_spec x 0), (Z.eqb_spec x 0); try lia;
      repeat match goal with
             | |- context [(?a <=? ?b)%Z] => destruct (Z.leb_spec a b); try lia
             end;
      repeat split;
      try (intros E; discriminate E);
      try (intros [y [E Hy]]; injection E as <-; lia);
      try (intros E; injection E as ->; lia);
      try (intros _; exists x; split; [reflexivity | lia]);
      try (intros _; f_equal; lia);
      try (intros [E | [y [E Hy]]]; [discriminate E | injection E as <-; lia]);
      try (intros _; right; exists x; split; [reflexivity | lia]).
  - repeat split;
      try (intros E; discriminate E);
      try (intros [y [E Hy]]; discriminate E);
      try (intros _; left; reflexivity);
      try (intros _; reflexivity).
Qed.

Lemma default_buckets_ladder_witness :
  let out := fst (assign_aging_buckets (make_analyzer sample_receivables None)
                    sample_receivables) in
  let r' := set_aging_bucket "31-60 days" (aged_row 200 "R1" 500 (Some 45%Z)) in
  In r' (rows out)
  /\ (aging_bucket r' = "31-60 days"%string
      <-> exists x, days_overdue r' = Some x /\ (31 <= x <= 60)%Z).
Proof.
  intros out r'.
  assert (H : In r' (rows out)) by (left; reflexivity).
  split; [exact H |].
  exact (proj1 (proj2 (proj2
           (default_buckets_ladder sample_receivables sample_receivables r' H)))).
Defined.

Lemma order_leb_total (a b : option nat) : order_leb a b = true \/ order_leb b a = true.
Proof.
  destruct a as [i |], b as [j |]; simpl; auto.
  destruct (Nat.leb_spec i j); [left; reflexivity | right; apply Nat.leb_le; lia].
Qed.

Lemma order_leb_trans (a b c : option nat) :
  order_leb a b = true -> order_leb b c = true -> order_leb a c = true.
Proof.
  destruct a as [i |], b as [j |], c as [k |]; simpl; try congruence.
  rewrite !Nat.leb_le. lia.
Qed.

(** The summary frame before it is sorted, one row per label. *)
Lemma aging_summary_of_rows (buckets : list AgingBucket) (items : list Row) :
  let total := Qsum_skipna (map open_amount items) in
  exists total' : Q,
    total' == total
    /\ total_outstanding (snd (aging_summary_of buckets items)) = total'
    /\ Permutation (fst (aging_summary_of buckets items))
         (map (fun k =>
                 let group := List.filter (fun r => String.eqb (aging_bucket r) k) items in
                 {| as_aging_bucket := k;
                    as_outstanding_amount := Qsum_skipna (map open_amount group);
                    as_item_count := length group;
                    as_pct_of_total :=
                      if Qeq_bool total' 0 then 0
                      else (Qsum_skipna (map open_amount group) / total') * 100 |})
              (group_keys (map aging_bucket items))).
Proof.
  intros total. unfold aging_summary_of. cbn [fst snd total_outstanding].
  eexists. split; [| split; [reflexivity |]].
  - rewrite map_map. cbn [fst snd]. unfold total.
    rewrite Qsum_skipna_map.
    rewrite <- (group_by_sum aging_bucket (fun r => default 0 (open_amount r)) items).
    apply Qsum_map_ext. intros g _. apply Qsum_skipna_map.
  - rewrite sort_by_perm. unfold group_by. rewrite !map_map. cbn [fst snd].
    reflexivity.
Qed.

(** X8: the aging summary has one row per label that occurs among the
    open items, each label once; a row's amount and count are the sum of
    the open amounts and the number of the items under its label; the
    counts add up to the number of open items and the amounts to the total
    outstanding; the rows follow the order of the configured bucket list,
    labels outside the list last. *)
Theorem aging_summary_adds_up (buckets : list AgingBucket) (items : list Row) :
  let result := aging_summary_of buckets items in
  let under := fun label => List.filter (fun r => String.eqb (aging_bucket r) label) items in
  List.NoDup (map as_aging_bucket (fst result))
  /\ (forall label : string,
        In label (map as_aging_bucket (fst result))
        <-> exists r, In r items /\ aging_bucket r = label)
  /\ (forall row, In row (fst result) ->
        as_outstanding_amount row
        = Qsum_skipna (map open_amount (under (as_aging_bucket row)))
        /\ as_item_count row = length (under (as_aging_bucket row)))
  /\ list_sum (map as_item_count (fst result)) = length items
  /\ item_count (snd result) = length items
  /\ Qsum (map as_outstanding_amount (fst result))
     == Qsum_skipna (map open_amount items)
  /\ total_outstanding (snd result) == Qsum_skipna (map open_amount items)
  /\ StronglySorted
       (fun a b => order_leb (bucket_order buckets (as_aging_bucket a))
                             (bucket_order buckets (as_aging_bucket b)) = true)
       (fst result).
Proof.
  intros result under.
  destruct (aging_summary_of_rows buckets items) as [total [Htotal [Hsnd Hperm]]].
  fold result in Hsnd, Hperm. cbv zeta in Hperm.
  set (mk := fun k : string => _) in Hperm.
  destruct (group_keys_spec (map aging_bucket items)) as [Hnd Hkeys].
  assert (Hlabels : map as_aging_bucket (map mk (group_keys (map aging_bucket items)))
                    = group_keys (map aging_bucket items)).
  { rewrite map_map. apply map_id. }
  assert (Hcount : list_sum (map as_item_count (fst result)) = length items).
  { rewrite (list_sum_perm _ _ (Permutation_map as_item_count Hperm)).
    rewrite map_map. cbn [mk as_item_count].
    apply (groups_count aging_bucket items); [exact Hnd |].
    intros x Hx. apply Hkeys. apply List.in_map. exact Hx. }
  split.
  { eapply Permutation_NoDup;
      [apply Permutation_map; symmetry; exact Hperm | rewrite Hlabels; exact Hnd]. }
  split.
  { intros label. split.
    - intros Hl. apply (Permutation_in _ (Permutation_map as_aging_bucket Hperm)) in Hl.
      rewrite Hlabels in Hl. apply Hkeys in Hl.
      apply List.in_map_iff in Hl. destruct Hl as [r [Hr Hin]]. eauto.
    - intros [r [Hin Hr]].
      apply (Permutation_in _ (Permutation_map as_aging_bucket (Permutation_sym Hperm))).
      rewrite Hlabels. apply Hkeys. rewrite <- Hr. apply List.in_map. exact Hin. }
  split.
  { intros row Hrow. apply (Permutation_in _ Hperm) in Hrow.
    apply List.in_map_iff in Hrow. destruct Hrow as [k [<- _]].
    split; reflexivity. }
  split; [exact Hcount |].
  split; [exact Hcount |].
  split.
  { rewrite (Qsum_perm _ _ (Permutation_map as_outstanding_amount Hperm)).
    rewrite map_map. cbn [mk as_outstanding_amount].
    rewrite Qsum_skipna_map.
    rewrite <- (groups_sum aging_bucket (fun r => default 0 (open_amount r)) items
                  (group_keys (map aging_bucket items))).
    - apply Qsum_map_ext. intros k _. apply Qsum_skipna_map.
    - exact Hnd.
    - intros x Hx. apply Hkeys. apply List.in_map. exact Hx. }
  split; [rewrite Hsnd; exact Htotal |].
  unfold result, aging_summary_of. cbn [fst].
  apply (sort_by_sorted
           (fun a b => order_leb (bucket_order buckets (as_aging_bucket a))
                                 (bucket_order buckets (as_aging_bucket b)))).
  - intros a b. apply order_leb_total.
  - intros a b c. apply order_leb_trans.
Qed.

(** X9: the overdue amount of the aging summary is the sum of the open
    amounts of all items whose label does not contain "Current", so items
    labelled "Unknown" count as overdue.  When the total outstanding is
    zero, every percentage of the summary and the overdue percentage are
    0; otherwise the percentages of the rows add up to 100 and the overdue
    percentage is the overdue amount over the total, times 100. *)
Theorem aging_summary_percentages (buckets : list AgingBucket) (items : list Row) :
  let result := aging_summary_of buckets items in
  let total := total_outstanding (snd result) in
  let late := fun label : string => negb (contains "Current" label) in
  late "Unknown"%string = true
  /\ exists overdue pct : Q,
       overdue_amount (snd result) = Some overdue
       /\ overdue_pct (snd result) = Some pct
       /\ overdue
          == Qsum_skipna (map open_amount
                            (List.filter (fun r => late (aging_bucket r)) items))
       /\ (total == 0 ->
           Forall (fun row => as_pct_of_total row = 0) (fst result) /\ pct = 0)
       /\ (~ total == 0 ->
           Qsum (map as_pct_of_total (fst result)) == 100
           /\ pct == overdue / total * 100).
Proof.
  intros result total late. split; [reflexivity |].
  unfold result, total, aging_summary_of.
  cbn [fst snd total_outstanding overdue_amount overdue_pct].
  set (grouped := map _ (group_by aging_bucket items)).
  set (tot := Qsum (map (fun g => snd (fst g)) grouped)).
  set (with_pct := map _ grouped).
  set (leb := fun a b : AgingSummaryRow => _).
  pose proof (sort_by_perm leb with_pct) as Hperm.
  eexists. eexists. split; [reflexivity |]. split; [reflexivity |].
  split.
  { rewrite (Qsum_perm _ _ (Permutation_map as_outstanding_amount
                              (filter_perm _ _ _ Hperm))).
    unfold with_pct, grouped. rewrite !filter_map_comm, !map_map.
    cbn [as_aging_bucket as_outstanding_amount fst snd].
    rewrite Qsum_skipna_map.
    rewrite <- (group_by_sum_filter aging_bucket (fun r => default 0 (open_amount r))
                  late items).
    apply Qsum_map_ext. intros g _. apply Qsum_skipna_map. }
  split.
  - intros Hz. change (tot == 0) in Hz. apply Qeq_bool_iff in Hz. rewrite Hz. split; [| reflexivity].
    eapply Permutation_Forall; [symmetry; exact Hperm |].
    unfold with_pct. apply List.Forall_forall. intros row Hrow.
    apply List.in_map_iff in Hrow. destruct Hrow as [g [<- _]].
    cbn [as_pct_of_total]. rewrite Hz. reflexivity.
  - intros Hnz. change (~ tot == 0) in Hnz.
    assert (Eb : Qeq_bool tot 0 = false).
    { destruct (Qeq_bool tot 0) eqn:E; [| reflexivity].
      apply Qeq_bool_iff in E. contradiction. }
    rewrite Eb. split; [| reflexivity].
    rewrite (Qsum_perm _ _ (Permutation_map as_pct_of_total Hperm)).
    unfold with_pct. rewrite map_map. cbn [as_pct_of_total]. rewrite Eb.
    rewrite (Qsum_map_ext (fun g : string * Q * nat => snd (fst g) / tot * 100)
               (fun g => snd (fst g) * (100 / tot))).
    + rewrite Qsum_map_scale. fold tot. field. exact Hnz.
    + intros g _. field. exact Hnz.
Qed.



Lemma days_desc_leb_total (a b : Row) :
  days_desc_leb a b = true \/ days_desc_leb b a = true.
Proof.
  unfold days_desc_leb. destruct (days_overdue a) as [x |], (days_overdue b) as [y |]; auto.
  destruct (Z.leb_spec y x); [left; reflexivity | right; apply Z.leb_le; lia].
Qed.

Lemma days_desc_leb_trans (a b c : Row) :
  days_desc_leb a b = true -> days_desc_leb b c = true -> days_desc_leb a c = true.
Proof.
  unfold days_desc_leb.
  destruct (days_overdue a) as [x |], (days_overdue b) as [y |],
    (days_overdue c) as [z |]; try congruence.
  rewrite !Z.leb_le. lia.
Qed.

(** X11: [_get_overdue_items] returns exactly the rows flagged
    [is_overdue], each as often as in the table; its columns are those of
    the nine report columns that the table has; when the table has a
    [days_overdue] column the rows come latest first, rows without a
    number of days last, and otherwise in table order; with no overdue
    row the frame is empty. *)
Theorem get_overdue_items_latest_first (a : Analyzer) :
  let out := get_overdue_items a in
  let overdue := List.filter is_overdue (rows (df a)) in
  Permutation (rows out) overdue
  /\ (forall c : string,
        In c (columns out) ->
        has_column c (df a) = true
        /\ In c ["posting_date"; "doc_id"; "gl_account"; "bucket"; "type";
                 "customer_vendor"; "due_date"; "days_overdue";
                 "open_amount"]%string)
  /\ (has_column "days_overdue" (df a) = true ->
      StronglySorted (fun x y => days_desc_leb x y = true) (rows out))
  /\ (has_column "days_overdue" (df a) = false -> rows out = overdue)
  /\ (overdue = [] -> out = {| columns := []; rows := [] |}).
Proof.
  intros out overdue. unfold out, get_overdue_items. fold overdue.
  destruct overdue as [| r0 rest] eqn:Eo.
  - cbn [rows columns]. split; [constructor |].
    split; [intros c [] |]. split; [intros _; constructor |].
    split; reflexivity.
  - rewrite <- Eo. cbn [rows columns].
    set (cols := ["posting_date"; "doc_id"; "gl_account"; "bucket"; "type";
                  "customer_vendor"; "due_date"; "days_overdue";
                  "open_amount"]%string).
    assert (Hd : existsb (String.eqb "days_overdue")
                   (List.filter (fun c => has_column c (df a)) cols)
                 = has_column "days_overdue" (df a)).
    { destruct (has_column "days_overdue" (df a)) eqn:E.
      - apply existsb_exists. exists "days_overdue"%string.
        split; [| reflexivity].
        apply List.filter_In. split; [| exact E]. unfold cols. simpl. tauto.
      - apply not_true_is_false. intros H. apply existsb_exists in H.
        destruct H as [c [Hc Heq]]. apply String.eqb_eq in Heq. subst c.
        apply List.filter_In in Hc. destruct Hc as [_ Hc]. congruence. }
    rewrite Hd.
    split.
    { destruct (has_column "days_overdue" (df a)); [apply sort_by_perm | reflexivity]. }
    split.
    { intros c Hc. apply List.filter_In in Hc. tauto. }
    split.
    { intros H. rewrite H. apply sort_by_sorted.
      - apply days_desc_leb_total.
      - apply days_desc_leb_trans. }
    split.
    { intros H. rewrite H. reflexivity. }
    { rewrite Eo. intros H. discriminate H. }
Qed.



End AgingMore.


(** ** Anomalies: what the detectors can and cannot flag *)

Section AnomalyMore.
Import Anomalies.

Lemma Qsum_map_const {A} (c : Q) (l : list A) :
  Qsum (map (fun _ => c) l) == inject_Z (Z.of_nat (length l)) * c.
Proof.
  induction l as [| x xs IH].
  - change (0 == 0 * c). ring.
  - cbn [map length]. rewrite Qsum_cons, IH, inject_nat_S. ring.
Qed.

Lemma square_nonneg (q : Q) : 0 <= q * q.
Proof.
  unfold Qle, Qmult. cbn [Qnum Qden]. rewrite Z.mul_1_r. apply Z.square_nonneg.
Qed.

(** [n a^2 - 2 a s + t] is the sum of the squares [(a - x)^2]. *)
Lemma sum_squares_shift (l : list Q) (a : Q) :
  0 <= inject_Z (Z.of_nat (length l)) * (a * a) - 2 * a * Qsum l
       + Qsum (map (fun x => x * x) l).
Proof.
  induction l as [| x xs IH].
  - change (0 <= 0 * (a * a) - 2 * a * 0 + 0). lra.
  - cbn [map length]. rewrite !Qsum_cons, inject_nat_S.
    pose proof (square_nonneg (a - x)) as Hsq.
    set (n := inject_Z (Z.of_nat (length xs))) in *.
    set (s := Qsum xs) in *. set (t := Qsum (map (fun x => x * x) xs)) in *.
    nra.
Qed.

(** The square of a sum is at most the number of terms times the sum of
    the squares. *)
Lemma square_of_sum (l : list Q) :
  Qsum l * Qsum l <= inject_Z (Z.of_nat (length l)) * Qsum (map (fun x => x * x) l).
Proof.
  induction l as [| x xs IH].
  - change (0 * 0 <= 0 * 0). lra.
  - cbn [map length]. rewrite !Qsum_cons, inject_nat_S.
    pose proof (sum_squares_shift xs x) as Hx.
    set (n := inject_Z (Z.of_nat (length xs))) in *.
    set (s := Qsum xs) in *. set (t := Qsum (map (fun x => x * x) xs)) in *.
    nra.
Qed.

Lemma Qsum_map_nonneg {A} (f : A -> Q) (l : list A) :
  (forall x, 0 <= f x) -> 0 <= Qsum (map f l).
Proof.
  intros Hf. induction l as [| x xs IH].
  - change (0 <= 0). lra.
  - cbn [map]. rewrite Qsum_cons. specialize (Hf x). lra.
Qed.

(** No value lies further from the mean than the others allow: with [n]
    values, [n (x - mean)^2 <= (n - 1) * sum of the squared deviations]. *)
Lemma deviation_bound (l1 l2 : list Q) (x : Q) :
  let l := l1 ++ x :: l2 in
  let n := inject_Z (Z.of_nat (length l)) in
  let mean := Qmean l in
  n * ((x - mean) * (x - mean))
  <= (n - 1) * Qsum (map (fun y => (y - mean) * (y - mean)) l).
Proof.
  intros l n mean.
  assert (Hn : n == inject_Z (Z.of_nat (length (l1 ++ l2))) + 1).
  { unfold n, l. rewrite !length_app. cbn [length].
    rewrite Nat.add_succ_r, inject_nat_S. reflexivity. }
  assert (Hpos : 0 <= inject_Z (Z.of_nat (length (l1 ++ l2)))).
  { change 0 with (inject_Z 0). rewrite <- Zle_Qle. lia. }
  set (m := inject_Z (Z.of_nat (length (l1 ++ l2)))) in *.
  assert (Hmean : mean * n == Qsum l).
  { unfold mean, Qmean. fold n. field. lra. }
  assert (Hl : Qsum l == Qsum (l1 ++ l2) + x).
  { unfold l. rewrite !Qsum_app, Qsum_cons. ring. }
  assert (Hsq : Qsum (map (fun y => (y - mean) * (y - mean)) l)
                == Qsum (map (fun y => (y - mean) * (y - mean)) (l1 ++ l2))
                   + (x - mean) * (x - mean)).
  { unfold l. rewrite !map_app, !Qsum_app. cbn [map]. rewrite Qsum_cons. ring. }
  pose proof (square_of_sum (map (fun y => y - mean) (l1 ++ l2))) as Hcs.
  rewrite List.length_map, map_map in Hcs. fold m in Hcs.
  assert (Hd : Qsum (map (fun y => y - mean) (l1 ++ l2)) == mean - x).
  { rewrite (Qsum_map_ext (fun y => y - mean) (fun y => y + - mean))
      by (intros y _; ring).
    rewrite (Qsum_map_plus (fun y => y) (fun _ => - mean)), map_id, Qsum_map_const.
    fold m. nra. }
  rewrite Hd in Hcs. rewrite Hsq.
  set (t := Qsum (map (fun y => (y - mean) * (y - mean)) (l1 ++ l2))) in *.
  nra.
Qed.

(** A row that passes the z-score test at a non-negative bound [c] in a
    series of [n] rows forces [c^2 n < (n - 1)^2]. *)
Lemma zscore_test_bound (data : list MonthlyRow) (row : MonthlyRow) (c : Q) :
  let amounts := map m_amount data in
  let n := inject_Z (Z.of_nat (length data)) in
  (2 <= length data)%nat -> In row data -> 0 <= c ->
  score_gt (mkScore (m_amount row - Qmean amounts) (sample_var amounts)) c = true ->
  c * c * n < (n - 1) * (n - 1).
Proof.
  intros amounts n Hlen Hin Hc Hgt.
  unfold score_gt in Hgt. cbn [score_num score_rad] in Hgt.
  assert (Hneg : Qlt_bool c 0 = false).
  { apply Qlt_bool_false. exact Hc. }
  rewrite Hneg in Hgt. apply Qlt_bool_iff in Hgt.
  apply List.in_split in Hin. destruct Hin as [l1 [l2 Hdata]].
  assert (Hamounts : amounts = map m_amount l1 ++ m_amount row :: map m_amount l2).
  { unfold amounts. rewrite Hdata, map_app. reflexivity. }
  pose proof (deviation_bound (map m_amount l1) (map m_amount l2) (m_amount row)) as Hb.
  cbv zeta in Hb. rewrite <- Hamounts in Hb.
  assert (Hlen' : length amounts = length data) by apply List.length_map.
  rewrite Hlen' in Hb. fold n in Hb.
  assert (Hn1 : inject_Z (Z.of_nat (length data - 1)) == n - 1).
  { unfold n. replace (length data) with (S (length data - 1)) at 2 by lia.
    rewrite inject_nat_S. ring. }
  assert (Hn : 2 <= n).
  { unfold n. change 2 with (inject_Z 2). rewrite <- Zle_Qle. lia. }
  unfold sample_var in Hgt. rewrite Hlen', Hn1 in Hgt.
  pose proof (Qsum_map_nonneg
                (fun x => (x - Qmean amounts) * (x - Qmean amounts)) amounts
                (fun x => square_nonneg (x - Qmean amounts))) as Hs.
  set (S := Qsum (map (fun x => (x - Qmean amounts) * (x - Qmean amounts)) amounts)) in *.
  set (dx := m_amount row - Qmean amounts) in *.
  assert (Hvar : c * c * (S / (n - 1)) * (n - 1) == c * c * S) by (field; lra).
  assert (Hcc : 0 <= c * c) by apply square_nonneg.
  assert (H1 : c * c * S < dx * dx * (n - 1)).
  { rewrite <- Hvar. apply Qmult_lt_compat_r; [lra | exact Hgt]. }
  assert (HS : 0 < S).
  { destruct (Qlt_le_dec 0 S) as [H | H]; [exact H |].
    assert (S == 0) by lra.
    assert (Hz : n * (dx * dx) <= 0) by (rewrite H0 in Hb; lra).
    assert (Hd : 0 <= dx * dx) by apply square_nonneg.
    assert (dx * dx == 0) by nra.
    rewrite H0, H2 in H1. lra. }
  assert (H2 : c * c * S * n < (n - 1) * (n - 1) * S) by nra.
  assert (H3 : c * c * n * S < (n - 1) * (n - 1) * S) by lra.
  apply Qmult_lt_r in H3; assumption.
Qed.

Lemma zscore_bucket_in (d : Detector) (data : list MonthlyRow) (a : Anomaly) :
  In a (zscore_bucket d data) ->
  let amounts := map m_amount data in
  let zscore := fun row => mkScore (m_amount row - Qmean amounts) (sample_var amounts) in
  (6 <= length data)%nat
  /\ exists row, In row data
       /\ score_gt (zscore row) (zscore_threshold d) = true
       /\ a = make_anomaly row (Qmean amounts) (determine_severity (zscore row) Zscore)
                Zscore.
Proof.
  unfold zscore_bucket. intros Ha.
  destruct (Nat.ltb_spec (length data) 6) as [Hlt | Hge]; [destruct Ha |].
  destruct (Qeq_bool (sample_var (map m_amount data)) 0); [destruct Ha |].
  apply List.in_map_iff in Ha. destruct Ha as [row [<- Hrow]].
  apply List.filter_In in Hrow. destruct Hrow as [Hin Hgt].
  split; [exact Hge |]. exists row. repeat split; assumption.
Qed.

Lemma bucket_data_in (monthly : list MonthlyRow) (b : string) (row : MonthlyRow) :
  In row (bucket_data monthly b) -> In row monthly /\ m_bucket row = b.
Proof.
  unfold bucket_data. intros H. apply List.filter_In in H.
  destruct H as [Hin Hb]. apply String.eqb_eq in Hb. tauto.
Qed.

Lemma rows_for_bound (c : Q) (k n : nat) :
  (forall i, (6 <= i < k)%nat ->
     Qle_bool ((inject_Z (Z.of_nat i) - 1) * (inject_Z (Z.of_nat i) - 1))
              (c * inject_Z (Z.of_nat i)) = true) ->
  c * inject_Z (Z.of_nat n) < (inject_Z (Z.of_nat n) - 1) * (inject_Z (Z.of_nat n) - 1) ->
  (6 <= n)%nat -> (k <= n)%nat.
Proof.
  intros Hsmall Hn H6. destruct (Nat.le_gt_cases k n) as [H | H]; [exact H |].
  specialize (Hsmall n (conj H6 H)). apply Qle_bool_iff in Hsmall. lra.
Qed.

(** X12: the z-score detector cannot flag a month of a short series.  A
    flag at a threshold [t >= 0] in a bucket with [n] monthly rows needs
    [t^2 n < (n - 1)^2], because no value lies more than
    [(n - 1) / sqrt n] sample standard deviations from the mean.  So a
    threshold of 3 or more flags nothing in a bucket with fewer than 11
    rows, a severity above "low" needs at least 15 rows and "high" at
    least 18. *)
Theorem zscore_flags_need_history
  (d : Detector) (monthly : list MonthlyRow) (a : Anomaly) :
  0 <= zscore_threshold d ->
  In a (detect_zscore_anomalies d monthly) ->
  let n := length (bucket_data monthly (bucket a)) in
  let t := zscore_threshold d in
  (6 <= n)%nat
  /\ t * t * inject_Z (Z.of_nat n)
     < (inject_Z (Z.of_nat n) - 1) * (inject_Z (Z.of_nat n) - 1)
  /\ (3 <= t -> (11 <= n)%nat)
  /\ (severity a <> Low -> (15 <= n)%nat)
  /\ (severity a = High -> (18 <= n)%nat).
Proof.
  intros Ht Ha n t.
  unfold detect_zscore_anomalies in Ha. apply in_flat_map in Ha.
  destruct Ha as [b [_ Ha]].
  apply zscore_bucket_in in Ha. cbv zeta in Ha.
  destruct Ha as [Hlen [row [Hrow [Hgt Ea]]]].
  assert (Hb : bucket a = b).
  { rewrite Ea. cbn [bucket make_anomaly]. exact (proj2 (bucket_data_in _ _ _ Hrow)). }
  unfold n. rewrite Hb. clear n.
  set (data := bucket_data monthly b) in *.
  set (n := inject_Z (Z.of_nat (length data))).
  assert (Hn : 0 <= n).
  { unfold n. change 0 with (inject_Z 0). rewrite <- Zle_Qle. lia. }
  pose proof (fun c Hc H => zscore_test_bound data row c ltac:(lia) Hrow Hc H) as Hbound.
  cbv zeta in Hbound. fold n in Hbound.
  assert (Hflag : t * t * n < (n - 1) * (n - 1)) by (apply Hbound; assumption).
  split; [exact Hlen |]. split; [exact Hflag |].
  assert (Hmedium : score_gt
                      (mkScore (m_amount row - Qmean (map m_amount data))
                         (sample_var (map m_amount data))) (35 # 10) = true ->
                    (15 <= length data)%nat).
  { intros H. apply Hbound in H; [| lra].
    apply (rows_for_bound ((35 # 10) * (35 # 10)) 15); [| exact H | exact Hlen].
    intros i Hi. do 6 (destruct i as [| i]; [lia |]).
    do 9 (destruct i as [| i]; [reflexivity |]). lia. }
  assert (Hhigh : score_gt
                    (mkScore (m_amount row - Qmean (map m_amount data))
                       (sample_var (map m_amount data))) 4 = true ->
                  (18 <= length data)%nat).
  { intros H. apply Hbound in H; [| lra].
    apply (rows_for_bound (4 * 4) 18); [| exact H | exact Hlen].
    intros i Hi. do 6 (destruct i as [| i]; [lia |]).
    do 12 (destruct i as [| i]; [reflexivity |]). lia. }
  split.
  { intros H3.
    apply (rows_for_bound (3 * 3) 11); [| | exact Hlen].
    - intros i Hi. do 6 (destruct i as [| i]; [lia |]).
      do 5 (destruct i as [| i]; [reflexivity |]). lia.
    - fold n. assert (3 * 3 <= t * t) by nra. nra. }
  rewrite Ea. cbn [severity make_anomaly determine_severity].
  split.
  - destruct (score_gt _ 4) eqn:E4.
    + intros _. specialize (Hhigh eq_refl). lia.
    + destruct (score_gt _ (35 # 10)) eqn:E35.
      * intros _. apply Hmedium. reflexivity.
      * intros H. contradiction H. reflexivity.
  - destruct (score_gt _ 4) eqn:E4.
    + intros _. apply Hhigh. reflexivity.
    + destruct (score_gt _ (35 # 10)); intros H; discriminate H.
Qed.

Lemma zscore_flags_need_history_witness :
  let series := spike_series 100 1000 5 in
  let a := make_anomaly (spike_row 100 1000 5 5) (Qmean (map m_amount series))
             Low Zscore in
  0 <= zscore_threshold default_detector
  /\ In a (detect_zscore_anomalies default_detector series)
  /\ (11 <= length (bucket_data series (bucket a)))%nat.
Proof.
  intros series a.
  assert (Ht : 0 <= zscore_threshold default_detector) by (vm_compute; discriminate).
  assert (Ha : In a (detect_zscore_anomalies default_detector series)).
  { unfold series. rewrite spike_detect_zscore; [left; reflexivity | reflexivity | lia]. }
  split; [exact Ht |]. split; [exact Ha |].
  destruct (zscore_flags_need_history default_detector series a Ht Ha)
    as [_ [_ [H11 _]]].
  apply H11. vm_compute. discriminate.
Defined.

Lemma Qsum_all_equal (l : list Q) (c : Q) :
  (forall x, In x l -> x == c) -> Qsum l == inject_Z (Z.of_nat (length l)) * c.
Proof.
  intros H. rewrite <- (Qsum_map_const c l). rewrite <- (map_id l) at 1.
  apply Qsum_map_ext. exact H.
Qed.

Lemma Qmean_all_equal (l : list Q) (c : Q) :
  (0 < length l)%nat -> (forall x, In x l -> x == c) -> Qmean l == c.
Proof.
  intros Hlen H. unfold Qmean. rewrite (Qsum_all_equal l c H).
  assert (Hn : 0 < inject_Z (Z.of_nat (length l))).
  { change 0 with (inject_Z 0). rewrite <- Zlt_Qlt. lia. }
  field. lra.
Qed.

Lemma sample_var_all_equal (l : list Q) (c : Q) :
  (2 <= length l)%nat -> (forall x, In x l -> x == c) -> sample_var l == 0.
Proof.
  intros Hlen H. unfold sample_var.
  pose proof (Qmean_all_equal l c ltac:(lia) H) as Hmean.
  rewrite (Qsum_map_ext _ (fun _ => 0)).
  - rewrite Qsum_map_zero.
    assert (Hn : 0 < inject_Z (Z.of_nat (length l - 1))).
    { change 0 with (inject_Z 0). rewrite <- Zlt_Qlt. lia. }
    field. lra.
  - intros x Hx. rewrite (H x Hx), Hmean. ring.
Qed.

Lemma median_all_equal (l : list Q) (c : Q) :
  (0 < length l)%nat -> (forall x, In x l -> x == c) -> median l == c.
Proof.
  intros Hlen H. unfold median.
  assert (Hnth : forall i, (i < length l)%nat -> nth i (sort_by Qle_bool l) 0 == c).
  { intros i Hi. apply H. apply (Permutation_in _ (sort_by_perm Qle_bool l)).
    apply nth_In. rewrite sort_by_length. exact Hi. }
  rewrite sort_by_length.
  assert (Hhalf : (length l / 2 < length l)%nat) by (apply Nat.div_lt; lia).
  destruct (Nat.even (length l)).
  - rewrite !Hnth by lia. field.
  - apply Hnth. exact Hhalf.
Qed.

Lemma constant_bucket_not_flagged (d : Detector) (data : list MonthlyRow) :
  (forall r r', In r data -> In r' data -> m_amount r == m_amount r') ->
  zscore_bucket d data = [] /\ mad_bucket d data = [].
Proof.
  intros Hconst. unfold zscore_bucket, mad_bucket.
  destruct (Nat.ltb_spec (length data) 6) as [Hlt | Hge]; [split; reflexivity |].
  destruct data as [| r0 rest] eqn:Ed; [simpl in Hge; lia |]. rewrite <- Ed in *.
  assert (Hr0 : In r0 data) by (rewrite Ed; left; reflexivity).
  assert (Hall : forall x, In x (map m_amount data) -> x == m_amount r0).
  { intros x Hx. apply List.in_map_iff in Hx. destruct Hx as [r [<- Hr]].
    apply Hconst; assumption. }
  assert (Hlen : length (map m_amount data) = length data) by apply List.length_map.
  split.
  - assert (Hv : sample_var (map m_amount data) == 0).
    { apply (sample_var_all_equal _ (m_amount r0)); [lia | exact Hall]. }
    apply Qeq_bool_iff in Hv. rewrite Hv. reflexivity.
  - assert (Hmed : median (map m_amount data) == m_amount r0).
    { apply median_all_equal; [lia | exact Hall]. }
    assert (Hmad : median (map (fun x => Qabs (x - median (map m_amount data)))
                             (map m_amount data)) == 0).
    { apply median_all_equal; [rewrite List.length_map; lia |].
      intros y Hy. apply List.in_map_iff in Hy. destruct Hy as [x [<- Hx]].
      rewrite (Hall x Hx), Hmed.
      setoid_replace (m_amount r0 - m_amount r0) with 0 using relation Qeq by ring.
      reflexivity. }
    apply Qeq_bool_iff in Hmad. rewrite Hmad. reflexivity.
Qed.

Lemma flat_map_nil {A B} (f : A -> list B) (l : list A) :
  (forall x, In x l -> f x = []) -> flat_map f l = [].
Proof.
  intros H. induction l as [| x xs IH]; [reflexivity |].
  cbn [flat_map]. rewrite H by (left; reflexivity).
  apply IH. intros y Hy. apply H. right. exact Hy.
Qed.

(** X13: when the monthly sums of every bucket are all equal, neither the
    z-score detector nor the MAD detector reports anything, however many
    months there are: the standard deviation and the MAD are zero and the
    bucket is skipped. *)
Theorem constant_buckets_not_flagged (d : Detector) (monthly : list MonthlyRow) :
  (forall r r' : MonthlyRow,
     In r monthly -> In r' monthly -> m_bucket r = m_bucket r' ->
     m_amount r == m_amount r') ->
  detect_zscore_anomalies d monthly = [] /\ detect_mad_anomalies d monthly = [].
Proof.
  intros Hconst.
  assert (Hb : forall b, zscore_bucket d (bucket_data monthly b) = []
                         /\ mad_bucket d (bucket_data monthly b) = []).
  { intros b. apply constant_bucket_not_flagged. intros r r' Hr Hr'.
    apply bucket_data_in in Hr, Hr'.
    apply Hconst; try tauto. destruct Hr as [_ ->], Hr' as [_ ->]. reflexivity. }
  unfold detect_zscore_anomalies, detect_mad_anomalies.
  split; apply flat_map_nil; intros b _; apply Hb.
Qed.

Lemma constant_buckets_not_flagged_witness :
  let monthly := spike_series 250 0 3 in
  (forall r r' : MonthlyRow,
     In r monthly -> In r' monthly -> m_bucket r = m_bucket r' ->
     m_amount r == m_amount r')
  /\ detect_zscore_anomalies default_detector monthly = []
  /\ detect_mad_anomalies default_detector monthly = [].
Proof.
  intros monthly.
  assert (Hall : forall r, In r monthly -> m_amount r == 250).
  { intros r Hr. apply List.in_map_iff in Hr. destruct Hr as [i [<- _]].
    cbn [m_amount spike_row]. destruct (i =? 3)%nat; [ring | reflexivity]. }
  assert (H : forall r r' : MonthlyRow,
            In r monthly -> In r' monthly -> m_bucket r = m_bucket r' ->
            m_amount r == m_amount r').
  { intros r r' Hr Hr' _. rewrite (Hall r Hr), (Hall r' Hr'). reflexivity. }
  split; [exact H |].
  exact (constant_buckets_not_flagged default_detector monthly H).
Defined.

Lemma sort_by_sorted_id {A} (leb : A -> A -> bool) (l : list A) :
  StronglySorted (fun a b => leb a b = true) l -> sort_by leb l = l.
Proof.
  induction 1 as [| x xs Hs IH Hall]; [reflexivity |].
  cbn [sort_by]. rewrite IH.
  destruct xs as [| y ys]; [reflexivity |].
  cbn [sort_insert]. rewrite (Forall_inv Hall). reflexivity.
Qed.

Lemma dedup_first_keys (seen : gset (string * string)) (l : list Anomaly) :
  List.NoDup (map anomaly_key (dedup_first seen l))
  /\ forall a, In a (dedup_first seen l) -> anomaly_key a ∉ seen.
Proof.
  revert seen. induction l as [| x xs IH]; intros seen.
  - split; [constructor | intros a []].
  - cbn [dedup_first].
    destruct (bool_decide_reflect (anomaly_key x ∈ seen)) as [Hin | Hnot].
    + apply IH.
    + destruct (IH ({[anomaly_key x]} ∪ seen)) as [Hnd Hout].
      split.
      * cbn [map]. constructor; [| exact Hnd].
        intros Hk. apply List.in_map_iff in Hk. destruct Hk as [a [Ea Ha]].
        apply (Hout a Ha). rewrite Ea.
        apply elem_of_union. left. apply elem_of_singleton. reflexivity.
      * intros a [<- | Ha]; [exact Hnot |].
        intros Hk. apply (Hout a Ha). apply elem_of_union. right. exact Hk.
Qed.

Lemma dedup_first_keeps_keys (seen : gset (string * string)) (l : list Anomaly)
  (k : string * string) :
  In k (map anomaly_key l) -> k ∉ seen -> In k (map anomaly_key (dedup_first seen l)).
Proof.
  revert seen. induction l as [| x xs IH]; intros seen Hk Hnot; [destruct Hk |].
  cbn [dedup_first]. cbn [map] in Hk.
  destruct (bool_decide_reflect (anomaly_key x ∈ seen)) as [Hin | Hout].
  - destruct Hk as [Hk | Hk]; [rewrite Hk in Hin; contradiction |].
    apply IH; assumption.
  - cbn [map]. destruct (decide (anomaly_key x = k)) as [E | Hne]; [left; exact E |].
    right. apply IH.
    + destruct Hk as [Hk | Hk]; [contradiction | exact Hk].
    + intros H. apply elem_of_union in H. destruct H as [H | H]; [| contradiction].
      apply elem_of_singleton in H. congruence.
Qed.

Lemma dedup_first_sorted (R : Anomaly -> Anomaly -> Prop)
  (seen : gset (string * string)) (l : list Anomaly) :
  StronglySorted R l -> StronglySorted R (dedup_first seen l).
Proof.
  intros Hs. revert seen. induction Hs as [| x xs Hs IH Hall]; intros seen.
  - constructor.
  - cbn [dedup_first]. destruct (bool_decide (anomaly_key x ∈ seen)); [apply IH |].
    constructor; [apply IH |].
    apply List.Forall_forall. intros y Hy. apply dedup_first_subset in Hy.
    exact (proj1 (List.Forall_forall _ _) Hall y Hy).
Qed.

Lemma dedup_first_distinct_id (seen : gset (string * string)) (l : list Anomaly) :
  List.NoDup (map anomaly_key l) ->
  (forall a, In a l -> anomaly_key a ∉ seen) ->
  dedup_first seen l = l.
Proof.
  revert seen. induction l as [| x xs IH]; intros seen Hnd Hout; [reflexivity |].
  cbn [dedup_first]. cbn [map] in Hnd. inversion Hnd as [| k ks Hx Hnd']; subst.
  destruct (bool_decide_reflect (anomaly_key x ∈ seen)) as [Hin | _].
  - exfalso. exact (Hout x (or_introl eq_refl) Hin).
  - f_equal. apply IH; [exact Hnd' |].
    intros a Ha Hk. apply elem_of_union in Hk. destruct Hk as [Hk | Hk].
    + apply elem_of_singleton in Hk. apply Hx. rewrite <- Hk.
      apply List.in_map. exact Ha.
    + exact (Hout a (or_intror Ha) Hk).
Qed.

Lemma deduplicate_keys_distinct (anomalies : list Anomaly) :
  List.NoDup (map anomaly_key (deduplicate_anomalies anomalies)).
Proof.
  rewrite deduplicate_anomalies_closed. apply dedup_first_keys.
Qed.

(** X14: the deduplicated list holds anomalies of the input only, keeps
    every (date, bucket) key of the input and none twice, is ordered by
    date, then bucket, and deduplicating it again changes nothing. *)
Theorem deduplicate_distinct_sorted (anomalies : list Anomaly) :
  let out := deduplicate_anomalies anomalies in
  (forall a, In a out -> In a anomalies)
  /\ List.NoDup (map anomaly_key out)
  /\ (forall k, In k (map anomaly_key out) <-> In k (map anomaly_key anomalies))
  /\ StronglySorted (fun a b => dedup_leb a b = true) out
  /\ (length out <= length anomalies)%nat
  /\ deduplicate_anomalies out = out.
Proof.
  intros out. unfold out. rewrite !deduplicate_anomalies_closed.
  pose proof (sort_by_perm dedup_leb anomalies) as Hperm.
  pose proof (sort_by_sorted dedup_leb dedup_leb_total dedup_leb_trans anomalies) as Hs.
  set (sorted := sort_by dedup_leb anomalies) in *.
  destruct (dedup_first_keys ∅ sorted) as [Hnd Hout].
  pose proof (dedup_first_sorted _ ∅ sorted Hs) as Hs'.
  split.
  { intros a Ha. apply dedup_first_subset in Ha.
    apply (Permutation_in _ Hperm). exact Ha. }
  split; [exact Hnd |].
  split.
  { intros k. split.
    - intros Hk. apply List.in_map_iff in Hk. destruct Hk as [a [<- Ha]].
      apply List.in_map. apply dedup_first_subset in Ha.
      apply (Permutation_in _ Hperm). exact Ha.
    - intros Hk. apply dedup_first_keeps_keys; [| apply not_elem_of_empty].
      apply (Permutation_in _ (Permutation_map anomaly_key (Permutation_sym Hperm))).
      exact Hk. }
  split; [exact Hs' |].
  split.
  { rewrite <- (Permutation_length Hperm).
    clear. generalize (∅ : gset (string * string)).
    induction sorted as [| x xs IH]; intros seen; [reflexivity |].
    cbn [dedup_first length]. destruct (bool_decide _).
    - specialize (IH seen). lia.
    - cbn [length]. specialize (IH ({[anomaly_key x]} ∪ seen)). lia. }
  rewrite (sort_by_sorted_id dedup_leb _ Hs').
  apply dedup_first_distinct_id; [exact Hnd |].
  intros a _. apply not_elem_of_empty.
Qed.

Lemma final_leb_total (a b : Anomaly) : final_leb a b = true \/ final_leb b a = true.
Proof.
  unfold final_leb.
  destruct (Nat.ltb_spec (severity_order (severity a)) (severity_order (severity b)));
    [left; reflexivity |].
  destruct (Nat.ltb_spec (severity_order (severity b)) (severity_order (severity a)));
    [right; reflexivity |].
  apply (Qabs_leb_total deviation_pct b a).
Qed.

Lemma final_leb_cases (a b : Anomaly) :
  final_leb a b = true <->
  (severity_order (severity a) < severity_order (severity b))%nat
  \/ (severity_order (severity a) = severity_order (severity b)
      /\ Qabs (deviation_pct a) <= Qabs (deviation_pct b)).
Proof.
  unfold final_leb.
  destruct (Nat.ltb_spec (severity_order (severity a)) (severity_order (severity b)));
    [split; [intros _; left; assumption | reflexivity] |].
  destruct (Nat.ltb_spec (severity_order (severity b)) (severity_order (severity a))).
  - split; [discriminate | intros [Hlt | [He _]]; lia].
  - rewrite Qle_bool_iff. split; [intros Hq; right; split; [lia | exact Hq] |].
    intros [Hlt | [_ Hq]]; [lia | exact Hq].
Qed.

Lemma final_leb_trans (a b c : Anomaly) :
  final_leb a b = true -> final_leb b c = true -> final_leb a c = true.
Proof.
  rewrite !final_leb_cases.
  intros [H1 | [H1 Q1]] [H2 | [H2 Q2]]; try (left; lia).
  right. split; [lia | eapply Qle_trans; eassumption].
Qed.

Lemma severity_order_inj (s s' : Severity) :
  severity_order s = severity_order s' -> s = s'.
Proof. destruct s, s'; simpl; intros H; try reflexivity; discriminate H. Qed.

(** X15: every anomaly [detect_all] returns was reported by one of the
    detectors that ran (the isolation forest only when it is enabled); no
    (date, bucket) key occurs twice; "high" comes before "medium" before
    "low", and within one severity the anomalies come by increasing
    absolute percentage deviation, the smallest first. *)
Theorem detect_all_ordered (iso_forest : list Q -> list (bool * Q)) (d : Detector)
  (monthly : list MonthlyRow) :
  let out := detect_all iso_forest d monthly in
  (forall a, In a out ->
     In a (detect_zscore_anomalies d monthly)
     \/ In a (detect_mad_anomalies d monthly)
     \/ (use_isolation_forest d = true
         /\ In a (detect_isolation_forest_anomalies iso_forest monthly)))
  /\ List.NoDup (map anomaly_key out)
  /\ StronglySorted
       (fun a b =>
          (severity_order (severity a) <= severity_order (severity b))%nat
          /\ (severity a = severity b ->
              Qabs (deviation_pct a) <= Qabs (deviation_pct b)))
       out.
Proof.
  intros out. unfold out, detect_all.
  set (found := if use_isolation_forest d then _ else _).
  pose proof (sort_by_perm final_leb (deduplicate_anomalies found)) as Hperm.
  pose proof (deduplicate_subset found) as Hsub.
  pose proof (deduplicate_keys_distinct found) as Hnd.
  split.
  { intros a Ha. apply (Permutation_in _ Hperm) in Ha. apply Hsub in Ha.
    unfold found in Ha. destruct (use_isolation_forest d).
    - rewrite !in_app_iff in Ha. tauto.
    - rewrite in_app_iff in Ha. tauto. }
  split.
  { eapply Permutation_NoDup;
      [apply Permutation_map; symmetry; exact Hperm | exact Hnd]. }
  apply StronglySorted_weaken with (P := fun a b => final_leb a b = true).
  - intros a b H. apply final_leb_cases in H.
    destruct H as [H | [H Hq]].
    + split; [lia |]. intros E. rewrite E in H. lia.
    + split; [lia | intros _; exact Hq].
  - apply sort_by_sorted; [apply final_leb_total | apply final_leb_trans].
Qed.

Lemma count_up_fold {A} (key : A -> string) (l : list A) (d : gmap string nat)
  (k : string) :
  let n := length (List.filter (fun a => String.eqb (key a) k) l) in
  fold_left (fun d a => count_up d (key a)) l d !! k
  = if (n =? 0)%nat then d !! k else Some (default 0%nat (d !! k) + n)%nat.
Proof.
  revert d. induction l as [| x xs IH]; intros d; [reflexivity |].
  cbn [fold_left List.filter]. cbv zeta in IH. rewrite IH. unfold count_up.
  destruct (String.eqb_spec (key x) k) as [E | Hne].
  - rewrite E, lookup_insert_eq. cbn [length default].
    destruct (length (List.filter (fun a => String.eqb (key a) k) xs));
      cbn [Nat.eqb]; unfold Datatypes.id; f_equal; lia.
  - rewrite lookup_insert_ne by exact Hne. reflexivity.
Qed.

Lemma severity_partition (l : list Anomaly) :
  (count_severity High l + count_severity Medium l + count_severity Low l)%nat
  = length l.
Proof.
  unfold count_severity. induction l as [| a l IH]; [reflexivity |].
  cbn [List.filter length]. destruct (severity a); simpl; lia.
Qed.

(** X16: in the summary of an anomaly list the three severity counts add
    up to the total count, which is the length of the list; [by_bucket]
    and [by_type] have an entry exactly for the buckets and types that
    occur, holding the number of anomalies with that bucket or type. *)
Theorem create_summary_counts (anomalies : list Anomaly) :
  let s := create_summary anomalies in
  let count := fun (key : Anomaly -> string) (k : string) =>
                 length (List.filter (fun a => String.eqb (key a) k) anomalies) in
  total_count s = length anomalies
  /\ (high_severity_count s + medium_severity_count s + low_severity_count s)%nat
     = total_count s
  /\ (forall b : string,
        by_bucket s !! b
        = if (count bucket b =? 0)%nat then None else Some (count bucket b))
  /\ (forall t : string,
        by_type s !! t = if (count type t =? 0)%nat then None else Some (count type t)).
Proof.
  intros s count.
  assert (Es : s = {| total_count := length anomalies;
                      high_severity_count := count_severity High anomalies;
                      medium_severity_count := count_severity Medium anomalies;
                      low_severity_count := count_severity Low anomalies;
                      by_type := fold_left (fun d a => count_up d (type a)) anomalies ∅;
                      by_bucket :=
                        fold_left (fun d a => count_up d (bucket a)) anomalies ∅ |}).
  { unfold s, create_summary. destruct anomalies; reflexivity. }
  rewrite Es.
  cbn [total_count high_severity_count medium_severity_count low_severity_count
       by_bucket by_type].
  split; [reflexivity |].
  split; [apply severity_partition |].
  split.
  - intros b. rewrite (count_up_fold bucket anomalies ∅ b). cbv zeta.
    rewrite lookup_empty. reflexivity.
  - intros t. rewrite (count_up_fold type anomalies ∅ t). cbv zeta.
    rewrite lookup_empty. reflexivity.
Qed.

(** X17: an anomaly reported by the isolation-forest detector carries the
    month, bucket and amount of a monthly row of a bucket with at least
    ten rows, has the method "isolation_forest", and always the severity
    "low": the score handed to the severity ladder is an absolute value,
    which is never below the ladder's negative bounds. *)
Theorem isolation_forest_flags (iso_forest : list Q -> list (bool * Q))
  (monthly : list MonthlyRow) (a : Anomaly) :
  In a (detect_isolation_forest_anomalies iso_forest monthly) ->
  method a = IsolationForest
  /\ severity a = Low
  /\ (10 <= length (bucket_data monthly (bucket a)))%nat
  /\ exists row : MonthlyRow,
       In row monthly
       /\ date a = year_month row /\ bucket a = m_bucket row
       /\ type a = m_type row /\ amount a = m_amount row.
Proof.
  unfold detect_isolation_forest_anomalies. rewrite in_flat_map.
  intros [b [_ Ha]]. unfold isolation_forest_bucket in Ha.
  destruct (Nat.ltb_spec (length (bucket_data monthly b)) 10) as [Hlt | Hge];
    [destruct Ha |].
  apply List.in_map_iff in Ha. destruct Ha as [[row score] [<- Hp]].
  apply List.filter_In in Hp. destruct Hp as [Hp _].
  apply in_combine_l in Hp. apply bucket_data_in in Hp. destruct Hp as [Hin Hb].
  cbn [method severity bucket date type amount make_anomaly fst snd].
  split; [reflexivity |]. split; [reflexivity |].
  split; [rewrite Hb; exact Hge |].
  exists row. repeat split. exact Hin.
Qed.

Lemma isolation_forest_flags_witness :
  let monthly := spike_series 100 1000 5 in
  let a := make_anomaly (spike_row 100 1000 5 5) 100 Low IsolationForest in
  In a (detect_isolation_forest_anomalies eager_forest monthly)
  /\ severity a = Low
  /\ (10 <= length (bucket_data monthly (bucket a)))%nat.
Proof.
  intros monthly a.
  assert (Ha : In a (detect_isolation_forest_anomalies eager_forest monthly)).
  { vm_compute. left. reflexivity. }
  split; [exact Ha |].
  destruct (isolation_forest_flags eager_forest monthly a Ha) as [_ [Hs [Hn _]]].
  split; [exact Hs | exact Hn].
Defined.

End AnomalyMore.


(** ** Ratios: the result list, the scores and the recommendations *)

Section RatioMore.
Import Ratios.

Lemma ratio_result_of_name (st : Statements) (cfg : RatioConfig) :
  ratio_name (ratio_result_of st cfg) = cfg_name cfg
  /\ category (ratio_result_of st cfg) = cfg_category cfg.
Proof.
  unfold ratio_result_of.
  destruct (calculate_single_ratio st (cfg_name cfg)); split; reflexivity.
Qed.

Lemma ratio_result_of_applicable (st : Statements) (cfg : RatioConfig) :
  applicable (ratio_result_of st cfg)
  = match calculate_single_ratio st (cfg_name cfg) with Some _ => true | None => false end.
Proof.
  unfold ratio_result_of.
  destruct (calculate_single_ratio st (cfg_name cfg)); reflexivity.
Qed.

(** X18: [_calculate_ratios] keeps the results already in [self.ratios]
    and appends exactly twenty, one per configured ratio in the order of
    the configuration, each with the configured name and category.  A
    result that is not applicable has the value 0 and the status
    "warning".  The two configured ratios without a formula,
    fixed_charge_coverage_ratio and long_term_debt_to_capitalization, are
    never applicable; working_capital and free_cash_flow, which divide by
    nothing, always are. *)
Theorem calculate_ratios_appends_configured (st : Statements) (ratios : list RatioResult) :
  exists new : list RatioResult,
    calculate_ratios st ratios = ratios ++ new
    /\ length new = 20%nat
    /\ map ratio_name new = map cfg_name ratio_configs
    /\ map category new = map cfg_category ratio_configs
    /\ (forall r, In r new -> applicable r = false -> value r = 0 /\ status r = Warning)
    /\ (forall r, In r new ->
          ratio_name r = "fixed_charge_coverage_ratio"%string
          \/ ratio_name r = "long_term_debt_to_capitalization"%string ->
          applicable r = false)
    /\ (forall r, In r new ->
          ratio_name r = "working_capital"%string
          \/ ratio_name r = "free_cash_flow"%string ->
          applicable r = true).
Proof.
  exists (map (ratio_result_of st) ratio_configs).
  split; [apply calculate_ratios_spec |].
  split; [reflexivity |].
  split.
  { rewrite map_map. apply map_ext. intros cfg. apply ratio_result_of_name. }
  split.
  { rewrite map_map. apply map_ext. intros cfg. apply ratio_result_of_name. }
  split.
  { intros r Hr. apply List.in_map_iff in Hr. destruct Hr as [cfg [<- _]].
    unfold ratio_result_of.
    destruct (calculate_single_ratio st (cfg_name cfg));
      [intros H; discriminate H | intros _; split; reflexivity]. }
  split.
  - intros r Hr Hname. apply List.in_map_iff in Hr. destruct Hr as [cfg [<- _]].
    rewrite (proj1 (ratio_result_of_name st cfg)) in Hname.
    rewrite ratio_result_of_applicable.
    destruct Hname as [-> | ->]; reflexivity.
  - intros r Hr Hname. apply List.in_map_iff in Hr. destruct Hr as [cfg [<- _]].
    rewrite (proj1 (ratio_result_of_name st cfg)) in Hname.
    rewrite ratio_result_of_applicable.
    destruct Hname as [-> | ->]; reflexivity.
Qed.

(** X19: each of the three going-concern scores lies between 25 and 90,
    and so does their mean, the overall score; a category without an
    applicable ratio scores exactly 50. *)
Theorem going_concern_scores_bounded (ratios : list RatioResult) :
  let gc := assess_going_concern ratios in
  let none_in := fun cat =>
    forall r, In r ratios -> category r = cat -> applicable r = false in
  (25 <= liquidity_score gc /\ liquidity_score gc <= 90)
  /\ (25 <= solvency_score gc /\ solvency_score gc <= 90)
  /\ (25 <= cash_flow_score gc /\ cash_flow_score gc <= 90)
  /\ (25 <= overall_score (liquidity_score gc) (solvency_score gc)
              (cash_flow_score gc)
      /\ overall_score (liquidity_score gc) (solvency_score gc)
           (cash_flow_score gc) <= 90)
  /\ (none_in Liquidity -> liquidity_score gc = 50)
  /\ (none_in Solvency -> solvency_score gc = 50)
  /\ (none_in CashFlow -> cash_flow_score gc = 50).
Proof.
  intros gc none_in. unfold gc, assess_going_concern.
  cbn [liquidity_score solvency_score cash_flow_score].
  unfold calculate_liquidity_score, calculate_solvency_score,
    calculate_cash_flow_score.
  pose proof (spec_sub_score_bounds Liquidity ratios) as Hl.
  pose proof (spec_sub_score_bounds Solvency ratios) as Hs.
  pose proof (spec_sub_score_bounds CashFlow ratios) as Hc.
  rewrite <- !calculate_category_score_spec in Hl, Hs, Hc.
  assert (Hnone : forall cat, none_in cat -> calculate_category_score cat ratios = 50).
  { intros cat Hcat. unfold calculate_category_score.
    replace (List.filter (fun r => bool_decide (category r = cat) && applicable r) ratios)
      with (@nil RatioResult); [reflexivity |].
    symmetry. apply filter_nil_iff. intros r Hr.
    destruct (bool_decide_reflect (category r = cat)) as [E | _]; [| reflexivity].
    rewrite (Hcat r Hr E). reflexivity. }
  split; [exact Hl |]. split; [exact Hs |]. split; [exact Hc |].
  split.
  { unfold overall_score.
    set (l := calculate_category_score Liquidity ratios) in *.
    set (s := calculate_category_score Solvency ratios) in *.
    set (c := calculate_category_score CashFlow ratios) in *.
    assert (E : (l + s + c) / 3 == (l + s + c) * (1 # 3)) by field.
    rewrite E. lra. }
  repeat split; apply Hnone.
Qed.




Lemma flat_map_length_filter {A B} (f : A -> list B) (p : A -> bool) (l : list A) :
  (forall x, length (f x) = if p x then 1%nat else 0%nat) ->
  length (flat_map f l) = length (List.filter p l).
Proof.
  intros Hf. induction l as [| x xs IH]; [reflexivity |].
  cbn [flat_map List.filter]. rewrite length_app, Hf, IH.
  destruct (p x); reflexivity.
Qed.

(** X21: the risk list holds at most five lines: one for every
    applicable critical ratio of the categories Liquidity, Solvency and
    Cash Flow (critical ratios of the other categories give no line),
    then one for each of the first three applicable warning ratios of any
    category, cut after the fifth line.  The strength list holds one line
    per applicable excellent ratio of the three categories, at most
    five. *)
Theorem key_risks_and_strengths_count (ratios : list RatioResult) :
  let in_scope := fun r : RatioResult =>
    match category r with
    | Liquidity | Solvency | CashFlow => true
    | _ => false
    end in
  length (identify_key_risks ratios)
  = Nat.min 5 (length (List.filter in_scope (with_status Critical ratios))
               + Nat.min 3 (length (with_status Warning ratios)))
  /\ length (identify_key_strengths ratios)
     = Nat.min 5 (length (List.filter in_scope (with_status Excellent ratios)))
  /\ (length (identify_key_risks ratios) <= 5)%nat
  /\ (length (identify_key_strengths ratios) <= 5)%nat.
Proof.
  intros in_scope.
  assert (Hr : length (identify_key_risks ratios)
               = Nat.min 5 (length (List.filter in_scope (with_status Critical ratios))
                            + Nat.min 3 (length (with_status Warning ratios)))).
  { unfold identify_key_risks.
    rewrite length_firstn, length_app, List.length_map, length_firstn.
    rewrite (flat_map_length_filter critical_risk in_scope); [reflexivity |].
    intros r. unfold critical_risk, in_scope. destruct (category r); reflexivity. }
  assert (Hs : length (identify_key_strengths ratios)
               = Nat.min 5 (length (List.filter in_scope (with_status Excellent ratios)))).
  { unfold identify_key_strengths. rewrite length_firstn.
    rewrite (flat_map_length_filter strength in_scope); [reflexivity |].
    intros r. unfold strength, in_scope. destruct (category r); reflexivity. }
  split; [exact Hr |]. split; [exact Hs |].
  rewrite Hr, Hs. split; apply Nat.le_min_l.
Qed.

Lemma any_mentions_in (needle : string) (key_risks : list string) (risk : string) :
  In risk key_risks -> contains needle (lower risk) = true ->
  any_mentions needle key_risks = true.
Proof.
  intros Hin Hc. unfold any_mentions. apply existsb_exists. exists risk. tauto.
Qed.

(** X22: the recommendations always end with the three standing ones and
    hold between three and six lines: the cut after the sixth line never
    removes anything.  Every critical liquidity, solvency or cash-flow
    line among the risks brings its own urgent recommendation, whatever
    ratio it names; a risk list that mentions none of the three gives the
    standing recommendations alone. *)
Theorem recommendations_shape (key_risks : list string) :
  let recs := generate_recommendations key_risks in
  (exists urgent : list string,
     recs = urgent ++ standing_recommendations /\ (length urgent <= 3)%nat)
  /\ (3 <= length recs <= 6)%nat
  /\ (forall name : string,
        In ("Critical liquidity risk: " ++ name
            ++ " indicates severe short-term financial stress")%string key_risks ->
        In "URGENT: Implement immediate liquidity management measures including cash flow forecasting and working capital optimization"%string recs)
  /\ (forall name : string,
        In ("Critical solvency risk: " ++ name
            ++ " indicates high long-term financial risk")%string key_risks ->
        In "CRITICAL: Restructure debt obligations and consider equity infusion to improve capital structure"%string recs)
  /\ (forall name : string,
        In ("Critical cash flow risk: " ++ name
            ++ " indicates severe cash generation problems")%string key_risks ->
        In "HIGH PRIORITY: Implement aggressive cash flow improvement measures including cost reduction and revenue enhancement"%string recs)
  /\ (any_mentions "liquidity risk" key_risks = false ->
      any_mentions "solvency risk" key_risks = false ->
      any_mentions "cash flow risk" key_risks = false ->
      recs = standing_recommendations).
Proof.
  intros recs. unfold recs, generate_recommendations.
  split.
  { destruct (any_mentions "liquidity risk" key_risks),
             (any_mentions "solvency risk" key_risks),
             (any_mentions "cash flow risk" key_risks);
      eexists; (split; [cbn [app firstn standing_recommendations];
                        match goal with
                        | |- ?l = _ => instantiate (1 := firstn (length l - 3) l)
                        end; reflexivity
                       | simpl; lia]). }
  split.
  { destruct (any_mentions "liquidity risk" key_risks),
             (any_mentions "solvency risk" key_risks),
             (any_mentions "cash flow risk" key_risks); simpl; lia. }
  split.
  { intros name Hin.
    rewrite (any_mentions_in "liquidity risk" key_risks _ Hin) by reflexivity.
    destruct (any_mentions "solvency risk" key_risks),
             (any_mentions "cash flow risk" key_risks); simpl; tauto. }
  split.
  { intros name Hin.
    rewrite (any_mentions_in "solvency risk" key_risks _ Hin) by reflexivity.
    destruct (any_mentions "liquidity risk" key_risks),
             (any_mentions "cash flow risk" key_risks); simpl; tauto. }
  split.
  { intros name Hin.
    rewrite (any_mentions_in "cash flow risk" key_risks _ Hin) by reflexivity.
    destruct (any_mentions "liquidity risk" key_risks),
             (any_mentions "solvency risk" key_risks); simpl; tauto. }
  intros -> -> ->. reflexivity.
Qed.

Lemma calculate_category_score_doubled (cat : Category) (l : list RatioResult) :
  calculate_category_score cat (l ++ l) == calculate_category_score cat l.
Proof.
  rewrite !calculate_category_score_spec. unfold spec_sub_score, spec_applicable_in.
  pose proof (List.filter_app
                (fun r => bool_decide (category r = cat) && applicable r) l l) as Hf.
  set (sel2 := List.filter _ (l ++ l)) in *.
  set (sel := List.filter _ l) in *.
  clearbody sel2 sel. subst sel2.
  destruct sel as [| r0 rest]; [reflexivity |].
  cbn [app]. change (r0 :: rest ++ r0 :: rest) with ((r0 :: rest) ++ (r0 :: rest)).
  set (sel := r0 :: rest).
  assert (Hlen : (0 < length sel)%nat) by (simpl; lia).
  rewrite map_app, Qsum_app, length_app, Nat2Z.inj_add, inject_Z_plus.
  assert (Hn : 0 < inject_Z (Z.of_nat (length sel))).
  { change 0 with (inject_Z 0). rewrite <- Zlt_Qlt. lia. }
  field. lra.
Qed.

Lemma determine_overall_status_equal (l s c l' s' c' : Q) :
  l == l' -> s == s' -> c == c' ->
  determine_overall_status l s c = determine_overall_status l' s' c'.
Proof.
  intros Hl Hs Hc. unfold determine_overall_status, overall_score.
  assert (E : (l + s + c) / 3 == (l' + s' + c') / 3) by (rewrite Hl, Hs, Hc; reflexivity).
  assert (Eb : forall k, Qle_bool k ((l + s + c) / 3) = Qle_bool k ((l' + s' + c') / 3))
    by (intros k; rewrite E; reflexivity).
  rewrite !Eb. reflexivity.
Qed.

(** X23: [analyze] never clears [self.ratios].  A second run on the same
    analyzer and the same data returns forty results, the twenty of the
    first run twice; the three scores and the overall status are the same
    as after the first run. *)
Theorem analyze_twice_doubles_results (aggregated : list AggRow) :
  let first := analyze aggregated [] in
  let second := analyze aggregated (fst first) in
  fst second = fst first ++ fst first
  /\ length (fst first) = 20%nat
  /\ length (fst second) = 40%nat
  /\ liquidity_score (snd second) == liquidity_score (snd first)
  /\ solvency_score (snd second) == solvency_score (snd first)
  /\ cash_flow_score (snd second) == cash_flow_score (snd first)
  /\ overall_status (snd second) = overall_status (snd first).
Proof.
  intros first second. unfold second, first, analyze. cbn [fst snd].
  set (st := prepare_financial_statements aggregated).
  rewrite !calculate_ratios_spec. cbn [app].
  set (results := map (ratio_result_of st) ratio_configs).
  split; [reflexivity |]. split; [reflexivity |]. split; [reflexivity |].
  unfold assess_going_concern.
  cbn [liquidity_score solvency_score cash_flow_score overall_status].
  unfold calculate_liquidity_score, calculate_solvency_score, calculate_cash_flow_score.
  pose proof (calculate_category_score_doubled Liquidity results) as Hl.
  pose proof (calculate_category_score_doubled Solvency results) as Hs.
  pose proof (calculate_category_score_doubled CashFlow results) as Hc.
  split; [exact Hl |]. split; [exact Hs |]. split; [exact Hc |].
  apply determine_overall_status_equal; assumption.
Qed.

Lemma Qabs_opp_sum (tags : list string) (aggregated : list AggRow) :
  Qabs (sum_isin tags
          (map (fun r => mkAggRow (ABCOTD r) (agg_bucket r) (- agg_amount r)) aggregated))
  == Qabs (sum_isin tags aggregated).
Proof.
  unfold sum_isin. rewrite filter_map_comm, map_map. cbn [agg_amount].
  change (fun x : AggRow => isin tags (mkAggRow (ABCOTD x) (agg_bucket x) (- agg_amount x)))
    with (isin tags).
  rewrite (Qsum_map_ext (fun x : AggRow => - agg_amount x)
             (fun x => agg_amount x * (- (1)))) by (intros x _; ring).
  rewrite Qsum_map_scale.
  setoid_replace (Qsum (map agg_amount (List.filter (isin tags) aggregated)) * - (1))
    with (- Qsum (map agg_amount (List.filter (isin tags) aggregated)))
    using relation Qeq by ring.
  apply Qabs_opp.
Qed.

Lemma div_or_none_equal (x y x' y' : Q) :
  x == x' -> y == y' ->
  match div_or_none x y, div_or_none x' y' with
  | Some v, Some v' => v == v'
  | None, None => True
  | _, _ => False
  end.
Proof.
  intros Hx Hy. unfold div_or_none.
  assert (E : Qeq_bool y 0 = Qeq_bool y' 0) by (rewrite Hy; reflexivity).
  rewrite <- E. destruct (Qeq_bool y 0); [exact I |].
  rewrite Hx, Hy. reflexivity.
Qed.

Lemma determine_status_equal (v v' : Q) (thr : Thresholds) :
  v == v' -> determine_status v thr = determine_status v' thr.
Proof.
  intros E. unfold determine_status.
  assert (Eb : forall k, Qle_bool k v = Qle_bool k v') by (intros k; rewrite E; reflexivity).
  rewrite !Eb. reflexivity.
Qed.

Lemma calculate_single_ratio_sign (aggregated : list AggRow) (name : string) :
  let flipped :=
    map (fun r => mkAggRow (ABCOTD r) (agg_bucket r) (- agg_amount r)) aggregated in
  match calculate_single_ratio (prepare_financial_statements flipped) name,
        calculate_single_ratio (prepare_financial_statements aggregated) name with
  | Some v, Some v' => v == v'
  | None, None => True
  | _, _ => False
  end.
Proof.
  intros flipped.
  pose proof (fun tags => Qabs_opp_sum tags aggregated) as H. fold flipped in H.
  unfold calculate_single_ratio, prepare_financial_statements.
  cbn [balance_sheet_data income_statement_data cash_flow_data].
  unfold create_balance_sheet, create_income_statement, create_cash_flow_statement.
  cbn [bs_current_assets bs_non_current_assets bs_total_assets bs_current_liabilities
       bs_non_current_liabilities bs_total_liabilities bs_total_equity
       is_revenue is_cost_of_sales is_gross_profit is_operating_expenses is_payroll
       is_depreciation is_other_expenses is_total_operating_expenses is_ebit
       is_interest_expense is_income_tax is_net_income
       cf_operating_cash_flow cf_capital_expenditures cf_free_cash_flow
       cf_cash_and_cash_equivalents].
  repeat match goal with
         | |- context [String.eqb name ?s] => destruct (String.eqb name s)
         end;
    try exact I;
    try (apply div_or_none_equal; rewrite !H; reflexivity);
    rewrite !H; reflexivity.
Qed.

Lemma Forall2_map_same {A B} (P : B -> B -> Prop) (f g : A -> B) (l : list A) :
  (forall x, P (f x) (g x)) -> Forall2 P (map f l) (map g l).
Proof. intros H. induction l; constructor; auto. Qed.

Lemma category_score_by_status (cat : Category) (l l' : list RatioResult) :
  Forall2 (fun r r' => category r = category r' /\ applicable r = applicable r'
                       /\ status r = status r') l l' ->
  calculate_category_score cat l = calculate_category_score cat l'.
Proof.
  intros H. rewrite !calculate_category_score_spec.
  unfold spec_sub_score, spec_applicable_in.
  assert (E : map status (List.filter
                            (fun r => bool_decide (category r = cat) && applicable r) l)
              = map status (List.filter
                              (fun r => bool_decide (category r = cat) && applicable r) l')).
  { induction H as [| r r' l l' [Hc [Ha Hs]] _ IH]; [reflexivity |].
    cbn [List.filter]. rewrite Hc, Ha.
    destruct (bool_decide (category r' = cat) && applicable r'); [| exact IH].
    cbn [map]. rewrite Hs, IH. reflexivity. }
  set (sel := List.filter _ l) in *. set (sel' := List.filter _ l') in *.
  clearbody sel sel'.
  destruct sel as [| r0 rest], sel' as [| r0' rest']; try discriminate E;
    [reflexivity |].
  rewrite <- (map_map status spec_points (r0 :: rest)).
  rewrite <- (map_map status spec_points (r0' :: rest')).
  rewrite <- (List.length_map status (r0 :: rest)).
  rewrite <- (List.length_map status (r0' :: rest')).
  rewrite E. reflexivity.
Qed.

(** X24: the ratio analysis does not depend on the sign convention of
    the ledger.  Every statement line is the absolute value of a sum, so
    negating every amount leaves each ratio applicable or not as before,
    with an equal value and the same status, and the going-concern scores
    and overall status unchanged. *)
Theorem ratios_ignore_sign_convention (aggregated : list AggRow) :
  let flipped :=
    map (fun r => mkAggRow (ABCOTD r) (agg_bucket r) (- agg_amount r)) aggregated in
  let a := analyze aggregated [] in
  let b := analyze flipped [] in
  Forall2 (fun r r' =>
             ratio_name r = ratio_name r' /\ category r = category r'
             /\ applicable r = applicable r' /\ status r = status r'
             /\ value r == value r')
          (fst a) (fst b)
  /\ liquidity_score (snd a) = liquidity_score (snd b)
  /\ solvency_score (snd a) = solvency_score (snd b)
  /\ cash_flow_score (snd a) = cash_flow_score (snd b)
  /\ overall_status (snd a) = overall_status (snd b).
Proof.
  intros flipped a b. unfold a, b, analyze. cbn [fst snd].
  rewrite !calculate_ratios_spec. cbn [app].
  set (st := prepare_financial_statements aggregated).
  set (st' := prepare_financial_statements flipped).
  assert (H : Forall2 (fun r r' =>
                         ratio_name r = ratio_name r' /\ category r = category r'
                         /\ applicable r = applicable r' /\ status r = status r'
                         /\ value r == value r')
                (map (ratio_result_of st) ratio_configs)
                (map (ratio_result_of st') ratio_configs)).
  { apply Forall2_map_same. intros cfg.
    pose proof (calculate_single_ratio_sign aggregated (cfg_name cfg)) as Hs.
    cbv zeta in Hs. fold flipped st st' in Hs.
    unfold ratio_result_of.
    destruct (calculate_single_ratio st' (cfg_name cfg)) as [v' |],
             (calculate_single_ratio st (cfg_name cfg)) as [v |];
      try contradiction;
      cbn [ratio_name category applicable status value].
    - repeat split; try reflexivity.
      + apply determine_status_equal. symmetry. exact Hs.
      + symmetry. exact Hs.
    - repeat split; reflexivity. }
  split; [exact H |].
  assert (H' : Forall2 (fun r r' => category r = category r'
                                    /\ applicable r = applicable r'
                                    /\ status r = status r')
                 (map (ratio_result_of st) ratio_configs)
                 (map (ratio_result_of st') ratio_configs)).
  { eapply Forall2_impl; [exact H |]. intros r r'. tauto. }
  unfold assess_going_concern.
  cbn [liquidity_score solvency_score cash_flow_score overall_status].
  unfold calculate_liquidity_score, calculate_solvency_score, calculate_cash_flow_score.
  rewrite (category_score_by_status Liquidity _ _ H').
  rewrite (category_score_by_status Solvency _ _ H').
  rewrite (category_score_by_status CashFlow _ _ H').
  repeat split; reflexivity.
Qed.

Lemma score_wording_cases (score : Q) :
  (score_wording score = "strong"%string /\ 75 <= score)
  \/ (score_wording score = "adequate"%string /\ 50 <= score /\ score < 75)
  \/ (score_wording score = "concerning"%string /\ 25 <= score /\ score < 50)
  \/ (score_wording score = "critical"%string /\ score < 25).
Proof.
  unfold score_wording.
  destruct (Qle_bool 75 score) eqn:E1.
  { apply Qle_bool_iff in E1. left. tauto. }
  apply Qle_bool_false_iff in E1.
  destruct (Qle_bool 50 score) eqn:E2.
  { apply Qle_bool_iff in E2. right. left. tauto. }
  apply Qle_bool_false_iff in E2.
  destruct (Qle_bool 25 score) eqn:E3.
  { apply Qle_bool_iff in E3. right. right. left. tauto. }
  apply Qle_bool_false_iff in E3. right. right. right. tauto.
Qed.

(** X30: the detailed analysis never calls a category "critical": a
    category score is at least 25, which is worded "concerning"; that is
    also the wording when every applicable ratio of the category is
    critical.  A score is worded "strong" exactly from 75, "adequate"
    exactly from 50 up to 75 (so also for a category without applicable
    ratios), "concerning" exactly below 50. *)
Theorem detailed_analysis_never_critical (ratios : list RatioResult) (cat : Category) :
  let score := calculate_category_score cat ratios in
  let applicable_in := fun r => bool_decide (category r = cat) && applicable r in
  score_wording score <> "critical"%string
  /\ (score_wording score = "strong"%string <-> 75 <= score)
  /\ (score_wording score = "adequate"%string <-> 50 <= score /\ score < 75)
  /\ (score_wording score = "concerning"%string <-> score < 50)
  /\ (List.filter applicable_in ratios = [] ->
      score_wording score = "adequate"%string)
  /\ (List.filter applicable_in ratios <> [] ->
      (forall r, In r ratios -> applicable_in r = true -> status r = Critical) ->
      score == 25 /\ score_wording score = "concerning"%string).
Proof.
  intros score applicable_in.
  pose proof (spec_sub_score_bounds cat ratios) as [Hlo Hhi].
  rewrite <- calculate_category_score_spec in Hlo, Hhi. fold score in Hlo, Hhi.
  assert (Hcases := score_wording_cases score).
  assert (Hnot : score_wording score <> "critical"%string).
  { destruct Hcases as [[E _] | [[E _] | [[E _] | [_ H]]]];
      try (rewrite E; discriminate). lra. }
  split; [exact Hnot |].
  split.
  { destruct Hcases as [[E H] | [[E H] | [[E H] | [E H]]]]; rewrite E;
      split; intros H'; try discriminate H'; try reflexivity; try tauto; lra. }
  split.
  { destruct Hcases as [[E H] | [[E H] | [[E H] | [E H]]]]; rewrite E;
      split; intros H'; try discriminate H'; try reflexivity; try tauto; lra. }
  split.
  { destruct Hcases as [[E H] | [[E H] | [[E H] | [E H]]]]; rewrite E;
      split; intros H'; try discriminate H'; try reflexivity; try tauto; lra. }
  split.
  { intros Hnil. unfold score, calculate_category_score.
    fold applicable_in. rewrite Hnil. reflexivity. }
  intros Hsome Hall.
  assert (Hs : score == 25).
  { unfold score. rewrite calculate_category_score_spec.
    unfold spec_sub_score, spec_applicable_in. fold applicable_in.
    destruct (List.filter applicable_in ratios) as [| r0 rest] eqn:E;
      [contradiction Hsome; reflexivity |].
    rewrite <- E.
    assert (Hlen : (0 < length (List.filter applicable_in ratios))%nat)
      by (rewrite E; simpl; lia).
    rewrite <- (List.length_map (fun r => spec_points (status r))
                  (List.filter applicable_in ratios)).
    apply (Qmean_all_equal (map (fun r => spec_points (status r))
                              (List.filter applicable_in ratios)) 25).
    - rewrite List.length_map. exact Hlen.
    - intros x Hx. apply List.in_map_iff in Hx. destruct Hx as [r [<- Hr]].
      apply List.filter_In in Hr. destruct Hr as [Hin Happ].
      rewrite (Hall r Hin Happ). reflexivity. }
  split; [exact Hs |].
  destruct Hcases as [[E H] | [[E H] | [[E H] | [E H]]]]; try exact E; lra.
Qed.

End RatioMore.


(** ** KPIs: monthly margins, period totals, DSO and DPO, growth *)

Section KpiMore.
Import Kpis.

(** X25: [_calculate_monthly_kpis] keeps one row per month of the pivot,
    in its order.  In every row the gross profit is revenue minus OPEX
    (payroll is not deducted); when the month's revenue is not zero the
    gross margin and the OPEX ratio add up to 100 and each percentage
    times the revenue is 100 times its numerator; when the revenue is
    zero the three revenue-based percentages are 0 whatever the
    expenses; a type column missing from the pivot counts as 0 in every
    month. *)
Theorem monthly_margins_complement (p : PivotFrame) :
  let out := derive_monthly_kpis p in
  map md_year_month out = map pv_year_month (pv_rows p)
  /\ Forall (fun r =>
       md_gross_profit r = md_revenue r - md_opex r
       /\ (~ md_revenue r == 0 ->
           md_gross_margin_pct r + md_opex_ratio r == 100
           /\ md_gross_margin_pct r * md_revenue r == 100 * md_gross_profit r
           /\ md_opex_ratio r * md_revenue r == 100 * md_opex r
           /\ md_payroll_ratio r * md_revenue r == 100 * md_payroll r)
       /\ (md_revenue r == 0 ->
           md_gross_margin_pct r = 0 /\ md_opex_ratio r = 0 /\ md_payroll_ratio r = 0)
       /\ (md_opex r == 0 -> md_payroll_of_opex r = 0)
       /\ (has_Revenue p = false -> md_revenue r = 0)
       /\ (has_OPEX p = false -> md_opex r = 0)
       /\ (has_Payroll p = false -> md_payroll r = 0)) out.
Proof.
  intros out. unfold out, derive_monthly_kpis. split.
  - rewrite map_map. reflexivity.
  - apply List.Forall_forall. intros r Hr.
    apply List.in_map_iff in Hr. destruct Hr as [pr [<- _]].
    cbn [md_gross_profit md_revenue md_opex md_payroll md_gross_margin_pct
         md_opex_ratio md_payroll_ratio md_payroll_of_opex].
    set (revenue := if has_Revenue p then pv_Revenue pr else 0).
    set (opex := if has_OPEX p then pv_OPEX pr else 0).
    set (payroll := if has_Payroll p then pv_Payroll pr else 0).
    unfold pct_or_zero.
    split; [reflexivity |].
    split.
    { intros Hnz.
      assert (E : Qeq_bool revenue 0 = false).
      { destruct (Qeq_bool revenue 0) eqn:E; [| reflexivity].
        apply Qeq_bool_iff in E. contradiction. }
      rewrite E. repeat split; field; exact Hnz. }
    split.
    { intros Hz. apply Qeq_bool_iff in Hz. rewrite Hz. repeat split; reflexivity. }
    split.
    { intros Hz. apply Qeq_bool_iff in Hz. rewrite Hz. reflexivity. }
    unfold revenue, opex, payroll.
    repeat split; intros ->; reflexivity.
Qed.

(** X26: in the summary KPIs the revenue, OPEX and payroll totals are the
    sums of the amounts of the rows of that type (0 without any), the net
    profit is revenue minus OPEX minus payroll, rows of other types do not
    enter it, the per-type dictionaries have an entry exactly for the
    types that occur, and the net margin is 0 when the revenue total is
    zero and otherwise net profit over revenue, times 100. *)
Theorem summary_kpis_totals (t : Frame.Table) :
  let s := calculate_summary_kpis t in
  let of_type := fun ty : string =>
    List.filter (fun r => String.eqb (Frame.type r) ty) (Frame.rows t) in
  let total := fun ty : string => Qsum_skipna (map Frame.amount (of_type ty)) in
  total_revenue s = total "Revenue"%string
  /\ total_opex s = total "OPEX"%string
  /\ total_payroll s = total "Payroll"%string
  /\ net_profit s
     == total "Revenue"%string - total "OPEX"%string - total "Payroll"%string
  /\ (forall ty : string,
        total_by_type s !! ty
        = if (length (of_type ty) =? 0)%nat then None else Some (total ty))
  /\ (forall ty : string,
        transactions_by_type s !! ty
        = if (length (of_type ty) =? 0)%nat then None else Some (length (of_type ty)))
  /\ total_transactions s = length (Frame.rows t)
  /\ (total_revenue s == 0 -> net_margin_pct s = 0)
  /\ (~ total_revenue s == 0 ->
      net_margin_pct s * total_revenue s == 100 * net_profit s).
Proof.
  intros s of_type total.
  assert (Hby : forall ty, total_by_type s !! ty
                = if (length (of_type ty) =? 0)%nat then None else Some (total ty)).
  { intros ty. unfold s, calculate_summary_kpis. cbn [total_by_type].
    apply (list_to_map_group_by Frame.type
             (fun rows => Qsum_skipna (map Frame.amount rows)) (Frame.rows t) ty). }
  assert (Hdef : forall ty, default 0 (total_by_type s !! ty) = total ty).
  { intros ty. rewrite Hby. destruct (length (of_type ty) =? 0)%nat eqn:E;
      [| reflexivity].
    apply Nat.eqb_eq, length_zero_iff_nil in E. unfold total. rewrite E. reflexivity. }
  assert (Hrev : total_revenue s = total "Revenue"%string) by apply Hdef.
  assert (Hopex : total_opex s = total "OPEX"%string) by apply Hdef.
  assert (Hpay : total_payroll s = total "Payroll"%string) by apply Hdef.
  assert (Hnet : net_profit s = total_revenue s - (total_opex s + total_payroll s))
    by reflexivity.
  assert (Hmargin : net_margin_pct s
                    = if Qeq_bool (total_revenue s) 0 then 0
                      else net_profit s / total_revenue s * 100) by reflexivity.
  split; [exact Hrev |]. split; [exact Hopex |]. split; [exact Hpay |].
  split; [rewrite Hnet, Hrev, Hopex, Hpay; ring |].
  split; [exact Hby |].
  split.
  { intros ty. unfold s, calculate_summary_kpis. cbn [transactions_by_type].
    apply (list_to_map_group_by Frame.type (fun rows => length rows)
             (Frame.rows t) ty). }
  split; [reflexivity |].
  rewrite Hmargin. split.
  - intros Hz. apply Qeq_bool_iff in Hz. rewrite Hz. reflexivity.
  - intros Hnz.
    destruct (Qeq_bool (total_revenue s) 0) eqn:E;
      [apply Qeq_bool_iff in E; contradiction |].
    field. exact Hnz.
Qed.

(** X27: [calculate_dso] and [calculate_dpo] return a number exactly when
    the calculation is not switched off, the table has rows of the kind
    (receivable or payable) and the flow (revenue or OPEX) posted from 90
    days before the latest such row is strictly positive; the number is
    the outstanding amount ([open_amount] when the table has that column,
    else [amount]) times 90 over that flow, and one info line is logged.
    Otherwise the result is [None]: silently when switched off or when the
    flow is not positive, with a warning when there is no row of the
    kind. *)
Theorem outstanding_days_cases (enabled : option bool) (kind flow : Frame.Row -> bool)
  (no_data calculated : string) (t : Frame.Table) :
  let result := outstanding_days enabled kind flow no_data calculated t in
  let items := List.filter kind (Frame.rows t) in
  let recent := fun d : Z =>
    Qsum_skipna
      (map Frame.amount
         (List.filter (fun r => flow r && (d - 90 <=? Frame.posting_date r)%Z)
                      (Frame.rows t))) in
  let outstanding :=
    if Frame.has_column "open_amount" t
    then Qsum_skipna (map Frame.open_amount items)
    else Qsum_skipna (map Frame.amount items) in
  (enabled = Some false -> result = (None, []))
  /\ (enabled <> Some false -> items = [] ->
      result = (None, [mkLog LogWarning no_data]))
  /\ (forall d : Z,
        enabled <> Some false -> Frame.max_posting_date items = Some d ->
        (recent d <= 0 -> result = (None, []))
        /\ (0 < recent d ->
            exists v : Q,
              result = (Some v, [mkLog LogInfo calculated])
              /\ v * recent d == 90 * outstanding))
  /\ (forall v : Q, fst result = Some v ->
        enabled <> Some false
        /\ exists d : Z, Frame.max_posting_date items = Some d /\ 0 < recent d).
Proof.
  intros result items recent outstanding. unfold result, outstanding_days.
  fold items.
  assert (Hon : enabled <> Some false -> default true enabled = true).
  { destruct enabled as [[|] |]; intros H; try reflexivity. contradiction H. reflexivity. }
  split.
  { intros ->. reflexivity. }
  split.
  { intros Hen Hnil. rewrite (Hon Hen), Hnil. reflexivity. }
  split.
  { intros d Hen Hd. rewrite (Hon Hen), Hd. cbn [negb]. fold (recent d).
    split.
    - intros Hle. apply Qle_bool_iff in Hle. rewrite Hle. reflexivity.
    - intros Hpos.
      assert (E1 : Qle_bool (recent d) 0 = false).
      { apply Qle_bool_false_iff. exact Hpos. }
      assert (E2 : Qlt_bool 0 (recent d / 90) = true).
      { apply Qlt_bool_iff. apply Qlt_shift_div_l; [reflexivity | lra]. }
      rewrite E1, E2. fold outstanding.
      eexists. split; [reflexivity |]. field. lra. }
  intros v Hv.
  destruct enabled as [[|] |]; cbn [default negb] in Hv; try discriminate Hv.
  - split; [discriminate |].
    destruct (Frame.max_posting_date items) as [d |]; [| discriminate Hv].
    exists d. split; [reflexivity |]. fold (recent d) in Hv.
    destruct (Qle_bool (recent d) 0) eqn:E; [discriminate Hv |].
    apply Qle_bool_false_iff in E. exact E.
  - split; [discriminate |].
    destruct (Frame.max_posting_date items) as [d |]; [| discriminate Hv].
    exists d. split; [reflexivity |]. fold (recent d) in Hv.
    destruct (Qle_bool (recent d) 0) eqn:E; [discriminate Hv |].
    apply Qle_bool_false_iff in E. exact E.
Qed.

Lemma sorted_distinct_strict {A} (key : A -> Z) (l : list A) :
  StronglySorted (fun a b => (key a <=? key b)%Z = true) l ->
  List.NoDup (map key l) ->
  StronglySorted (fun a b => (key a < key b)%Z) l.
Proof.
  induction 1 as [| x xs Hs IH Hall]; intros Hnd; [constructor |].
  cbn [map] in Hnd. inversion Hnd as [| k ks Hx Hnd']; subst.
  constructor; [apply IH; exact Hnd' |].
  apply List.Forall_forall. intros y Hy.
  pose proof (proj1 (List.Forall_forall _ _) Hall y Hy) as Hle.
  apply Z.leb_le in Hle.
  assert (key x <> key y).
  { intros E. apply Hx. rewrite E. apply List.in_map. exact Hy. }
  lia.
Qed.

Lemma strictly_sorted_unique {A} (key : A -> Z) (l l' : list A) :
  StronglySorted (fun a b => (key a < key b)%Z) l ->
  StronglySorted (fun a b => (key a < key b)%Z) l' ->
  Permutation l l' -> l = l'.
Proof.
  intros Hs. revert l'. induction Hs as [| x xs Hs IH Hall]; intros l' Hs' Hp.
  - apply Permutation_nil in Hp. symmetry. exact Hp.
  - destruct l' as [| y ys].
    { apply Permutation_sym, Permutation_nil in Hp. discriminate Hp. }
    inversion Hs' as [| y' ys' Hs'' Hall']; subst.
    assert (Exy : x = y).
    { assert (Hx : In x (y :: ys)) by (apply (Permutation_in _ Hp); left; reflexivity).
      assert (Hy : In y (x :: xs))
        by (apply (Permutation_in _ (Permutation_sym Hp)); left; reflexivity).
      destruct Hx as [Hx | Hx]; [symmetry; exact Hx |].
      destruct Hy as [Hy | Hy]; [exact Hy |].
      pose proof (proj1 (List.Forall_forall _ _) Hall y Hy) as H1.
      pose proof (proj1 (List.Forall_forall _ _) Hall' x Hx) as H2.
      cbv beta in H1, H2. lia. }
    subst y. f_equal. apply IH; [exact Hs'' |].
    apply Permutation_cons_inv in Hp. exact Hp.
Qed.

(** Sorting by a key without ties gives the same list whatever the order
    of the input. *)
Lemma sort_by_key_unique {A} (key : A -> Z) (l l' : list A) :
  Permutation l l' -> List.NoDup (map key l) ->
  sort_by (fun a b => (key a <=? key b)%Z) l
  = sort_by (fun a b => (key a <=? key b)%Z) l'.
Proof.
  intros Hp Hnd.
  set (leb := fun a b => (key a <=? key b)%Z).
  assert (Htotal : forall a b, leb a b = true \/ leb b a = true).
  { intros a b. unfold leb. rewrite !Z.leb_le. lia. }
  assert (Htrans : forall a b c, leb a b = true -> leb b c = true -> leb a c = true).
  { intros a b c. unfold leb. rewrite !Z.leb_le. lia. }
  apply (strictly_sorted_unique key).
  - apply sorted_distinct_strict; [apply sort_by_sorted; assumption |].
    eapply Permutation_NoDup; [| exact Hnd].
    apply Permutation_map. symmetry. apply sort_by_perm.
  - apply sorted_distinct_strict; [apply sort_by_sorted; assumption |].
    eapply Permutation_NoDup; [| exact Hnd].
    apply Permutation_map. rewrite sort_by_perm. exact Hp.
  - rewrite !sort_by_perm. exact Hp.
Qed.

(** X28: the growth metrics do not depend on the order of the monthly
    rows: when no month occurs twice, any reordering of the rows gives the
    same dictionary and the same arithmetic on the way, because the rows
    are first sorted by month.  With fewer than two rows the dictionary
    is empty and nothing is computed. *)
Theorem growth_metrics_order_independent (power : Q -> Q -> Q)
  (monthly_kpis reordered : list MonthlyKpi) :
  Permutation monthly_kpis reordered ->
  List.NoDup (map year_month monthly_kpis) ->
  calculate_growth_metrics power reordered = calculate_growth_metrics power monthly_kpis
  /\ ((length monthly_kpis < 2)%nat ->
      calculate_growth_metrics power monthly_kpis = (∅, [])).
Proof.
  intros Hp Hnd. split.
  - unfold calculate_growth_metrics.
    rewrite <- (Permutation_length Hp).
    rewrite <- (sort_by_key_unique year_month monthly_kpis reordered Hp Hnd).
    reflexivity.
  - intros Hlen. unfold calculate_growth_metrics.
    apply Nat.ltb_lt in Hlen. rewrite Hlen. reflexivity.
Qed.

Lemma growth_metrics_order_independent_witness :
  let reordered := [ mkMonthlyKpi 1 5 40; mkMonthlyKpi 0 0 40 ] in
  Permutation two_months reordered
  /\ List.NoDup (map year_month two_months)
  /\ calculate_growth_metrics sample_power reordered
     = calculate_growth_metrics sample_power two_months.
Proof.
  intros reordered.
  assert (Hp : Permutation two_months reordered) by apply perm_swap.
  assert (Hnd : List.NoDup (map year_month two_months)).
  { repeat constructor; simpl; intros H; repeat destruct H as [H | H];
      try discriminate H; exact H. }
  split; [exact Hp |]. split; [exact Hnd |].
  exact (proj1 (growth_metrics_order_independent sample_power two_months reordered
                  Hp Hnd)).
Defined.

End KpiMore.
